(** * PennyLane operator core: a shallow embedding of [pennylane/operation.py]

    The development follows the layout of the Python module: Python results
    and exceptions, wire orderings, [expand_matrix], the [Operator]
    representation protocol, [Operation] inversion, [Observable]
    construction, the [Tensor] composite and the CV Heisenberg expansion. *)

From Stdlib Require Import ZArith List Lia Bool String PrimFloat.
From Stdlib Require Floats.
From stdpp Require Import gmap strings list pretty.

Local Open Scope nat_scope.

(** ** Python results: a value or a raised exception *)

Module Py.

(** The exception classes the module raises or catches. *)
Inductive exn_class :=
| Exception
| ValueError
| TypeError
| IndexError
| KeyError
| AttributeError
| RecursionError
| UnboundLocalError
| NotImplementedError
| RuntimeError
| LinAlgError
| WireError
| QueuingError
| OperatorPropertyUndefined
| DecompositionUndefinedError
| TermsUndefinedError
| MatrixUndefinedError
| SparseMatrixUndefinedError
| EigvalsUndefinedError
| DiagGatesUndefinedError
| AdjointUndefinedError
| GeneratorUndefinedError.

Global Instance exn_class_eq_dec : EqDecision exn_class.
Proof. solve_decision. Defined.

(** The direct base class, as the [class X(Base)] headers give it. *)
Definition base_class (c : exn_class) : option exn_class :=
  match c with
  | Exception => None
  | DecompositionUndefinedError | TermsUndefinedError | MatrixUndefinedError
  | SparseMatrixUndefinedError | EigvalsUndefinedError | DiagGatesUndefinedError
  | AdjointUndefinedError | GeneratorUndefinedError => Some OperatorPropertyUndefined
  | _ => Some Exception
  end.

(** [issubclass c d]: what an [except d] clause tests. *)
Definition issubclass (c d : exn_class) : bool :=
  bool_decide (c = d)
  || match base_class c with
     | Some b => bool_decide (b = d)
                 || match base_class b with
                    | Some b' => bool_decide (b' = d)
                    | None => false
                    end
     | None => false
     end.

(** An exception object: its class and, when it was raised by
    [raise C from e], its [__cause__]. *)
Inductive exn :=
| mk (c : exn_class)
| mk_from (c : exn_class) (cause : exn).

Definition exn_cls (e : exn) : exn_class :=
  match e with mk c | mk_from c _ => c end.
Definition exn_cause (e : exn) : option exn :=
  match e with mk _ => None | mk_from _ k => Some k end.

Definition isinstance_exn (e : exn) (d : exn_class) : bool := issubclass (exn_cls e) d.

Inductive res (A : Type) :=
| Ok (a : A)
| Raise (e : exn).
Arguments Ok {A} a.
Arguments Raise {A} e.

Definition bind {A B} (m : res A) (f : A -> res B) : res B :=
  match m with
  | Ok a => f a
  | Raise e => Raise e
  end.

Definition is_ok {A} (m : res A) : bool :=
  match m with Ok _ => true | Raise _ => false end.

Global Instance res_ret : MRet res := fun _ a => Ok a.
Global Instance res_bind : MBind res := fun _ _ f m => bind m f.

(** A list comprehension whose body may raise. *)
Fixpoint mapM {A B} (f : A -> res B) (l : list A) : res (list B) :=
  match l with
  | [] => Ok []
  | x :: l' => y ← f x; ys ← mapM f l'; Ok (y :: ys)
  end.

(** A [for] loop that updates [b] and may raise. *)
Fixpoint foldM {A B} (f : B -> A -> res B) (l : list A) (b : B) : res B :=
  match l with
  | [] => Ok b
  | x :: l' => b' ← f b x; foldM f l' b'
  end.

(** [try: body / except c as e: handler e]: the handler runs when the body
    raises an instance of [c]; any other exception propagates. *)
Definition try_except {A} (body : res A) (c : exn_class) (handler : exn -> res A) : res A :=
  match body with
  | Ok a => Ok a
  | Raise e => if isinstance_exn e c then handler e else Raise e
  end.

End Py.

Import Py.

(** ** Wire orderings *)

Module WiresModel.

(** A wire label is any hashable Python value; integers and strings are the
    ones the module's documentation uses. *)
Inductive label :=
| LInt (z : Z)
| LStr (s : string).

Global Instance label_eq_dec : EqDecision label.
Proof. solve_decision. Defined.

(** Modelled from the spec: the class [Wires] of [pennylane.wires], which is
    not part of this module.  It is "an ordered, deduplicated sequence of
    hashable subsystem labels" that "supports index lookup, containment
    check, union".  A [Wires] object is the list of its labels. *)
Definition Wires_t := list label.

Fixpoint nodupb (l : list label) : bool :=
  match l with
  | [] => true
  | x :: l' => negb (bool_decide (x ∈ l')) && nodupb l'
  end.

(** Modelled from the spec: the constructor [Wires(iterable)].  The sequence
    is deduplicated: an iterable that repeats a label is refused. *)
Definition Wires (l : list label) : res Wires_t :=
  if nodupb l then Ok l else Raise (mk WireError).

(** Position of a label in a list, [list.index]. *)
Fixpoint index_of (x : label) (l : list label) : option nat :=
  match l with
  | [] => None
  | y :: l' => if bool_decide (x = y) then Some 0 else S <$> index_of x l'
  end.

(** Modelled from the spec: index lookup of one label, [Wires.index(label)]. *)
Definition index (wo : Wires_t) (x : label) : res nat :=
  match index_of x wo with
  | Some i => Ok i
  | None => Raise (mk WireError)
  end.

(** Modelled from the spec: index lookup of several labels, [Wires.indices]. *)
Fixpoint indices (wo : Wires_t) (ws : list label) : res (list nat) :=
  match ws with
  | [] => Ok []
  | w :: ws' => i ← index wo w; rest ← indices wo ws'; Ok (i :: rest)
  end.

(** Modelled from the spec: the containment check [Wires.contains_wires]. *)
Definition contains_wires (wo ws : Wires_t) : bool :=
  forallb (fun w => bool_decide (w ∈ wo)) ws.

(** Modelled from the spec: union in first-seen order, [Wires.all_wires]. *)
Definition all_wires (ls : list Wires_t) : Wires_t :=
  fold_left (fun acc ws =>
               fold_left (fun acc' w => if bool_decide (w ∈ acc') then acc' else acc' ++ [w]) ws acc)
            ls [].

(** Modelled from the spec: the labels two wire sequences share, in the order
    of the first, [Wires.shared_wires]. *)
Definition shared_wires (a b : Wires_t) : Wires_t :=
  List.filter (fun w => bool_decide (w ∈ b)) a.

End WiresModel.

Import WiresModel.

(** ** Arrays of the numeric backend *)

Module NDArray.

Definition prod_shape (sh : list nat) : nat := fold_right Nat.mul 1 sh.

(** An n-dimensional array of dtype [float64]: its shape and its entries,
    IEEE 754 binary64 numbers, in row-major order. *)
Record ndarray := { shape : list nat; data : list float }.

Definition wf_array (a : ndarray) : Prop := length (data a) = prod_shape (shape a).

(** Row-major offset of a multi-index. *)
Fixpoint ravel (sh idx : list nat) : nat :=
  match sh, idx with
  | _ :: sh', i :: idx' => i * prod_shape sh' + ravel sh' idx'
  | _, _ => 0
  end.

(** The multi-indices of a shape, in row-major order. *)
Fixpoint all_indices (sh : list nat) : list (list nat) :=
  match sh with
  | [] => [[]]
  | d :: sh' => flat_map (fun i => map (cons i) (all_indices sh')) (seq 0 d)
  end.


Definition get (a : ndarray) (idx : list nat) : float :=
  nth (ravel (shape a) idx) (data a) 0%float.

Definition tabulate (sh : list nat) (f : list nat -> float) : ndarray :=
  {| shape := sh; data := map f (all_indices sh) |}.

(** [reshape(a, sh)]: same entries, new shape; the sizes must agree. *)
Definition reshape (a : ndarray) (sh : list nat) : res ndarray :=
  if prod_shape sh =? length (data a)
  then Ok {| shape := sh; data := data a |}
  else Raise (mk ValueError).

(** [eye(N)] *)
Definition eye (N : nat) : ndarray :=
  tabulate [N; N] (fun idx => match idx with
                              | [i; j] => if i =? j then 1%float else 0%float
                              | _ => 0%float
                              end).

(** The sum of a sequence of entries, in floating-point addition. *)
Definition fsum (l : list float) : float := fold_right PrimFloat.add 0%float l.

Fixpoint pos_of (p : nat) (axes : list nat) : option nat :=
  match axes with
  | [] => None
  | a :: axes' => if p =? a then Some 0 else S <$> pos_of p axes'
  end.

Definition mem_nat (p : nat) (l : list nat) : bool := existsb (Nat.eqb p) l.

(** The full multi-index of an operand of [tensordot]: the axes listed in
    [axes] take the summation values [kvals] (the i-th listed axis takes the
    i-th value), the other axes take the free values in order. *)
Fixpoint assemble (ps axes kvals frees : list nat) : list nat :=
  match ps with
  | [] => []
  | p :: ps' =>
      match pos_of p axes with
      | Some j => nth j kvals 0 :: assemble ps' axes kvals frees
      | None => match frees with
                | [] => 0 :: assemble ps' axes kvals []
                | f :: fs => f :: assemble ps' axes kvals fs
                end
      end
  end.

Definition free_axes (rank : nat) (axes : list nat) : list nat :=
  List.filter (fun p => negb (mem_nat p axes)) (seq 0 rank).

Definition dims_at (sh axes : list nat) : list nat := map (fun p => nth p sh 0) axes.

(** [tensordot(a, b, (axes_a, axes_b))]: sums the floating-point products of
    the entries of [a] and [b] over the listed axes; the result carries the free axes of
    [a] followed by the free axes of [b]. *)
Definition tensordot (a b : ndarray) (axes_a axes_b : list nat) : res ndarray :=
  let ra := length (shape a) in
  let rb := length (shape b) in
  if bool_decide (dims_at (shape a) axes_a = dims_at (shape b) axes_b)
     && forallb (fun p => p <? ra) axes_a && forallb (fun p => p <? rb) axes_b
  then
    let fa := free_axes ra axes_a in
    let fb := free_axes rb axes_b in
    let ksh := dims_at (shape a) axes_a in
    Ok (tabulate (dims_at (shape a) fa ++ dims_at (shape b) fb)
          (fun idx =>
             let ia := firstn (length fa) idx in
             let ib := skipn (length fa) idx in
             fsum (map (fun k => (get a (assemble (seq 0 ra) axes_a k ia)
                                  * get b (assemble (seq 0 rb) axes_b k ib))%float)
                       (all_indices ksh))))
  else Raise (mk ValueError).

(** [transpose(a, order)]: axis [k] of the result is axis [order[k]] of [a]. *)
Definition transpose (a : ndarray) (order : list nat) : ndarray :=
  let rank := length (shape a) in
  tabulate (dims_at (shape a) order)
    (fun j => get a (map (fun p => match pos_of p order with
                                   | Some k => nth k j 0
                                   | None => 0
                                   end) (seq 0 rank))).

(** [list.insert(i, x)] *)
Definition py_insert {A} (i : nat) (x : A) (l : list A) : list A :=
  firstn i l ++ x :: skipn i l.

Definition pair_leb (p q : nat * nat) : bool :=
  (fst p <? fst q) || ((fst p =? fst q) && (snd p <=? snd q)).

Fixpoint sorted_insert (p : nat * nat) (l : list (nat * nat)) : list (nat * nat) :=
  match l with
  | [] => [p]
  | q :: l' => if pair_leb p q then p :: l else q :: sorted_insert p l'
  end.

(** [sorted] on pairs of integers. *)
Definition py_sorted (l : list (nat * nat)) : list (nat * nat) :=
  fold_right sorted_insert [] l.

(** [moveaxis(a, source, destination)], as numpy defines it: the axes that do
    not move keep their order, and each moved axis is inserted at its
    destination, destinations taken in increasing order. *)
Definition moveaxis (a : ndarray) (source destination : list nat) : res ndarray :=
  let rank := length (shape a) in
  if (length source =? length destination)
     && forallb (fun p => p <? rank) source && forallb (fun p => p <? rank) destination
  then
    let order0 := List.filter (fun n => negb (mem_nat n source)) (seq 0 rank) in
    let order := fold_left (fun ord ds => py_insert (fst ds) (snd ds) ord)
                   (py_sorted (combine destination source)) order0 in
    Ok (transpose a order)
  else Raise (mk ValueError).

(** A matrix given by its rows. *)
Definition of_rows (rows : list (list float)) : ndarray :=
  {| shape := [length rows; match rows with [] => 0 | r :: _ => length r end];
     data := concat rows |}.


End NDArray.

Import NDArray.

(** ** [expand_matrix] *)

Module ExpandMatrix.

(** [expand_matrix(base_matrix, wires, wire_order)], on [float64] arrays:
    [convert_like] leaves a numpy matrix as it is, and [cast_like] leaves the
    identity, of dtype [float64] already, as it is. *)
Definition expand_matrix (base_matrix : ndarray) (wires wire_order : list label)
  : res ndarray :=
  wire_order ← Wires wire_order;
  let n := length wires in
  op_wire_pos ← indices wire_order wires;
  I ← reshape (eye (2 ^ length wire_order)) (repeat 2 (length wire_order * 2));
  mat_op_reshaped ← reshape base_matrix (repeat 2 (n * 2));
  mat_tensordot ← tensordot mat_op_reshaped I (seq n n) op_wire_pos;
  let unused_idxs :=
    List.filter (fun idx => negb (mem_nat idx op_wire_pos)) (seq 0 (length wire_order)) in
  let perm := op_wire_pos ++ unused_idxs in
  src ← indices wire_order wire_order;
  mat ← moveaxis mat_tensordot src perm;
  reshape mat [2 ^ length wire_order; 2 ^ length wire_order].

Definition M16 : ndarray :=
  of_rows [[1; 2; 3; 4]; [5; 6; 7; 8]; [9; 10; 11; 12]; [13; 14; 15; 16]]%float.

End ExpandMatrix.

Import ExpandMatrix.

(** ** The recording context *)

Module QueuingModel.

(** Object identity: a Python object is named by a reference. *)
Definition ref := nat.

(** The fields the module stores about a queued object. *)
Inductive infoval :=
| IBool (b : bool)
| IRef (r : ref)
| ITuple (rs : list ref).

(** Python truthiness, as [not v] uses it. *)
Definition truthy (v : infoval) : bool :=
  match v with
  | IBool b => b
  | IRef _ => true
  | ITuple rs => negb (bool_decide (rs = []))
  end.

(** Modelled from the spec: the recording context, an external collaborator
    that "exposes [append(operator)], [update_info(operator, **fields)],
    [get_info(operator) -> fields], [is_recording() -> bool]".  Each call may
    raise; [get_info] yields [None] when there are no fields to return. *)
Class QueuingContext (ctx : Type) := {
  recording : ctx -> bool;
  append : ctx -> ref -> gmap string infoval -> res ctx;
  update_info : ctx -> ref -> gmap string infoval -> res ctx;
  get_info : ctx -> ref -> res (option (gmap string infoval));
}.

(** The state in which nothing is recording: every call is a no-op. *)
Inductive no_context := NoContext.

Global Instance no_context_queuing : QueuingContext no_context := {|
  recording _ := false;
  append q _ _ := Ok q;
  update_info q _ _ := Ok q;
  get_info _ _ := Ok None;
|}.

End QueuingModel.

Import QueuingModel.

(** ** Operators *)

Module OperatorModel.

(** Python values passed as positional arguments and stored as parameters. *)
Inductive pyval :=
| PyNone
| PyInt (z : Z)
| PyFloat (f : float)
| PyStr (s : string)
| PyArr (a : ndarray)
| PyList (l : list pyval)
| PyWires (w : Wires_t).

(** [WiresEnum]: an [IntEnum], so [num_wires] is an integer and the two
    members compare equal to 0 and -1. *)
Definition AllWires : Z := 0.
Definition AnyWires : Z := -1.

Inductive op_kind :=
| KOperator
| KOperation
| KObservable.

Section Operator.

(** The eigenvalue arrays of the numeric backend. *)
Context {eigs : Type}.
Context {ctx : Type} `{QueuingContext ctx}.

(** Backend functions: [Wires(v)] on an arbitrary value, [np.linalg.eigvals],
    [qml.math.conj], and the canonical form
    [qml.math.round(qml.math.real(d) % (k * np.pi), 10)] of a parameter,
    [str] of a parameter list and [hash] of the key tuple. *)
Variable Wires_ctor : pyval -> res Wires_t.
Variable np_linalg_eigvals : ndarray -> res eigs.
Variable math_conj : ndarray -> ndarray.
Variable round_real_mod : nat -> pyval -> res pyval.
Variable py_str : list pyval -> string.
Variable py_hash : string * list label * string -> Z.

(** The class attributes and static methods a subclass overrides. *)
Record op_class := {
  class_name : string;
  kind : op_kind;
  num_wires : Z;
  num_params_fixed : option nat;
  compute_matrix : list pyval -> gmap string pyval -> res ndarray;
  compute_eigvals : list pyval -> gmap string pyval -> res eigs;
}.

(** The instance attributes. [_inverse] is an attribute of Operations. *)
Record operator := {
  cls : op_class;
  _name : string;
  _id : option string;
  queue_idx : option nat;
  _num_params : nat;
  _wires : Wires_t;
  data : list pyval;
  _hyperparameters : gmap string pyval;
  _inverse : bool;
}.

(** [Operation.inverse] *)
Definition inverse (self : operator) : bool := _inverse self.

(** The [name] property: [Operator.name], overridden by [Operation.name]. *)
Definition name (self : operator) : string :=
  match kind (cls self) with
  | KOperation => if inverse self then (_name self ++ ".inv")%string else _name self
  | _ => _name self
  end.

Definition wires (self : operator) : Wires_t := _wires self.
Definition parameters (self : operator) : list pyval := data self.
Definition hyperparameters (self : operator) : gmap string pyval := _hyperparameters self.

(** The [num_params] property: the number of parameters the operator was
    created with, unless the subclass fixes it. *)
Definition num_params (c : op_class) (_num_params : nat) : nat :=
  match num_params_fixed c with
  | Some k => k
  | None => _num_params
  end.

Definition in_names (n : string) (l : list string) : bool := bool_decide (n ∈ l).

(** [_process_data(op)] *)
Definition _process_data (op : operator) : res string :=
  if in_names (name op) ["RX"; "RY"; "RZ"; "PhaseShift"; "Rot"]%string
  then ds ← mapM (round_real_mod 2) (data op); Ok (py_str ds)
  else if in_names (name op) ["CRX"; "CRY"; "CRZ"; "CRot"]%string
  then ds ← mapM (round_real_mod 4) (data op); Ok (py_str ds)
  else Ok (py_str (data op)).

(** What a property returns: [None] or an integer. *)
Inductive pyret :=
| RetNone
| RetInt (z : Z).

(** The first [hash] property of the class body (line 517). *)
Definition hash_517 (self : operator) : res pyret :=
  ds ← _process_data self;
  Ok (RetInt (py_hash (name self, wires self, ds))).

(** The second [hash] property of the class body (line 1236): it builds
    [data_string] and ends; a Python function that ends without [return]
    returns [None]. *)
Definition hash_1236 (self : operator) : res pyret :=
  data_string ←
    (if in_names (name self) ["RX"; "RY"; "RZ"; "PhaseShift"; "Rot"]%string
     then ds ← mapM (round_real_mod 2) (data self); Ok (py_str ds)
     else if in_names (name self) ["CRX"; "CRY"; "CRZ"; "CRot"]%string
     then ds ← mapM (round_real_mod 4) (data self); Ok (py_str ds)
     else Ok (py_str (data self)));
  Ok RetNone.

(** The bindings of [hash] in the body of [class Operator], in source order. *)
Definition Operator_body : list (string * (operator -> res pyret)) :=
  [("hash"%string, hash_517); ("hash"%string, hash_1236)].

(** A class body runs top to bottom and each [def] assigns its name in the
    class namespace, so a later binding replaces an earlier one. *)
Definition class_namespace (body : list (string * (operator -> res pyret)))
  : gmap string (operator -> res pyret) :=
  fold_left (fun ns km => <[fst km := snd km]> ns) body ∅.

(** [op.hash] *)
Definition hash (self : operator) : res pyret :=
  match class_namespace Operator_body !! "hash"%string with
  | Some m => m self
  | None => Raise (mk AttributeError)
  end.

(** [qml.math.T]: the axes reversed. *)
Definition math_T (a : ndarray) : ndarray := transpose a (rev (seq 0 (length (shape a)))).

(** [Operator.matrix(wire_order=None)] *)
Definition Operator_matrix (self : operator) (wire_order : option (list label))
  : res ndarray :=
  canonical_matrix ← compute_matrix (cls self) (parameters self) (hyperparameters self);
  match wire_order with
  | None => Ok canonical_matrix
  | Some wire_order =>
      w ← Wires wire_order;
      if bool_decide (wires self = w) then Ok canonical_matrix
      else expand_matrix canonical_matrix (wires self) wire_order
  end.

(** [Operation.matrix(wire_order=None)] *)
Definition Operation_matrix (self : operator) (wire_order : option (list label))
  : res ndarray :=
  canonical_matrix ← compute_matrix (cls self) (parameters self) (hyperparameters self);
  let canonical_matrix :=
    if inverse self then math_conj (math_T canonical_matrix) else canonical_matrix in
  match wire_order with
  | None => Ok canonical_matrix
  | Some wire_order =>
      w ← Wires wire_order;
      if bool_decide (wires self = w) then Ok canonical_matrix
      else expand_matrix canonical_matrix (wires self) wire_order
  end.

(** [self.matrix()]: the method the object's class provides. *)
Definition matrix (self : operator) (wire_order : option (list label)) : res ndarray :=
  match kind (cls self) with
  | KOperation => Operation_matrix self wire_order
  | _ => Operator_matrix self wire_order
  end.

(** [Operator.eigvals()] *)
Definition Operator_eigvals (self : operator) : res eigs :=
  try_except (compute_eigvals (cls self) (parameters self) (hyperparameters self))
    EigvalsUndefinedError
    (fun _ =>
       try_except (m ← matrix self None; np_linalg_eigvals m)
         MatrixUndefinedError
         (fun e => Raise (mk_from EigvalsUndefinedError e))).

Definition set_inverse (self : operator) (b : bool) : operator :=
  {| cls := cls self; _name := _name self; _id := _id self; queue_idx := queue_idx self;
     _num_params := _num_params self; _wires := _wires self; data := data self;
     _hyperparameters := _hyperparameters self; _inverse := b |}.

(** [Operation.inv()]: the context after the call and the object after the
    call (the method returns [self]). *)
Definition inv (q : ctx) (self_ref : ref) (self : operator) : res (ctx * operator) :=
  if recording q then
    info ← get_info q self_ref;
    match info with
    | None => Raise (mk AttributeError)
    | Some info =>
        let current_inv := match info !! "inverse"%string with
                           | Some v => truthy v
                           | None => false
                           end in
        q' ← update_info q self_ref {[ "inverse"%string := IBool (negb current_inv) ]};
        Ok (q', self)
    end
  else Ok (q, set_inverse self (negb (_inverse self))).

(** The wire-count check of the constructor: [num_wires != AllWires and
    num_wires != AnyWires and len(wires) != num_wires]. *)
Definition wrong_number_of_wires (num_wires : Z) (len_wires : nat) : bool :=
  negb (num_wires =? AllWires)%Z && negb (num_wires =? AnyWires)%Z
  && negb (Z.of_nat len_wires =? num_wires)%Z.

(** [Operator.__init__(self, *params, wires=None, do_queue=True, id=None)];
    [self_ref] is the identity of the object under construction and [hp] the
    hyperparameters a subclass stored on it.  The keyword [wires] is [PyNone]
    when it is not given. *)
Definition Operator_init (c : op_class) (self_ref : ref) (hp : gmap string pyval)
    (params : list pyval) (wires : pyval) (do_queue : bool) (id : option string)
    (q : ctx) : res (operator * ctx) :=
  match wires with
  | PyNone => Raise (mk ValueError)
  | _ =>
      if negb (length params =? num_params c (length params)) then Raise (mk ValueError)
      else
        ws ← match wires with
             | PyWires w => Ok w
             | _ => Wires_ctor wires
             end;
        if wrong_number_of_wires (num_wires c) (length ws) then Raise (mk ValueError)
        else
          let self := {| cls := c; _name := class_name c; _id := id; queue_idx := None;
                         _num_params := length params; _wires := ws; data := params;
                         _hyperparameters := hp; _inverse := false |} in
          if do_queue then q' ← append q self_ref ∅; Ok (self, q')
          else Ok (self, q)
  end.

(** [params[-1]] and [params[:-1]], or [IndexError] on the empty tuple. *)
Definition split_last (params : list pyval) : res (pyval * list pyval) :=
  match params with
  | [] => Raise (mk IndexError)
  | _ => Ok (List.last params PyNone, removelast params)
  end.

(** [Observable.__init__(self, *params, wires=None, do_queue=True, id=None)] *)
Definition Observable_init (c : op_class) (self_ref : ref) (hp : gmap string pyval)
    (params : list pyval) (wires : pyval) (do_queue : bool) (id : option string)
    (q : ctx) : res (operator * ctx) :=
  match wires with
  | PyNone =>
      wp ← try_except (split_last params) IndexError
              (fun err => Raise (mk_from ValueError err));
      Operator_init c self_ref hp (snd wp) (fst wp) do_queue id q
  | _ => Operator_init c self_ref hp params wires do_queue id q
  end.

End Operator.

End OperatorModel.

(** ** The [Tensor] composite *)

Module TensorModel.

Inductive ObservableReturnTypes :=
| Sample
| Variance
| Expectation
| Probability
| State.

(** A plain observable: an [Observable] that is not a [Tensor].  [obs_matrix]
    is what its [matrix()] returns or raises. *)
Record observable := {
  obs_name : string;
  obs_wires : Wires_t;
  obs_matrix : res ndarray;
}.

(** The instance attributes of a [Tensor]; [obs] and [_args] hold references. *)
Record tensor := {
  _eigvals_cache : option (list float);
  obs : list ref;
  _args : list ref;
  return_type : option ObservableReturnTypes;
}.

(** The objects of the store.  [OtherObj] is a value that is not an
    [Observable] and whose class defines no tensor product. *)
Inductive object :=
| ObsObj (o : observable)
| TensorObj (t : tensor)
| OtherObj.

(** The attributes [Tensor.__init__] sets before queueing, with [obs] as it
    grows from the empty list. *)
Definition new_tensor (obs : list ref) (args : list ref) : tensor :=
  {| _eigvals_cache := None; obs := obs; _args := args; return_type := None |}.

Definition set_obs (t : tensor) (l : list ref) : tensor :=
  {| _eigvals_cache := _eigvals_cache t; obs := l; _args := _args t;
     return_type := return_type t |}.

(** A reference to a plain observable. *)
Definition plain (h : gmap ref object) (r : ref) : Prop :=
  exists o, h !! r = Some (ObsObj o).

(** The invariant of [Tensor]: the [obs] list of every tensor of the store
    holds plain observables only, never a [Tensor]. *)
Definition flat (h : gmap ref object) : Prop :=
  forall r t, h !! r = Some (TensorObj t) -> Forall (plain h) (obs t).

(** What one constructor argument contributes to [obs]. *)
Definition constituents_of (h : gmap ref object) (o : ref) : list ref :=
  match h !! o with
  | Some (TensorObj t) => obs t
  | _ => [o]
  end.

Section Store.

Context {ctx : Type} `{QueuingContext ctx}.

(** The store and the recording context, threaded through every call; a call
    that raises leaves the mutations it made before raising. *)
Definition M (A : Type) : Type := gmap ref object * ctx -> (gmap ref object * ctx) * res A.

Definition ret {A} (a : A) : M A := fun s => (s, Ok a).
Definition raise {A} (e : exn) : M A := fun s => (s, Raise e).
Definition bindM {A B} (m : M A) (f : A -> M B) : M B :=
  fun s => match m s with
           | (s', Ok a) => f a s'
           | (s', Raise e) => (s', Raise e)
           end.

Definition get_heap : M (gmap ref object) := fun s => (s, Ok (fst s)).
Definition put_obj (r : ref) (o : object) : M unit :=
  fun s => ((<[r := o]> (fst s), snd s), Ok tt).
Definition read_ctx {A} (f : ctx -> A) : M A := fun s => (s, Ok (f (snd s))).
(** A call into the recording context; when it raises the context is as before. *)
Definition call_ctx (f : ctx -> res ctx) : M unit :=
  fun s => match f (snd s) with
           | Ok q' => ((fst s, q'), Ok tt)
           | Raise e => (s, Raise e)
           end.
Definition ask_ctx {A} (f : ctx -> res A) : M A := fun s => (s, f (snd s)).

(** [try: body / except c1: handler1 / except c2: handler2]: the first
    clause whose class the exception is an instance of handles it; an
    exception raised inside a handler is not handled by the other clause. *)
Definition tryM2 {A} (body : M A) (c1 : exn_class) (handler1 : exn -> M A)
    (c2 : exn_class) (handler2 : exn -> M A) : M A :=
  fun s => match body s with
           | (s', Ok a) => (s', Ok a)
           | (s', Raise e) =>
               if isinstance_exn e c1 then handler1 e s'
               else if isinstance_exn e c2 then handler2 e s'
               else (s', Raise e)
           end.

Fixpoint for_each (l : list ref) (body : ref -> M unit) : M unit :=
  match l with
  | [] => ret tt
  | x :: l' => bindM (body x) (fun _ => for_each l' body)
  end.

Definition is_Tensor (h : gmap ref object) (r : ref) : bool :=
  match h !! r with Some (TensorObj _) => true | _ => false end.

(** [isinstance(o, Observable)]: [Tensor] is a subclass of [Observable]. *)
Definition is_Observable (h : gmap ref object) (r : ref) : bool :=
  match h !! r with Some (ObsObj _) | Some (TensorObj _) => true | _ => false end.

(** [self.obs] of the tensor at [r]. *)
Definition obs_of (h : gmap ref object) (r : ref) : list ref :=
  match h !! r with Some (TensorObj t) => obs t | _ => [] end.

(** Replace the list [self.obs] denotes: [extend], [append] and slice
    assignment all mutate the list object in place. *)
Definition update_obs (self : ref) (f : list ref -> list ref) : M unit :=
  fun s => match fst s !! self with
           | Some (TensorObj t) => ((<[self := TensorObj (set_obs t (f (obs t)))]> (fst s), snd s), Ok tt)
           | _ => (s, Raise (mk AttributeError))
           end.

(** [Operator.queue(context)] *)
Definition Operator_queue (self : ref) : M unit :=
  call_ctx (fun q => append q self ∅).

(** The [try] block of the loop of [Tensor.queue]: record the owner of [o],
    queueing [o] first when the context does not know it.  [queue_o] is
    [o.queue(context=context)]. *)
Definition annotate_owner (queue_o : M unit) (o self : ref) : M unit :=
  tryM2
    (call_ctx (fun q => update_info q o {[ "owner"%string := IRef self ]}))
    QueuingError
    (fun _ => bindM queue_o
                (fun _ => call_ctx (fun q => update_info q o {[ "owner"%string := IRef self ]})))
    NotImplementedError
    (fun _ => ret tt).

(** The body of the loop of [Tensor.queue] for the constituent [o];
    [queue_tensor] is [Tensor.queue] with [init=False], reached through
    [o.queue(context=context)] when [o] is a tensor. *)
Definition queue_step (queue_tensor : ref -> M unit) (self : ref) (init : bool) (o : ref)
  : M unit :=
  bindM
    (if init then
       bindM get_heap (fun h =>
         if is_Tensor h o then update_obs self (fun l => l ++ obs_of h o)
         else if is_Observable h o then update_obs self (fun l => l ++ [o])
         else raise (mk ValueError))
     else ret tt)
    (fun _ =>
       bindM get_heap (fun h =>
         annotate_owner
           (if is_Tensor h o then queue_tensor o
            else if is_Observable h o then Operator_queue o
            else raise (mk AttributeError))
           o self)).

(** [Tensor.queue(context, init)].  [depth] bounds the recursion through
    [o.queue] as the interpreter's recursion limit does. *)
Fixpoint Tensor_queue (depth : nat) (self : ref) (init : bool) : M unit :=
  bindM get_heap (fun h0 =>
  let constituents :=
    match h0 !! self with
    | Some (TensorObj t) => if init then _args t else obs t
    | _ => []
    end in
  bindM
    (for_each constituents
       (queue_step (match depth with
                    | 0 => fun _ => raise (mk RecursionError)
                    | S d => fun o => Tensor_queue d o false
                    end) self init))
    (fun _ => call_ctx (fun q => append q self {[ "owns"%string := ITuple constituents ]}))).

(** A computation preserves the invariant, whether it returns or raises. *)
Definition pres {A} (m : M A) : Prop :=
  forall s, flat (fst s) -> flat (fst (fst (m s))).

(** A computation that only talks to the recording context leaves the store
    as it is. *)
Definition keeps_store {A} (m : M A) : Prop := forall s, fst (fst (m s)) = fst s.

(** The context accepts every [append] and [update_info]. *)
Definition accepting : Prop :=
  (forall q r i, exists q', update_info q r i = Ok q')
  /\ (forall q r i, exists q', append q r i = Ok q').

(** A context in which the loop of [Tensor.queue] can always record the
    owner: [update_info] returns, or raises [QueuingError] or
    [NotImplementedError]; [append] returns; and an object that has just been
    appended can be annotated. *)
Definition recovering : Prop :=
  (forall q r i,
      (exists q', update_info q r i = Ok q')
      \/ (exists e, update_info q r i = Raise e
                    /\ (isinstance_exn e QueuingError = true
                        \/ isinstance_exn e NotImplementedError = true)))
  /\ (forall q r i, exists q', append q r i = Ok q'
                               /\ forall j, exists q'', update_info q' r j = Ok q'').

(** The contexts the constructor returns in: those that accept every call,
    and those that recover, when one nested call is allowed. *)
Definition returning (depth : nat) : Prop := accepting \/ (recovering /\ 0 < depth).

(** What the loop needs of the context: the owner of an argument can be
    recorded, whatever the tensor holds so far. *)
Definition annotates (qt : ref -> M unit) self h args : Prop :=
  forall o acc (q1 : ctx),
    Forall (plain h) acc -> is_Observable h o = true ->
    exists q',
      annotate_owner
        (if is_Tensor (<[self := TensorObj (new_tensor acc args)]> h) o then qt o
         else if is_Observable (<[self := TensorObj (new_tensor acc args)]> h) o
              then Operator_queue o
              else raise (mk AttributeError))
        o self (<[self := TensorObj (new_tensor acc args)]> h, q1)
      = ((<[self := TensorObj (new_tensor acc args)]> h, q'), Ok tt).

(** [Tensor.__init__(self, *args)] on the freshly allocated object [self]. *)
Definition Tensor_init (depth : nat) (self : ref) (args : list ref) : M unit :=
  bindM (put_obj self (TensorObj (new_tensor [] args)))
        (fun _ => Tensor_queue depth self true).

(** [Tensor] applied to [args]: allocate a new object, initialise it, return it. *)
Definition Tensor_new (depth : nat) (args : list ref) : M ref :=
  bindM get_heap (fun h =>
  let self := fresh (dom h) in
  bindM (Tensor_init depth self args) (fun _ => ret self)).

(** The [if QueuingContext.recording()] block of [Tensor.__matmul__]: the
    annotations of the queue are brought up to date. *)
Definition matmul_annotate (self other : ref) (rec : bool) : M unit :=
  if rec then
    bindM (ask_ctx (fun q => get_info q self)) (fun info =>
    match info with
    | None => raise (mk TypeError)
    | Some info =>
        match info !! "owns"%string with
        | None => raise (mk KeyError)
        | Some (ITuple owns) =>
            bindM (call_ctx (fun q => update_info q self
                                        {[ "owns"%string := ITuple (owns ++ [other]) ]}))
              (fun _ => call_ctx (fun q => update_info q other
                                             {[ "owner"%string := IRef self ]}))
        | Some _ => raise (mk TypeError)
        end
    end)
  else ret tt.

(** [Tensor.__matmul__(self, other)] *)
Definition Tensor_matmul (self other : ref) : M ref :=
  bindM get_heap (fun h =>
  bindM
    (if is_Tensor h other then update_obs self (fun l => l ++ obs_of h other)
     else if is_Observable h other then update_obs self (fun l => l ++ [other])
     else raise (mk ValueError))
    (fun _ =>
       bindM (read_ctx recording) (fun rec =>
       bindM (matmul_annotate self other rec) (fun _ => ret self)))).

(** [Tensor.__rmatmul__(self, other)] *)
Definition Tensor_rmatmul (self other : ref) : M ref :=
  bindM get_heap (fun h =>
  if is_Observable h other then
    bindM (update_obs self (fun l => [other] ++ l)) (fun _ =>
    bindM (read_ctx recording) (fun rec =>
    bindM (if rec
           then call_ctx (fun q => update_info q other {[ "owner"%string := IRef self ]})
           else ret tt)
          (fun _ => ret self)))
  else raise (mk ValueError)).

(** [Observable.__matmul__(self, other)] *)
Definition Observable_matmul (depth : nat) (self other : ref) : M ref :=
  bindM get_heap (fun h =>
  if is_Tensor h other then Tensor_rmatmul other self
  else if is_Observable h other then Tensor_new depth [self; other]
  else raise (mk ValueError)).

(** The expression [a @ b]: Python calls [type(a).__matmul__(a, b)]; when the
    class of [a] defines none it calls [type(b).__rmatmul__(b, a)], which only
    [Tensor] defines; otherwise [TypeError]. *)
Definition matmul_op (depth : nat) (a b : ref) : M ref :=
  bindM get_heap (fun h =>
  match h !! a with
  | Some (TensorObj _) => Tensor_matmul a b
  | Some (ObsObj _) => Observable_matmul depth a b
  | _ => if is_Tensor h b then Tensor_rmatmul b a else raise (mk TypeError)
  end).

End Store.

End TensorModel.

(** ** Matrix representations of a [Tensor] *)

Module TensorMatrixModel.
Import TensorModel.

(** [functools.reduce(f, l)] without an initial value. *)
Definition reduce {A} (f : A -> A -> A) (l : list A) : res A :=
  match l with
  | [] => Raise (mk TypeError)
  | x :: l' => Ok (fold_left f l' x)
  end.

(** [itertools.groupby(l, key)]: the maximal runs of consecutive elements
    with equal keys. *)
Fixpoint groupby {A K} `{EqDecision K} (key : A -> K) (l : list A) : list (list A) :=
  match l with
  | [] => []
  | x :: l' =>
      match groupby key l' with
      | (y :: g) :: gs =>
          if decide (key x = key y) then (x :: y :: g) :: gs else [x] :: (y :: g) :: gs
      | _ => [[x]]
      end
  end.

(** [itertools.combinations(l, r=2)] *)
Fixpoint combinations2 {A} (l : list A) : list (A * A) :=
  match l with
  | [] => []
  | x :: l' => map (pair x) l' ++ combinations2 l'
  end.

(** [Tensor.wires]: the union of the constituents' wires. *)
Definition Tensor_wires (obs : list observable) : Wires_t :=
  all_wires (map obs_wires obs).

(** [Tensor.check_wires_partial_overlap()] *)
Definition check_wires_partial_overlap (obs : list observable) : bool :=
  existsb (fun p =>
             let shared := shared_wires (obs_wires (fst p)) (obs_wires (snd p)) in
             negb (bool_decide (shared = []))
             && (negb (bool_decide (shared = obs_wires (fst p)))
                 || negb (bool_decide (shared = obs_wires (snd p)))))
          (combinations2 obs).

(** The two warnings [Tensor.matrix] can emit. *)
Inductive warning :=
| PartialOverlapWarning
| SizeMismatchWarning (mat_size wire_size : nat).

(** [np.shape(mat)[0]] *)
Definition shape0 (mat : ndarray) : res nat :=
  match shape mat with
  | d :: _ => Ok d
  | [] => Raise (mk IndexError)
  end.

Section TensorMatrix.

(** The backend: [np.kron], [numpy.linalg.multi_dot], and the sparse
    matrices of [scipy.sparse] with [eye(2, format="coo")], [coo_matrix] and
    [kron(i, j, format="coo")]. *)
Variable np_kron : ndarray -> ndarray -> ndarray.
Variable multi_dot : list ndarray -> res ndarray.
Context {sparse : Type}.
Variable sp_eye2 : sparse.
Variable coo_matrix : ndarray -> sparse.
Variable sp_kron : sparse -> sparse -> sparse.

(** The body of the loop of [Tensor.matrix]: the block of one group. *)
Definition block (g : list observable) : res ndarray :=
  mats ← mapM obs_matrix g;
  match mats with
  | [] => Raise (mk IndexError)
  | [m] => Ok m
  | _ => multi_dot mats
  end.

Definition U_list_of (obs : list observable) : res (list ndarray) :=
  mapM block (groupby obs_wires obs).

Definition mat_size_of (U_list : list ndarray) : res nat :=
  dims ← mapM shape0 U_list; Ok (fold_right Nat.mul 1 dims).

(** [Tensor.matrix(wire_order=None)] on the constituents [self.obs]: the
    warnings emitted and the result. *)
Definition Tensor_matrix (obs : list observable) (wire_order : option (list label))
  : list warning * res ndarray :=
  match wire_order with
  | Some _ => ([], Raise (mk NotImplementedError))
  | None =>
      let partial_overlap := check_wires_partial_overlap obs in
      match U_list_of obs with
      | Raise e => ([], Raise e)
      | Ok U_list =>
          match mat_size_of U_list with
          | Raise e => ([], Raise e)
          | Ok mat_size =>
              let wire_size := 2 ^ length (Tensor_wires obs) in
              let warnings :=
                if negb (mat_size =? wire_size)
                then [if partial_overlap then PartialOverlapWarning
                      else SizeMismatchWarning mat_size wire_size]
                else [] in
              (warnings, reduce np_kron U_list)
          end
      end
  end.

(** Modelled from the spec: index lookup [Wires.index] when the label is
    given as a [Wires] object, which must hold exactly one label. *)
Definition index_wires (wo ws : Wires_t) : res nat :=
  match ws with
  | [x] => index wo x
  | _ => Raise (mk WireError)
  end.

(** The body of the loop of [Tensor.sparse_matrix]. *)
Definition place_op (wires : Wires_t) (list_of_sparse_ops : list sparse) (o : observable)
  : res (list sparse) :=
  if 1 <? length (obs_wires o) then Raise (mk ValueError)
  else
    idx ← index_wires wires (obs_wires o);
    m ← obs_matrix o;
    Ok (<[idx := coo_matrix m]> list_of_sparse_ops).

(** [Tensor.sparse_matrix(wires=None)] on the constituents [self.obs]. *)
Definition Tensor_sparse_matrix (obs : list observable) (wires : option (list label))
  : res sparse :=
  wires ← match wires with
          | None => Ok (Tensor_wires obs)
          | Some wires => Wires wires
          end;
  let list_of_sparse_ops := repeat sp_eye2 (length wires) in
  ops ← foldM (place_op wires) obs list_of_sparse_ops;
  reduce sp_kron ops.

(** The factor [Tensor.sparse_matrix] ends up with at the position of the
    wire [x], starting from [init]: the matrix of the last constituent that
    acts on [x] alone, if there is one. *)
Definition factor_at (obs : list observable) (x : label) (init : sparse) : sparse :=
  fold_left (fun acc o =>
               if bool_decide (obs_wires o = [x])
               then match obs_matrix o with
                    | Ok m => coo_matrix m
                    | Raise _ => acc
                    end
               else acc)
            obs init.

(** A constituent [Tensor.sparse_matrix] can place: it acts on one wire of
    the target ordering and its matrix is defined. *)
Definition placeable (wires : Wires_t) (o : observable) : Prop :=
  exists x m, obs_wires o = [x] /\ x ∈ wires /\ obs_matrix o = Ok m.

End TensorMatrix.

(** [gs] are the groups [itertools.groupby] cuts a list into: no group is
    empty, the elements of a group have the same key, and neighbouring groups
    have different keys. *)
Fixpoint runs {A K} `{EqDecision K} (key : A -> K) (gs : list (list A)) : bool :=
  match gs with
  | [] => true
  | [] :: _ => false
  | (x :: g) :: gs' =>
      forallb (fun y => bool_decide (key y = key x)) g
      && match gs' with
         | (y :: _) :: _ => negb (bool_decide (key y = key x))
         | _ => true
         end
      && runs key gs'
  end.

(** A constituent's wires form a contiguous block of the target ordering. *)
Definition contiguous (wires ws : Wires_t) : bool :=
  existsb (fun i => bool_decide (ws = firstn (length ws) (skipn i wires)))
          (seq 0 (S (length wires))).

End TensorMatrixModel.

(** ** Continuous-variable operators *)

Module CVModel.

Section CV.

(** The entries of the Heisenberg arrays, with the 0 and 1 of [np.zeros]
    and [np.eye]. *)
Context {R : Type}.
Variable r0 r1 : R.

(** A numpy array by its number of dimensions: a scalar, a vector, a matrix
    given by its rows, or an array of more than two dimensions, of which only
    the length of the first axis matters here. *)
Inductive array :=
| Arr0 (x : R)
| Arr1 (v : list R)
| Arr2 (rows : list (list R))
| ArrN (len0 : nat).

Definition ndim (U : array) : nat :=
  match U with Arr0 _ => 0 | Arr1 _ => 1 | Arr2 _ => 2 | ArrN _ => 3 end.

(** [len(U)]: a 0-dimensional array has no length. *)
Definition len (U : array) : res nat :=
  match U with
  | Arr0 _ => Raise (mk TypeError)
  | Arr1 v => Ok (length v)
  | Arr2 rows => Ok (length rows)
  | ArrN n => Ok n
  end.

(** What [heisenberg_expand] reads of [self]. *)
Record cv_operator := {
  wires : Wires_t;
  is_Observable : bool;
}.

(** [loc(w)]: the start of the slice [slice(ind, ind + 2)], [ind = 2 * w + 1]. *)
Definition loc (w : nat) : nat := 2 * w + 1.

(** Reading the slice [l[start:start + 2]]: numpy clips it to the array. *)
Definition get_slice {A} (l : list A) (start : nat) : list A := firstn 2 (skipn start l).

(** Assigning [l[start:start + 2] = vals]: the values must fill the (clipped)
    slice, a single value being broadcast. *)
Definition set_slice {A} (l : list A) (start : nat) (vals : list A) : res (list A) :=
  let width := length (get_slice l start) in
  if length vals =? width
  then Ok (firstn start l ++ vals ++ skipn (start + width) l)
  else match vals with
       | [v] => Ok (firstn start l ++ repeat v width ++ skipn (start + width) l)
       | _ => Raise (mk ValueError)
       end.

(** [l[i]] *)
Definition item {A} (l : list A) (i : nat) : res A :=
  match nth_error l i with
  | Some x => Ok x
  | None => Raise (mk IndexError)
  end.

(** [l[i] = x] *)
Definition set_item {A} (l : list A) (i : nat) (x : A) : res (list A) :=
  if i <? length l then Ok (<[i := x]> l) else Raise (mk IndexError).

(** [enumerate(l)] *)
Definition enumerate {A} (l : list A) : list (nat * A) := combine (seq 0 (length l)) l.

(** [U[s, j]] for a row slice [s] starting at [start]: entry [j] of each row. *)
Definition get_col_slice (U : list (list R)) (start j : nat) : res (list R) :=
  mapM (fun row => item row j) (get_slice U start).

(** [W[d, j] = vals] for a row slice [d] starting at [start]. *)
Definition set_col_slice (W : list (list R)) (start j : nat) (vals : list R)
  : res (list (list R)) :=
  let rows := get_slice W start in
  vals' ← (if length vals =? length rows then Ok vals
           else match vals with
                | [v] => Ok (repeat v (length rows))
                | _ => Raise (mk ValueError)
                end);
  rows' ← mapM (fun rv => set_item (fst rv) j (snd rv)) (combine rows vals');
  Ok (firstn start W ++ rows' ++ skipn (start + length rows) W).

(** [U[s1, s2]] for two slices: a block of at most 2 x 2 entries. *)
Definition get_block (U : list (list R)) (start1 start2 : nat) : list (list R) :=
  map (fun row => get_slice row start2) (get_slice U start1).

(** [W[d1, d2] = blk] for two slices. *)
Definition set_block (W : list (list R)) (start1 start2 : nat) (blk : list (list R))
  : res (list (list R)) :=
  let rows := get_slice W start1 in
  blk' ← (if length blk =? length rows then Ok blk
          else match blk with
               | [b] => Ok (repeat b (length rows))
               | _ => Raise (mk ValueError)
               end);
  rows' ← mapM (fun rb => set_slice (fst rb) start2 (snd rb)) (combine rows blk');
  Ok (firstn start1 W ++ rows' ++ skipn (start1 + length rows) W).

(** [np.zeros((dim, dim))] and [np.eye(dim)] *)
Definition zeros2 (dim : nat) : list (list R) := repeat (repeat r0 dim) dim.
Definition eye2 (dim : nat) : list (list R) :=
  map (fun i => map (fun j => if i =? j then r1 else r0) (seq 0 dim)) (seq 0 dim).

(** The 1-dimensional branch. *)
Definition expand1 (U : list R) (wire_indices : list nat) (dim : nat) : res (list R) :=
  let W := repeat r0 dim in
  u0 ← item U 0;
  W ← set_item W 0 u0;
  foldM (fun W kw => set_slice W (loc (snd kw)) (get_slice U (loc (fst kw))))
        (enumerate wire_indices) W.

(** The 2-dimensional branch. *)
Definition expand2 (is_obs : bool) (U : list (list R)) (wire_indices : list nat) (dim : nat)
  : res (list (list R)) :=
  let W := if is_obs then zeros2 dim else eye2 dim in
  row0 ← item U 0;
  u00 ← item row0 0;
  Wrow0 ← item W 0;
  Wrow0 ← set_item Wrow0 0 u00;
  W ← set_item W 0 Wrow0;
  foldM (fun W kw1 =>
           let s1 := loc (fst kw1) in
           let d1 := loc (snd kw1) in
           col ← get_col_slice U s1 0;
           W ← set_col_slice W d1 0 col;
           Urow0 ← item U 0;
           Wrow0 ← item W 0;
           Wrow0 ← set_slice Wrow0 d1 (get_slice Urow0 s1);
           W ← set_item W 0 Wrow0;
           foldM (fun W kw2 =>
                    set_block W d1 (loc (snd kw2)) (get_block U s1 (loc (fst kw2))))
                 (enumerate wire_indices) W)
        (enumerate wire_indices) W.

(** A matrix with [r] rows of [c] entries each. *)
Definition shape2 (W : list (list R)) (r c : nat) : Prop :=
  length W = r /\ Forall (fun row => length row = c) W.

(** The array is a vector of [n] entries or an [n] x [n] matrix. *)
Definition has_dim (U : array) (n : nat) : Prop :=
  match U with
  | Arr1 v => length v = n
  | Arr2 rows => shape2 rows n n
  | _ => False
  end.

(** The entry [U[i, j]] of a matrix, where both indices are in range. *)
Definition at2 (U : list (list R)) (i j : nat) : option R :=
  match nth_error U i with
  | Some row => nth_error row j
  | None => None
  end.

(** [CV.heisenberg_expand(self, U, wire_order)] *)
Definition heisenberg_expand (self : cv_operator) (U : array) (wire_order : Wires_t)
  : res array :=
  U_dim ← len U;
  let nw := length (wires self) in
  if 2 <? ndim U then Raise (mk ValueError)
  else if negb (U_dim =? 1 + 2 * nw) then Raise (mk ValueError)
  else if (length wire_order =? 0) || (length (wires self) =? length wire_order) then Ok U
  else if negb (contains_wires wire_order (wires self)) then Raise (mk ValueError)
  else
    wire_indices ← indices wire_order (wires self);
    let dim := 1 + length wire_order * 2 in
    match U with
    | Arr1 v => W ← expand1 v wire_indices dim; Ok (Arr1 W)
    | Arr2 rows => W ← expand2 (is_Observable self) rows wire_indices dim; Ok (Arr2 W)
    | _ => Raise (mk UnboundLocalError)
    end.

End CV.

End CVModel.

(** ** Concrete operators and backends *)

Module Examples.
Import OperatorModel.

(** [Wires(v)] for an integer, a string, or a list of them. *)
Definition label_of (v : pyval) : res label :=
  match v with
  | PyInt z => Ok (LInt z)
  | PyStr s => Ok (LStr s)
  | _ => Raise (mk WireError)
  end.

Definition Wires_ctor (v : pyval) : res Wires_t :=
  match v with
  | PyInt z => Ok [LInt z]
  | PyStr s => Ok [LStr s]
  | PyList l => ls ← mapM label_of l; Wires ls
  | PyWires w => Ok w
  | _ => Raise (mk WireError)
  end.

(** The eigenvalues of a diagonal matrix are its diagonal entries. *)
Definition diag_eigvals (m : ndarray) : res (list float) :=
  match shape m with
  | [r; c] => Ok (map (fun i => get m [i; i]) (seq 0 r))
  | _ => Raise (mk LinAlgError)
  end.

(** The entries are real: conjugation leaves them as they are. *)
Definition conj_real (m : ndarray) : ndarray := m.

(** A backend that leaves parameters as they are and hashes to 0; the statements
    below never depend on what it computes. *)
Definition round_id (k : nat) (d : pyval) : res pyval := Ok d.
Definition str_const (l : list pyval) : string := "[...]"%string.
Definition hash_const (k : string * list label * string) : Z := 0%Z.

Definition undefined_matrix (ps : list pyval) (hp : gmap string pyval) : res ndarray :=
  Raise (mk MatrixUndefinedError).
Definition undefined_eigvals (ps : list pyval) (hp : gmap string pyval) : res (list float) :=
  Raise (mk EigvalsUndefinedError).

(** The rotation [RX(phi)]: one parameter, one wire; its matrix has
    complex entries and is left out. *)
Definition RX_cls : op_class :=
  {| class_name := "RX"; kind := KOperation; num_wires := 1; num_params_fixed := Some 1;
     compute_matrix := undefined_matrix; compute_eigvals := undefined_eigvals |}.

Definition pi_float : float := 0x1.921fb54442d18p+1%float.

Definition RX (phi : float) (wire : Z) : operator (eigs := list float) :=
  {| cls := RX_cls; _name := "RX"; _id := None; queue_idx := None; _num_params := 1;
     _wires := [LInt wire]; data := [PyFloat phi]; _hyperparameters := ∅;
     _inverse := false |}.

(** [PauliZ]: matrix and eigenvalues defined. *)
Definition PauliZ_matrix : ndarray := of_rows [[1; 0]; [0; -1]]%float.

Definition PauliZ_cls : op_class :=
  {| class_name := "PauliZ"; kind := KObservable; num_wires := 1; num_params_fixed := Some 0;
     compute_matrix := fun _ _ => Ok PauliZ_matrix;
     compute_eigvals := fun _ _ => Ok [1; -1]%float |}.

(** An observable with a matrix but no [compute_eigvals] of its own. *)
Definition DiagObs_cls : op_class :=
  {| class_name := "DiagObs"; kind := KObservable; num_wires := 1; num_params_fixed := Some 0;
     compute_matrix := fun _ _ => Ok PauliZ_matrix;
     compute_eigvals := undefined_eigvals |}.

(** An operator with neither. *)
Definition Opaque_cls : op_class :=
  {| class_name := "Opaque"; kind := KOperator; num_wires := 1; num_params_fixed := Some 0;
     compute_matrix := undefined_matrix; compute_eigvals := undefined_eigvals |}.

(** A parametrised observable on any number of wires, as [Hermitian] is. *)
Definition Herm_cls : op_class :=
  {| class_name := "Hermitian"; kind := KObservable; num_wires := AnyWires;
     num_params_fixed := Some 1;
     compute_matrix := undefined_matrix; compute_eigvals := undefined_eigvals |}.

Definition instance (c : op_class (eigs := list float)) (w : Wires_t) (inv : bool)
  : operator :=
  {| cls := c; _name := class_name c; _id := None; queue_idx := None; _num_params := 0;
     _wires := w; data := []; _hyperparameters := ∅; _inverse := inv |}.

(** The rotation about Y by the angle pi, the cosine of pi / 2 taken as 0:
    its canonical matrix is [[0, -1], [1, 0]]. *)
Definition RY_pi_matrix : ndarray := of_rows [[0; -1]; [1; 0]]%float.

Definition RY_pi_cls : op_class :=
  {| class_name := "RY"; kind := KOperation; num_wires := 1; num_params_fixed := Some 0;
     compute_matrix := fun _ _ => Ok RY_pi_matrix;
     compute_eigvals := undefined_eigvals |}.

(** [np.kron] and the matrix product, on matrices. *)
Definition kron2 (a b : ndarray) : ndarray :=
  match shape a, shape b with
  | [ra; ca], [rb; cb] =>
      tabulate [ra * rb; ca * cb]
        (fun idx => match idx with
                    | [i; j] =>
                        PrimFloat.mul (get a [i / rb; j / cb]) (get b [i mod rb; j mod cb])
                    | _ => 0%float
                    end)
  | _, _ => a
  end.

Definition matmul2 (a b : ndarray) : res ndarray :=
  match shape a, shape b with
  | [ra; ca], [rb; cb] =>
      if ca =? rb
      then Ok (tabulate [ra; cb]
                 (fun idx => match idx with
                             | [i; j] =>
                                 fsum (map (fun k => PrimFloat.mul (get a [i; k]) (get b [k; j]))
                                           (seq 0 ca))
                             | _ => 0%float
                             end))
      else Raise (mk ValueError)
  | _, _ => Raise (mk ValueError)
  end.

Fixpoint multi_dot_from (acc : ndarray) (l : list ndarray) : res ndarray :=
  match l with
  | [] => Ok acc
  | m :: l' => p ← matmul2 acc m; multi_dot_from p l'
  end.

Definition multi_dot2 (l : list ndarray) : res ndarray :=
  match l with
  | [] => Raise (mk ValueError)
  | m :: l' => multi_dot_from m l'
  end.

(** Observables for a store: [PauliX(0)], [PauliZ(1)], [PauliZ(2)]. *)
Definition PauliX_matrix : ndarray := of_rows [[0; 1]; [1; 0]]%float.

Definition PauliX_on (w : Z) : TensorModel.observable :=
  {| TensorModel.obs_name := "PauliX"; TensorModel.obs_wires := [LInt w];
     TensorModel.obs_matrix := Ok PauliX_matrix |}.

Definition PauliZ_on (w : Z) : TensorModel.observable :=
  {| TensorModel.obs_name := "PauliZ"; TensorModel.obs_wires := [LInt w];
     TensorModel.obs_matrix := Ok PauliZ_matrix |}.

(** A store with three plain observables, the tensor [PauliX(0) @ PauliZ(1)]
    and a value that is not an observable. *)
Definition store0 : gmap ref TensorModel.object :=
  <[0 := TensorModel.ObsObj (PauliX_on 0)]>
    (<[1 := TensorModel.ObsObj (PauliZ_on 1)]>
       (<[2 := TensorModel.ObsObj (PauliZ_on 2)]>
          (<[3 := TensorModel.TensorObj (TensorModel.new_tensor [0; 1] [0; 1])]>
             (<[4 := TensorModel.OtherObj]> ∅)))).

(** A two-wire observable, as [Hermitian(A, wires=[0, 1])] is. *)
Definition Herm_01 : TensorModel.observable :=
  {| TensorModel.obs_name := "Hermitian"; TensorModel.obs_wires := [LInt 0; LInt 1];
     TensorModel.obs_matrix := Ok (eye 4) |}.

End Examples.

(** ** Construction of Operations *)

Module OperationModel.
Import OperatorModel.

(** How a constructor call ends: it returns, it raises, or an [assert]
    fails; the failed [assert] comes after the object was queued, so it
    carries the recording context as it then is. *)
Inductive outcome (A : Type) (ctx : Type) :=
| Returned (a : A)
| Raised (e : exn)
| AssertionFailed (q : ctx).
Arguments Returned {A ctx} a.
Arguments Raised {A ctx} e.
Arguments AssertionFailed {A ctx} q.

Section Operation.

Context {eigs : Type}.
Context {ctx : Type} `{QueuingContext ctx}.
Variable Wires_ctor : pyval -> res Wires_t.

(** The class attributes of an [Operation] subclass: [grad_method] when the
    subclass sets it ([None] inside stands for Python's [None]), and
    [grad_recipe], whose default is [None]. *)
Record operation_class := {
  base : op_class (eigs := eigs);
  grad_method_attr : option (option string);
  grad_recipe_attr : option (list pyval);
}.

(** An [Operation] instance: the attributes of an operator and the instance
    attribute [grad_recipe]. *)
Record operation := {
  op : operator (eigs := eigs);
  grad_recipe : option (list pyval);
}.

(** The [grad_method] property: ["F"], or [None] without parameters, unless
    the subclass sets it. *)
Definition grad_method (c : operation_class) (self : operator (eigs := eigs))
  : option string :=
  match grad_method_attr c with
  | Some gm => gm
  | None => if num_params (cls self) (_num_params self) =? 0 then None else Some "F"%string
  end.

(** [Operation.__init__(self, *params, wires=None, do_queue=True, id=None)] *)
Definition Operation_init (c : operation_class) (self_ref : ref) (hp : gmap string pyval)
    (params : list pyval) (wires : pyval) (do_queue : bool) (id : option string)
    (q : ctx) : outcome (operation * ctx) ctx :=
  match Operator_init Wires_ctor (base c) self_ref hp params wires do_queue id q with
  | Raise e => Raised e
  | Ok (self, q') =>
      if bool_decide (grad_method c self = Some "A"%string) then
        match grad_recipe_attr c with
        | None =>
            Returned ({| op := self;
                         grad_recipe :=
                           Some (repeat PyNone (num_params (cls self) (_num_params self))) |},
                      q')
        | Some recipe =>
            if length recipe =? num_params (cls self) (_num_params self)
            then Returned ({| op := self; grad_recipe := Some recipe |}, q')
            else AssertionFailed q'
        end
      else
        match grad_recipe_attr c with
        | None => Returned ({| op := self; grad_recipe := None |}, q')
        | Some _ => AssertionFailed q'
        end
  end.

(** The wires [Operator.__init__] stores for the argument [wires]: a [Wires]
    object as it is, anything else through the constructor [Wires]. *)
Definition resolve_wires (wires : pyval) : res Wires_t :=
  match wires with
  | PyWires w => Ok w
  | _ => Wires_ctor wires
  end.

(** [Operation.eigvals()] *)
Definition Operation_eigvals (np_linalg_eigvals : ndarray -> res eigs)
    (math_conj : ndarray -> ndarray) (conj_eigs : eigs -> eigs)
    (self : operator (eigs := eigs)) : res eigs :=
  op_eigvals ← Operator_eigvals np_linalg_eigvals math_conj self;
  if inverse self then Ok (conj_eigs op_eigvals) else Ok op_eigvals.

(** [self.eigvals()]: the method the object's class provides. *)
Definition eigvals (np_linalg_eigvals : ndarray -> res eigs)
    (math_conj : ndarray -> ndarray) (conj_eigs : eigs -> eigs)
    (self : operator (eigs := eigs)) : res eigs :=
  match kind (cls self) with
  | KOperation => Operation_eigvals np_linalg_eigvals math_conj conj_eigs self
  | _ => Operator_eigvals np_linalg_eigvals math_conj self
  end.

End Operation.

End OperationModel.

(** ** A recording context *)

Module RecordingExample.

(** Modelled from the spec: a recording context as "an append-ordered log,
    not an unordered set", with the fields stored per object; an object that
    was never appended has no fields to update or to return. *)
Definition log := list (ref * gmap string infoval).

Fixpoint log_lookup (l : log) (r : ref) : option (gmap string infoval) :=
  match l with
  | [] => None
  | (r', i) :: l' => if bool_decide (r = r') then Some i else log_lookup l' r
  end.

Fixpoint log_update (l : log) (r : ref) (fields : gmap string infoval) : log :=
  match l with
  | [] => []
  | (r', i) :: l' =>
      if bool_decide (r = r') then (r', fields ∪ i) :: l' else (r', i) :: log_update l' r fields
  end.

Global Instance log_queuing : QueuingContext log := {|
  recording _ := true;
  append l r fields :=
    Ok (match log_lookup l r with
        | Some _ => log_update l r fields
        | None => l ++ [(r, fields)]
        end);
  update_info l r fields :=
    match log_lookup l r with
    | Some _ => Ok (log_update l r fields)
    | None => Raise (mk QueuingError)
    end;
  get_info l r :=
    match log_lookup l r with
    | Some i => Ok (Some i)
    | None => Raise (mk QueuingError)
    end;
|}.

End RecordingExample.

(** ** Frames of the store *)

Module TensorFrames.
Import TensorModel.

Section Frames.

Context {ctx : Type}.

(** The store differs from [h] at most at [self], which holds a tensor built
    from the arguments [args]. *)
Definition only_self (h : gmap ref object) (self : ref) (args : list ref)
    (s : gmap ref object * ctx) : Prop :=
  exists t', fst s = <[self := TensorObj t']> h /\ _args t' = args.

End Frames.

End TensorFrames.

(** ** More concrete operators *)

Module MoreExamples.
Import OperatorModel OperationModel Examples.

(** An Operation class with an analytic gradient and the default recipe. *)
Definition Analytic_cls : operation_class (eigs := list float) :=
  {| base := {| class_name := "Analytic"; kind := KOperation; num_wires := 1;
                num_params_fixed := Some 2;
                compute_matrix := undefined_matrix; compute_eigvals := undefined_eigvals |};
     grad_method_attr := Some (Some "A"%string);
     grad_recipe_attr := None |}.

(** An Operation class that may not be differentiated but sets a recipe. *)
Definition Inconsistent_cls : operation_class (eigs := list float) :=
  {| base := {| class_name := "Inconsistent"; kind := KOperation; num_wires := AnyWires;
                num_params_fixed := None;
                compute_matrix := undefined_matrix; compute_eigvals := undefined_eigvals |};
     grad_method_attr := Some None;
     grad_recipe_attr := Some [PyNone] |}.

(** The phase gate [S]: its eigenvalues 1 and i are complex, a pair (real
    part, imaginary part) each; conjugation negates the imaginary part. *)
Definition conj_pairs (v : list (float * float)) : list (float * float) :=
  map (fun z => (fst z, PrimFloat.opp (snd z))) v.

Definition S_cls : op_class (eigs := list (float * float)) :=
  {| class_name := "S"; kind := KOperation; num_wires := 1; num_params_fixed := Some 0;
     compute_matrix := undefined_matrix;
     compute_eigvals := fun _ _ => Ok [(1, 0); (0, 1)]%float |}.

(** [S(wires=0).inv()] *)
Definition S_inv : operator (eigs := list (float * float)) :=
  {| cls := S_cls; _name := "S"; _id := None; queue_idx := None; _num_params := 0;
     _wires := [LInt 0]; data := []; _hyperparameters := ∅; _inverse := true |}.

(** [Hermitian(eye(4), wires=[a, b])] *)
Definition Herm_on (a b : Z) : TensorModel.observable :=
  {| TensorModel.obs_name := "Hermitian"; TensorModel.obs_wires := [LInt a; LInt b];
     TensorModel.obs_matrix := Ok (eye 4) |}.

End MoreExamples.

(** ** Tensors on separate wires *)

Module SeparateWires.
Import TensorModel TensorMatrixModel.

(** No two constituents share a wire. *)
Fixpoint separated (obs : list observable) : bool :=
  match obs with
  | [] => true
  | o :: rest =>
      forallb (fun o' => bool_decide (shared_wires (obs_wires o) (obs_wires o') = [])) rest
      && separated rest
  end.

(** The wires of a constituent as a [Wires] object holds them: at least one
    label, no label twice. *)
Definition proper_wires (o : observable) : bool :=
  negb (bool_decide (obs_wires o = [])) && nodupb (obs_wires o).

(** [m] is the matrix of [o], with one row per basis state of its wires. *)
Definition sized (o : observable) (m : ndarray) : Prop :=
  obs_matrix o = Ok m /\ shape0 m = Ok (2 ^ length (obs_wires o)).

End SeparateWires.

(** ** Comparison of observables *)

Module CompareModel.
Import TensorModel.

(** An entry of the set [_obs_data] builds: the name, the wires and the
    serialized parameters of one constituent. *)
Definition datum : Type := string * Wires_t * list string.

(** [==] on two Python sets, each given by the sequence of its insertions:
    every element of one is an element of the other. *)
Definition set_eqb (a b : list datum) : bool :=
  forallb (fun d => bool_decide (d ∈ b)) a && forallb (fun d => bool_decide (d ∈ a)) b.

Section Compare.

Context {ctx : Type} `{QueuingContext ctx}.

(** [isinstance(ob, qml.Identity)] and
    [tuple(param.tobytes() for param in ob.parameters)] of a plain
    observable; the class [Identity] and the parameters' types are defined
    outside this module.  A parameter without [tobytes] raises. *)
Variable is_Identity : observable -> bool.
Variable parameters_bytes : observable -> res (list string).

Definition lift {A} (r : res A) : M (ctx := ctx) A := fun s => (s, r).

(** [Tensor.non_identity_obs] of the tensor at [t]. *)
Definition non_identity_obs (h : gmap ref object) (t : ref) : list ref :=
  List.filter (fun o => match h !! o with
                        | Some (ObsObj ob) => negb (is_Identity ob)
                        | _ => true
                        end)
              (obs_of h t).

(** The body of the loop of [_obs_data].  A constituent that is itself a
    tensor has lists as parameters, which have no [tobytes], and a list as
    name, which cannot be hashed. *)
Definition datum_at (h : gmap ref object) (o : ref) : res datum :=
  match h !! o with
  | Some (ObsObj ob) => p ← parameters_bytes ob; Ok (obs_name ob, obs_wires ob, p)
  | Some (TensorObj t) =>
      match obs t with
      | [] => Raise (mk TypeError)
      | _ => Raise (mk AttributeError)
      end
  | _ => Raise (mk AttributeError)
  end.

(** [Observable._obs_data(self)]: the set, as the sequence of insertions. *)
Definition _obs_data (depth : nat) (self : ref) : M (list datum) :=
  bindM (Tensor_new depth [self]) (fun t =>
  bindM get_heap (fun h =>
  lift (mapM (datum_at h) (non_identity_obs h t)))).

(** [Observable.compare(self, other)], for the objects of the store, none
    of which is a [Hamiltonian]. *)
Definition compare (depth : nat) (self other : ref) : M bool :=
  bindM get_heap (fun h =>
  if is_Observable h other then
    bindM (_obs_data depth other) (fun d_other =>
    bindM (_obs_data depth self) (fun d_self =>
    ret (set_eqb d_other d_self)))
  else raise (mk ValueError)).


End Compare.

End CompareModel.

(** ** Eigenvalues of a tensor *)

Module TensorEigvalsModel.
Import TensorModel TensorMatrixModel.

(** [<] on Python lists of strings: lexicographic, strings by code points. *)
Fixpoint key_lt (a b : list string) : bool :=
  match a, b with
  | [], [] => false
  | [], _ :: _ => true
  | _ :: _, [] => false
  | x :: a', y :: b' =>
      match String.compare x y with
      | Lt => true
      | Gt => false
      | Eq => key_lt a' b'
      end
  end.

Fixpoint insert_by {A} (key : A -> list string) (x : A) (l : list A) : list A :=
  match l with
  | [] => [x]
  | y :: l' => if key_lt (key y) (key x) then y :: insert_by key x l' else x :: l
  end.

(** [sorted(l, key=key)]: stable, elements with equal keys keep their order. *)
Definition sorted_by {A} (key : A -> list string) (l : list A) : list A :=
  fold_right (insert_by key) [] l.

(** [itertools.groupby(l, key)] with the key of every group. *)
Fixpoint groupby_keyed {A K} `{EqDecision K} (key : A -> K) (l : list A) : list (K * list A) :=
  match l with
  | [] => []
  | x :: l' =>
      match groupby_keyed key l' with
      | (k, g) :: gs =>
          if decide (key x = k) then (k, x :: g) :: gs else (key x, [x]) :: (k, g) :: gs
      | [] => [(key x, [x])]
      end
  end.

Definition standard_observables : list string :=
  ["PauliX"; "PauliY"; "PauliZ"; "Hadamard"]%string.

Section Eigvals.

(** The arrays of eigenvalues, with [np.array([1])]. *)
Context {vec : Type}.
Variable np_array_1 : vec.

(** [pennylane.utils.pauli_eigs], [np.kron] on vectors, [str] of a wire
    label and [eigvals()] of a constituent: defined outside this class.
    [pauli_eigs] recurses on its argument down to 1 and may raise: for 0 it
    ends in [RecursionError]. *)
Variable pauli_eigs : nat -> res vec.
Variable np_kron : vec -> vec -> vec.
Variable py_str : label -> string.
Variable obs_eigvals : observable -> res vec.

Definition is_standard (o : observable) : bool :=
  bool_decide (obs_name o ∈ standard_observables).

(** The inner loop over a group of non-standard observables; the cache is
    assigned in every turn, so it keeps the value it had when a constituent
    raises. *)
Fixpoint kron_each (cache : vec) (g : list observable) : vec * res unit :=
  match g with
  | [] => (cache, Ok tt)
  | ns_ob :: g' =>
      match obs_eigvals ns_ob with
      | Ok e => kron_each (np_kron cache e) g'
      | Raise ex => (cache, Raise ex)
      end
  end.

(** The loop over the groups. *)
Fixpoint kron_groups (cache : vec) (gs : list (bool * list observable))
  : vec * res unit :=
  match gs with
  | [] => (cache, Ok tt)
  | (k, g) :: gs' =>
      if k then
        match pauli_eigs (length g) with
        | Ok e => kron_groups (np_kron cache e) gs'
        | Raise ex => (cache, Raise ex)
        end
      else match kron_each cache g with
           | (cache', Ok _) => kron_groups cache' gs'
           | (cache', Raise ex) => (cache', Raise ex)
           end
  end.

(** [Tensor.eigvals()] on the attribute [_eigvals_cache] and the
    constituents [self.obs]: the cache after the call, and the result.  The
    first assignment to the cache happens only when [pauli_eigs] has
    returned. *)
Definition Tensor_eigvals (cache : option vec) (obs : list observable)
  : option vec * res vec :=
  match cache with
  | Some v => (Some v, Ok v)
  | None =>
      match pauli_eigs (length (Tensor_wires obs)) with
      | Raise ex => (None, Raise ex)
      | Ok cache0 =>
          let obs_sorted := sorted_by (fun x => map py_str (obs_wires x)) obs in
          if existsb (fun o => negb (is_standard o)) obs then
            match kron_groups np_array_1 (groupby_keyed is_standard obs_sorted) with
            | (cache', Ok _) => (Some cache', Ok cache')
            | (cache', Raise ex) => (Some cache', Raise ex)
            end
          else (Some cache0, Ok cache0)
      end
  end.

End Eigvals.

End TensorEigvalsModel.

(** * Part II: properties *)

(** ** Wire orderings *)

Module WiresFacts.

Lemma index_of_lt (x : label) (W : Wires_t) i : index_of x W = Some i -> i < length W.
Proof.
  revert i. induction W as [|y W IH]; intros i; cbn; [discriminate|].
  case_bool_decide; [intros [= <-]; lia|].
  destruct (index_of x W) as [j|]; cbn; [|discriminate].
  intros [= <-]. specialize (IH j eq_refl). lia.
Qed.

Lemma index_of_elem (x : label) (W : Wires_t) : x ∈ W -> exists i, index_of x W = Some i.
Proof.
  induction W as [|y W IH]; intros Hx; [inversion Hx|]. cbn.
  case_bool_decide; [eauto|].
  apply elem_of_cons in Hx as [->|Hx]; [contradiction|].
  destruct (IH Hx) as [i ->]. cbn. eauto.
Qed.

End WiresFacts.

(** ** Floating-point products and sums with 0 and 1 *)

Module FloatFacts.
Import Floats.

Local Open Scope float_scope.













End FloatFacts.

Module NDArrayFacts.

Lemma prod_shape_cons d sh : prod_shape (d :: sh) = d * prod_shape sh.
Proof. reflexivity. Qed.

Lemma prod_shape_repeat2 k : prod_shape (repeat 2 k) = 2 ^ k.
Proof.
  induction k as [|k IH]; [reflexivity|].
  cbn [repeat]. rewrite prod_shape_cons, IH, Nat.pow_succ_r'. reflexivity.
Qed.


Lemma seq_block a P : map (fun t => a * P + t) (seq 0 P) = seq (a * P) P.
Proof.
  generalize (a * P) as b. intros b.
  assert (H : forall n c, map (fun t => b + t) (seq c n) = seq (b + c) n).
  { induction n as [|n IH]; intros c; simpl; [reflexivity|].
    rewrite IH. f_equal. f_equal. lia. }
  rewrite H. f_equal. lia.
Qed.

Lemma flat_map_seq_block P d a :
  flat_map (fun i => map (fun t => i * P + t) (seq 0 P)) (seq a d) = seq (a * P) (d * P).
Proof.
  revert a. induction d as [|d IH]; intros a; simpl; [reflexivity|].
  rewrite IH, seq_block. rewrite List.seq_app. f_equal. f_equal. lia.
Qed.

Lemma map_flat_map {A B C} (g : B -> C) (f : A -> list B) l :
  map g (flat_map f l) = flat_map (fun x => map g (f x)) l.
Proof. induction l as [|x l IH]; simpl; [reflexivity|]. rewrite List.map_app, IH. reflexivity. Qed.

Lemma flat_map_ext' {A B} (f g : A -> list B) l :
  (forall x, f x = g x) -> flat_map f l = flat_map g l.
Proof. intros H. induction l as [|x l IH]; simpl; [reflexivity|]. rewrite H, IH. reflexivity. Qed.

(** The row-major offsets of the multi-indices of a shape are 0, 1, 2, ... *)
Lemma map_ravel_all_indices sh :
  map (ravel sh) (all_indices sh) = seq 0 (prod_shape sh).
Proof.
  induction sh as [|d sh IH]; [reflexivity|].
  cbn [all_indices]. rewrite map_flat_map.
  rewrite (flat_map_ext' _ (fun i => map (fun t => i * prod_shape sh + t) (seq 0 (prod_shape sh)))).
  - rewrite flat_map_seq_block. reflexivity.
  - intros i. rewrite List.map_map. cbn [ravel]. rewrite <- IH, List.map_map. reflexivity.
Qed.

Lemma all_indices_length sh : length (all_indices sh) = prod_shape sh.
Proof.
  rewrite <- (List.length_map (ravel sh)), map_ravel_all_indices. apply List.length_seq.
Qed.













End NDArrayFacts.

Module ExpandMatrixFacts.
Import NDArrayFacts.






















Lemma reshape_ok (a : ndarray) sh :
  prod_shape sh = length (data a) -> reshape a sh = Ok {| shape := sh; data := data a |}.
Proof. intros H. unfold reshape. rewrite H, Nat.eqb_refl. reflexivity. Qed.

Lemma nodupb_true (l : list label) : NoDup l -> nodupb l = true.
Proof.
  induction 1 as [|x l Hx _ IH]; [reflexivity|].
  simpl. rewrite bool_decide_eq_false_2 by exact Hx. exact IH.
Qed.






(** The examples of the docstring of [expand_matrix]: a permutation of the
    wires permutes the entries, an extra wire pads with the identity. *)
Example expand_matrix_permuted :
  expand_matrix M16 [LInt 0; LInt 2] [LInt 2; LInt 0]
  = Ok (of_rows [[1; 3; 2; 4]; [9; 11; 10; 12]; [5; 7; 6; 8]; [13; 15; 14; 16]]%float).
Proof. vm_compute. reflexivity. Qed.

Example expand_matrix_padded :
  expand_matrix M16 [LInt 0; LInt 2] [LInt 0; LInt 1; LInt 2]
  = Ok (of_rows [[1; 2; 0; 0; 3; 4; 0; 0];
                 [5; 6; 0; 0; 7; 8; 0; 0];
                 [0; 0; 1; 2; 0; 0; 3; 4];
                 [0; 0; 5; 6; 0; 0; 7; 8];
                 [9; 10; 0; 0; 11; 12; 0; 0];
                 [13; 14; 0; 0; 15; 16; 0; 0];
                 [0; 0; 9; 10; 0; 0; 11; 12];
                 [0; 0; 13; 14; 0; 0; 15; 16]]%float).
Proof. vm_compute. reflexivity. Qed.



End ExpandMatrixFacts.

(** ** The [Operator] protocol *)

Module OperatorFacts.
Import OperatorModel OperationModel Examples.

Section Facts.

Context {eigs : Type}.
Context {ctx : Type} `{QueuingContext ctx}.
Variable Wires_ctor : pyval -> res Wires_t.
Variable np_linalg_eigvals : ndarray -> res eigs.
Variable math_conj : ndarray -> ndarray.
Variable conj_eigs : eigs -> eigs.
Variable round_real_mod : nat -> pyval -> res pyval.
Variable py_str : list pyval -> string.
Variable py_hash : string * list label * string -> Z.

Lemma class_namespace_hash :
  class_namespace (Operator_body (eigs := eigs) round_real_mod py_str py_hash) !! "hash"%string
  = Some (hash_1236 round_real_mod py_str).
Proof.
  unfold class_namespace, Operator_body. cbn [fold_left fst snd].
  rewrite insert_insert_eq. apply lookup_insert_eq.
Qed.

(** The first [hash] property, which the second one replaces, returns an
    integer whenever it returns. *)
Lemma hash_517_returns_integer (self : @operator eigs) (r : pyret) :
  hash_517 round_real_mod py_str py_hash self = Ok r -> exists z, r = RetInt z.
Proof.
  unfold hash_517. destruct (_process_data round_real_mod py_str self); cbn;
    [intros [= <-]; eauto | discriminate].
Qed.

(** C1 (the code departs from it): [op.hash] is the second [hash] property of
    the class body, which never returns an integer: whatever the name, the
    wires and the parameters, it returns [None] or raises. *)
Theorem hash_returns_no_integer (self : @operator eigs) :
  hash round_real_mod py_str py_hash self = hash_1236 round_real_mod py_str self
  /\ (forall z, hash round_real_mod py_str py_hash self <> Ok (RetInt z))
  /\ (forall r, hash round_real_mod py_str py_hash self = Ok r -> r = RetNone).
Proof.
  assert (Heq : hash round_real_mod py_str py_hash self
                = hash_1236 round_real_mod py_str self).
  { unfold hash. rewrite class_namespace_hash. reflexivity. }
  assert (Hnone : forall r, hash_1236 round_real_mod py_str self = Ok r -> r = RetNone).
  { intros r. unfold hash_1236.
    destruct (in_names _ _); [|destruct (in_names _ _)].
    - destruct (mapM _ _); cbn; [intros [= <-]; reflexivity | discriminate].
    - destruct (mapM _ _); cbn; [intros [= <-]; reflexivity | discriminate].
    - cbn. intros [= <-]. reflexivity. }
  split; [exact Heq|]. rewrite Heq. split.
  - intros z Hz. apply Hnone in Hz. discriminate.
  - exact Hnone.
Qed.

(** C7, as amended: for an operator that is no tensor, [eigvals()] returns
    what [compute_eigvals] returns; when that raises the eigenvalues-undefined
    error it returns the eigenvalues of [matrix()]; in both cases the result
    is conjugated when the operator is an Operation whose [inverse] flag is
    set; and when [matrix()] raises the matrix-undefined error, [eigvals()]
    raises the eigenvalues-undefined error whose cause is that error. *)
Theorem eigvals_fallback_chain (self : @operator eigs) :
  let post := fun v => match kind (cls self) with
                       | KOperation => if inverse self then conj_eigs v else v
                       | _ => v
                       end in
  (forall v,
      compute_eigvals (cls self) (parameters self) (hyperparameters self) = Ok v ->
      eigvals np_linalg_eigvals math_conj conj_eigs self = Ok (post v))
  /\ (forall e m v,
         compute_eigvals (cls self) (parameters self) (hyperparameters self) = Raise e ->
         isinstance_exn e EigvalsUndefinedError = true ->
         matrix math_conj self None = Ok m ->
         np_linalg_eigvals m = Ok v ->
         eigvals np_linalg_eigvals math_conj conj_eigs self = Ok (post v))
  /\ (forall e e',
         compute_eigvals (cls self) (parameters self) (hyperparameters self) = Raise e ->
         isinstance_exn e EigvalsUndefinedError = true ->
         matrix math_conj self None = Raise e' ->
         isinstance_exn e' MatrixUndefinedError = true ->
         eigvals np_linalg_eigvals math_conj conj_eigs self
         = Raise (mk_from EigvalsUndefinedError e')
         /\ exn_cls (mk_from EigvalsUndefinedError e') = EigvalsUndefinedError
         /\ exn_cause (mk_from EigvalsUndefinedError e') = Some e').
Proof.
  intros post.
  assert (Hrun : forall r,
             Operator_eigvals np_linalg_eigvals math_conj self = r ->
             eigvals np_linalg_eigvals math_conj conj_eigs self
             = match r with Ok v => Ok (post v) | Raise e => Raise e end).
  { intros r <-. unfold eigvals, Operation_eigvals, post.
    destruct (kind (cls self));
      destruct (Operator_eigvals np_linalg_eigvals math_conj self) as [v|e];
      try reflexivity.
    cbn [mbind res_bind Py.bind]. destruct (inverse self); reflexivity. }
  unfold Operator_eigvals in Hrun. split; [|split].
  - intros v Hv. rewrite (Hrun (Ok v)); [reflexivity|]. rewrite Hv. reflexivity.
  - intros e m v Hc He Hm Hv. rewrite (Hrun (Ok v)); [reflexivity|].
    rewrite Hc. cbn. rewrite He, Hm. cbn. rewrite Hv. reflexivity.
  - intros e e' Hc He Hm He'. split; [|split; reflexivity].
    rewrite (Hrun (Raise (mk_from EigvalsUndefinedError e'))); [reflexivity|].
    rewrite Hc. cbn. rewrite He, Hm. cbn. rewrite He'. reflexivity.
Qed.

(** C6, as amended: outside a recording context, on an Operation whose
    [inverse] flag is unset (as construction leaves it) and whose canonical
    matrix is defined, one call of [inv()] makes [matrix()] return the
    conjugate transpose of the canonical matrix, and on one whose flag is set
    it makes [matrix()] return the canonical matrix; two calls of [inv()]
    give back the operation as it was, flag and [matrix()] included. *)
Theorem inv_toggles_matrix (q : ctx) (r : ref) (self : @operator eigs) (M : ndarray) :
  recording q = false ->
  compute_matrix (cls self) (parameters self) (hyperparameters self) = Ok M ->
  (exists self1,
      inv q r self = Ok (q, self1)
      /\ inverse self1 = negb (inverse self)
      /\ (inverse self = false ->
          Operation_matrix math_conj self1 None = Ok (math_conj (math_T M)))
      /\ (inverse self = true -> Operation_matrix math_conj self1 None = Ok M)
      /\ exists self2,
          inv q r self1 = Ok (q, self2)
          /\ self2 = self
          /\ inverse self2 = inverse self
          /\ Operation_matrix math_conj self2 None = Operation_matrix math_conj self None).
Proof.
  intros Hrec HM. unfold inv. rewrite Hrec.
  eexists. split; [reflexivity|].
  split; [reflexivity|].
  unfold parameters, hyperparameters, inverse in *.
  split; [|split].
  - intros Hinv. unfold Operation_matrix, parameters, hyperparameters, inverse.
    cbn [cls set_inverse data _hyperparameters _inverse].
    rewrite HM, Hinv. reflexivity.
  - intros Hinv. unfold Operation_matrix, parameters, hyperparameters, inverse.
    cbn [cls set_inverse data _hyperparameters _inverse].
    rewrite HM, Hinv. reflexivity.
  - eexists. split; [reflexivity|].
    assert (Hself : set_inverse (set_inverse self (negb (_inverse self)))
                      (negb (_inverse (set_inverse self (negb (_inverse self))))) = self).
    { destruct self as [c n i qi np w d hp b]. unfold set_inverse. cbn.
      rewrite negb_involutive. reflexivity. }
    rewrite Hself. repeat split; reflexivity.
Qed.

(** C10: an Observable built without the [wires] keyword is built as if its
    last positional argument had been given as [wires] and the others as
    parameters; with no positional argument at all the constructor raises the
    must-specify-wires [ValueError] (caused by the [IndexError]) and returns
    no object. *)
Theorem Observable_init_last_is_wires (c : @op_class eigs) (r : ref) (hp : gmap string pyval)
    (do_queue : bool) (id : option string) (q : ctx) :
  (forall ps w,
      Observable_init Wires_ctor c r hp (ps ++ [w]) PyNone do_queue id q
      = Operator_init Wires_ctor c r hp ps w do_queue id q)
  /\ (forall ps w self q',
         Observable_init Wires_ctor c r hp (ps ++ [w]) PyNone do_queue id q = Ok (self, q') ->
         data self = ps
         /\ match w with PyWires x => Ok x | _ => Wires_ctor w end = Ok (wires self))
  /\ Observable_init Wires_ctor c r hp [] PyNone do_queue id q
     = Raise (mk_from ValueError (mk IndexError)).
Proof.
  assert (Hsplit : forall ps w,
             Observable_init Wires_ctor c r hp (ps ++ [w]) PyNone do_queue id q
             = Operator_init Wires_ctor c r hp ps w do_queue id q).
  { intros ps w. unfold Observable_init, split_last.
    destruct (ps ++ [w]) eqn:E; [destruct ps; discriminate|]. rewrite <- E.
    cbn. rewrite List.last_last, List.removelast_last. reflexivity. }
  split; [exact Hsplit|]. split; [|reflexivity].
  intros ps w self q'. rewrite Hsplit. unfold Operator_init.
  destruct (negb (length ps =? num_params c (length ps)));
    [destruct w; discriminate|].
  set (ws := match w with PyWires x => Ok x | _ => Wires_ctor w end).
  assert (Hbody :
            (ws0 ← ws;
             if wrong_number_of_wires (num_wires c) (length ws0) then Raise (mk ValueError)
             else
               let self0 := {| cls := c; _name := class_name c; _id := id; queue_idx := None;
                               _num_params := length ps; _wires := ws0; data := ps;
                               _hyperparameters := hp; _inverse := false |} in
               if do_queue then q0 ← append q r ∅; Ok (self0, q0) else Ok (self0, q))
            = Ok (self, q') ->
            data self = ps /\ ws = Ok (wires self)).
  { destruct ws as [ws0|e]; cbn; [|discriminate].
    destruct (wrong_number_of_wires _ _); [discriminate|].
    destruct do_queue.
    - destruct (append q r ∅); cbn; [|discriminate]. intros [= <- <-]. split; reflexivity.
    - intros [= <- <-]. split; reflexivity. }
  destruct w; try exact Hbody. discriminate.
Qed.

End Facts.

Lemma eigvals_fallback_chain_witness :
  eigvals diag_eigvals conj_real (fun v => v) (instance PauliZ_cls [LInt 0] false)
  = Ok [1; -1]%float
  /\ eigvals diag_eigvals conj_real (fun v => v) (instance DiagObs_cls [LInt 0] false)
     = Ok [1; -1]%float
  /\ eigvals diag_eigvals conj_real (fun v => v) (instance Opaque_cls [LInt 0] false)
     = Raise (mk_from EigvalsUndefinedError (mk MatrixUndefinedError)).
Proof.
  pose proof (eigvals_fallback_chain diag_eigvals conj_real (fun v => v)
                (instance PauliZ_cls [LInt 0] false)) as (H1 & _ & _).
  pose proof (eigvals_fallback_chain diag_eigvals conj_real (fun v => v)
                (instance DiagObs_cls [LInt 0] false)) as (_ & H2 & _).
  pose proof (eigvals_fallback_chain diag_eigvals conj_real (fun v => v)
                (instance Opaque_cls [LInt 0] false)) as (_ & _ & H3).
  split; [apply H1; reflexivity|]. split.
  - apply (H2 (mk EigvalsUndefinedError) PauliZ_matrix); reflexivity.
  - apply (H3 (mk EigvalsUndefinedError) (mk MatrixUndefinedError)); reflexivity.
Defined.

(** C7, as stated, fails: [compute_eigvals] of the inverted phase gate
    returns (1, i), and [eigvals()] returns (1, -i). *)
Lemma eigvals_of_inverted_operation_counterexample :
  compute_eigvals (cls MoreExamples.S_inv) (parameters MoreExamples.S_inv)
    (hyperparameters MoreExamples.S_inv) = Ok [(1, 0); (0, 1)]%float
  /\ eigvals (fun _ => Raise (mk LinAlgError)) conj_real MoreExamples.conj_pairs
       MoreExamples.S_inv = Ok [(1, -0); (0, -1)]%float
  /\ eigvals (fun _ => Raise (mk LinAlgError)) conj_real MoreExamples.conj_pairs
       MoreExamples.S_inv <> Ok [(1, 0); (0, 1)]%float.
Proof.
  split; [reflexivity|]. split; [reflexivity|].
  intros Heq.
  apply (f_equal (fun r => match r with
                           | Ok [_; (_, y)] => PrimFloat.ltb y 0
                           | _ => false
                           end)) in Heq.
  vm_compute in Heq. discriminate Heq.
Qed.

Lemma inv_toggles_matrix_witness :
  exists self1,
    inv NoContext 0 (instance RY_pi_cls [LInt 0] false) = Ok (NoContext, self1)
    /\ Operation_matrix conj_real self1 None = Ok (conj_real (math_T RY_pi_matrix)).
Proof.
  destruct (inv_toggles_matrix conj_real NoContext 0 (instance RY_pi_cls [LInt 0] false)
              RY_pi_matrix) as (self1 & H1 & _ & H2 & _); [reflexivity | reflexivity |].
  exists self1. split; [exact H1 | apply H2; reflexivity].
Defined.

(** C6, as stated, fails on an Operation that is already inverted: one more
    call of [inv()] makes [matrix()] return the canonical matrix, which is
    not its own conjugate transpose. *)
Lemma inv_once_on_inverted_counterexample :
  recording NoContext = false
  /\ compute_matrix RY_pi_cls [] ∅ = Ok RY_pi_matrix
  /\ exists self1,
      inv NoContext 0 (instance RY_pi_cls [LInt 0] true) = Ok (NoContext, self1)
      /\ Operation_matrix conj_real self1 None = Ok RY_pi_matrix
      /\ Operation_matrix conj_real self1 None <> Ok (conj_real (math_T RY_pi_matrix)).
Proof.
  split; [reflexivity|]. split; [reflexivity|].
  eexists. split; [reflexivity|]. split; [reflexivity|].
  vm_compute. discriminate.
Qed.

Lemma Observable_init_last_is_wires_witness :
  let self := {| cls := Herm_cls; _name := "Hermitian"; _id := None; queue_idx := None;
                 _num_params := 1; _wires := [LInt 3%Z]; data := [PyArr PauliZ_matrix];
                 _hyperparameters := ∅; _inverse := false |} in
  Observable_init Examples.Wires_ctor Herm_cls 0 ∅ [PyArr PauliZ_matrix; PyInt 3] PyNone
    false None NoContext = Ok (self, NoContext)
  /\ data self = [PyArr PauliZ_matrix]
  /\ Examples.Wires_ctor (PyInt 3) = Ok (wires self).
Proof.
  intros self. split; [reflexivity|].
  apply (proj1 (proj2 (Observable_init_last_is_wires Examples.Wires_ctor Herm_cls 0 ∅
                         false None NoContext))
           [PyArr PauliZ_matrix] (PyInt 3) self NoContext).
  reflexivity.
Defined.

(** The failing input of C1: [RX(0.0, wires=0)] and [RX(pi, wires=0)] have
    the same [hash], [None]. *)
Example hash_RX_zero_pi :
  hash round_id str_const hash_const (RX 0%float 0) = Ok RetNone
  /\ hash round_id str_const hash_const (RX pi_float 0) = Ok RetNone.
Proof. split; vm_compute; reflexivity. Qed.

End OperatorFacts.

(** ** The [Tensor] invariant and the tensor product *)

Module TensorFacts.
Import TensorModel.

Section Facts.

Context {ctx : Type} `{QueuingContext ctx}.

Implicit Types (h : gmap ref object) (s : gmap ref object * ctx).

Local Abbreviation pres := (TensorModel.pres (ctx := ctx)).
Local Abbreviation keeps_store := (TensorModel.keeps_store (ctx := ctx)).

Lemma pres_ret {A} (a : A) : pres (ret a).
Proof. intros s Hs. exact Hs. Qed.

Lemma pres_raise {A} (e : exn) : pres (raise (A := A) e).
Proof. intros s Hs. exact Hs. Qed.

Lemma pres_call_ctx (f : ctx -> res ctx) : pres (call_ctx f).
Proof. intros s Hs. unfold call_ctx. destruct (f (snd s)); exact Hs. Qed.

Lemma pres_ask_ctx {A} (f : ctx -> res A) : pres (ask_ctx f).
Proof. intros s Hs. exact Hs. Qed.

Lemma pres_read_ctx {A} (f : ctx -> A) : pres (read_ctx f).
Proof. intros s Hs. exact Hs. Qed.

Lemma pres_bind {A B} (m : M A) (f : A -> M B) :
  pres m -> (forall a, pres (f a)) -> pres (bindM m f).
Proof.
  intros Hm Hf s Hs. unfold bindM. specialize (Hm s Hs).
  destruct (m s) as [s' [a|e]]; [apply Hf; exact Hm | exact Hm].
Qed.

Lemma pres_bind_heap {A} (f : gmap ref object -> M A) :
  (forall s, flat (fst s) -> flat (fst (fst (f (fst s) s)))) -> pres (bindM get_heap f).
Proof. intros Hf s Hs. unfold bindM, get_heap. apply Hf, Hs. Qed.

Lemma pres_try2 {A} (body : M A) c1 (handler1 : exn -> M A) c2 (handler2 : exn -> M A) :
  pres body -> (forall e, pres (handler1 e)) -> (forall e, pres (handler2 e)) ->
  pres (tryM2 body c1 handler1 c2 handler2).
Proof.
  intros Hb Hh1 Hh2 s Hs. unfold tryM2. specialize (Hb s Hs).
  destruct (body s) as [s' [a|e]]; [exact Hb|].
  destruct (isinstance_exn e c1); [apply Hh1; exact Hb|].
  destruct (isinstance_exn e c2); [apply Hh2; exact Hb | exact Hb].
Qed.

Lemma pres_for_each (l : list ref) (body : ref -> M unit) :
  (forall x, pres (body x)) -> pres (for_each l body).
Proof.
  intros Hb. induction l as [|x l IH]; [apply pres_ret|].
  cbn [for_each]. apply pres_bind; [apply Hb | intros _; exact IH].
Qed.

(** Storing a tensor whose constituents are plain keeps the invariant, as
    long as the place it is stored at does not hold a plain observable. *)
Lemma flat_insert h self (t' : tensor) :
  ~ plain h self -> flat h -> Forall (plain h) (obs t') ->
  flat (<[self := TensorObj t']> h).
Proof.
  intros Hself Hflat Hobs.
  assert (Hplain : forall r, plain h r -> plain (<[self := TensorObj t']> h) r).
  { intros r [o Ho]. exists o. rewrite lookup_insert_ne; [exact Ho|].
    intros <-. apply Hself. exists o. exact Ho. }
  intros r t. destruct (decide (self = r)) as [<-|Hne].
  - rewrite lookup_insert_eq. intros [= <-]. eapply Forall_impl; [exact Hobs | exact Hplain].
  - rewrite lookup_insert_ne by exact Hne. intros Hr.
    eapply Forall_impl; [exact (Hflat r t Hr) | exact Hplain].
Qed.

Lemma update_obs_flat self (f : list ref -> list ref) s :
  flat (fst s) ->
  (forall t, fst s !! self = Some (TensorObj t) -> Forall (plain (fst s)) (f (obs t))) ->
  flat (fst (fst (update_obs self f s))).
Proof.
  intros Hflat Hf. unfold update_obs.
  destruct (fst s !! self) as [[o|t|]|] eqn:E; try exact Hflat.
  cbn [fst]. apply flat_insert; [| exact Hflat | exact (Hf t eq_refl)].
  intros [o Ho]. rewrite E in Ho. discriminate.
Qed.

Lemma is_Tensor_obs_plain h o :
  flat h -> is_Tensor h o = true -> Forall (plain h) (obs_of h o).
Proof.
  intros Hflat. unfold is_Tensor, obs_of.
  destruct (h !! o) as [[x|t|]|] eqn:E; try discriminate. intros _. exact (Hflat o t E).
Qed.

Lemma is_Observable_plain h o :
  is_Tensor h o = false -> is_Observable h o = true -> plain h o.
Proof.
  unfold is_Tensor, is_Observable, plain.
  destruct (h !! o) as [[x|t|]|]; try discriminate. intros _ _. eauto.
Qed.

Lemma flat_bind_at {A B} (m : M A) (f : A -> M B) s :
  flat (fst (fst (m s))) -> (forall a, pres (f a)) -> flat (fst (fst (bindM m f s))).
Proof.
  intros Hm Hf. unfold bindM.
  destruct (m s) as [s' [a|e]]; [apply Hf; exact Hm | exact Hm].
Qed.

(** The step of the constructor loop and of [__matmul__]: extend by the
    constituents of a tensor, append a plain observable, refuse the rest. *)
Lemma absorb_flat self o s :
  flat (fst s) ->
  flat (fst (fst ((if is_Tensor (fst s) o then update_obs self (fun l => l ++ obs_of (fst s) o)
                   else if is_Observable (fst s) o then update_obs self (fun l => l ++ [o])
                   else raise (mk ValueError)) s))).
Proof.
  intros Hflat.
  destruct (is_Tensor (fst s) o) eqn:Et; [|destruct (is_Observable (fst s) o) eqn:Eo].
  - apply update_obs_flat; [exact Hflat|]. intros t Ht. apply Forall_app. split.
    + exact (Hflat self t Ht).
    + apply is_Tensor_obs_plain; assumption.
  - apply update_obs_flat; [exact Hflat|]. intros t Ht. apply Forall_app. split.
    + exact (Hflat self t Ht).
    + constructor; [apply is_Observable_plain; assumption | constructor].
  - exact Hflat.
Qed.

Lemma pres_absorb self o :
  pres (bindM get_heap (fun h =>
          if is_Tensor h o then update_obs self (fun l => l ++ obs_of h o)
          else if is_Observable h o then update_obs self (fun l => l ++ [o])
          else raise (mk ValueError))).
Proof. apply pres_bind_heap. intros s Hflat. apply absorb_flat, Hflat. Qed.

Lemma pres_annotate_owner (queue_o : M unit) o self :
  pres queue_o -> pres (annotate_owner queue_o o self).
Proof.
  intros Hq. unfold annotate_owner.
  apply pres_try2; [apply pres_call_ctx | | intros _; apply pres_ret].
  intros _. apply pres_bind; [exact Hq | intros _; apply pres_call_ctx].
Qed.

Lemma pres_queue_step (queue_tensor : ref -> M unit) self init o :
  (forall r, pres (queue_tensor r)) -> pres (queue_step queue_tensor self init o).
Proof.
  intros Hq. unfold queue_step. apply pres_bind.
  - destruct init; [apply pres_absorb | apply pres_ret].
  - intros _. apply pres_bind_heap. intros s' Hs'.
    refine (pres_annotate_owner _ _ _ _ s' Hs').
    destruct (is_Tensor (fst s') o); [apply Hq|].
    destruct (is_Observable (fst s') o); [apply pres_call_ctx | apply pres_raise].
Qed.

Lemma pres_Tensor_queue depth self init : pres (Tensor_queue depth self init).
Proof.
  revert self init. induction depth as [|d IH]; intros self init;
    cbn [Tensor_queue]; apply pres_bind_heap; intros s Hflat;
    (refine (pres_bind _ _ _ _ s Hflat); [|intros _; apply pres_call_ctx]);
    apply pres_for_each; intros o; apply pres_queue_step; intros r.
  - apply pres_raise.
  - apply IH.
Qed.

Lemma Tensor_init_flat depth self args s :
  fst s !! self = None -> flat (fst s) ->
  flat (fst (fst (Tensor_init depth self args s))).
Proof.
  intros Hfresh Hflat. unfold Tensor_init.
  unfold bindM at 1. unfold put_obj. apply pres_Tensor_queue. cbn [fst].
  apply flat_insert; [| exact Hflat | constructor].
  intros [o Ho]. rewrite Hfresh in Ho. discriminate.
Qed.

Lemma pres_Tensor_new depth args : pres (Tensor_new depth args).
Proof.
  unfold Tensor_new. apply pres_bind_heap. intros s Hflat.
  unfold bindM.
  pose proof (Tensor_init_flat depth (fresh (dom (fst s))) args s) as Hinit.
  destruct (Tensor_init depth (fresh (dom (fst s))) args s) as [s' [[]|e]];
    apply Hinit; try exact Hflat; apply not_elem_of_dom, is_fresh.
Qed.

Lemma pres_Tensor_matmul self other : pres (Tensor_matmul self other).
Proof.
  unfold Tensor_matmul. apply pres_bind_heap. intros s Hflat.
  apply flat_bind_at; [apply absorb_flat, Hflat|].
  intros _. apply pres_bind; [apply pres_read_ctx|]. intros rec.
  apply pres_bind; [|intros _; apply pres_ret].
  destruct rec; [|apply pres_ret].
  apply pres_bind; [apply pres_ask_ctx|]. intros [info|]; [|apply pres_raise].
  destruct (info !! "owns"%string) as [[b|r|owns]|]; try apply pres_raise.
  apply pres_bind; [apply pres_call_ctx | intros _; apply pres_call_ctx].
Qed.

(** [__rmatmul__] keeps the invariant when the left operand is not a tensor. *)
Lemma Tensor_rmatmul_flat self other s :
  is_Tensor (fst s) other = false -> flat (fst s) ->
  flat (fst (fst (Tensor_rmatmul self other s))).
Proof.
  intros Hnt Hflat. unfold Tensor_rmatmul, bindM at 1, get_heap. cbn [fst snd].
  destruct (is_Observable (fst s) other) eqn:Eo; [|exact Hflat].
  apply flat_bind_at.
  - apply update_obs_flat; [exact Hflat|]. intros t Ht. apply Forall_app. split.
    + constructor; [apply is_Observable_plain; assumption | constructor].
    + exact (Hflat self t Ht).
  - intros _. apply pres_bind; [apply pres_read_ctx|]. intros rec.
    apply pres_bind; [|intros _; apply pres_ret].
    destruct rec; [apply pres_call_ctx | apply pres_ret].
Qed.

Lemma pres_Observable_matmul depth self other :
  (forall s, is_Tensor (fst s) self = false ->
             flat (fst s) -> flat (fst (fst (Observable_matmul depth self other s)))).
Proof.
  intros s Hself Hflat. unfold Observable_matmul, bindM at 1, get_heap. cbn [fst snd].
  destruct (is_Tensor (fst s) other); [apply Tensor_rmatmul_flat; assumption|].
  destruct (is_Observable (fst s) other); [apply pres_Tensor_new, Hflat | exact Hflat].
Qed.

(** The tensor product [a @ b] keeps the invariant, whatever the operands. *)
Lemma pres_matmul_op depth a b : pres (matmul_op depth a b).
Proof.
  intros s Hflat. unfold matmul_op, bindM at 1, get_heap. cbn [fst snd].
  destruct (fst s !! a) as [[o|t|]|] eqn:Ea.
  - apply pres_Observable_matmul; [|exact Hflat]. unfold is_Tensor. rewrite Ea. reflexivity.
  - apply pres_Tensor_matmul, Hflat.
  - destruct (is_Tensor (fst s) b); [|exact Hflat].
    apply Tensor_rmatmul_flat; [|exact Hflat]. unfold is_Tensor. rewrite Ea. reflexivity.
  - destruct (is_Tensor (fst s) b); [|exact Hflat].
    apply Tensor_rmatmul_flat; [|exact Hflat]. unfold is_Tensor. rewrite Ea. reflexivity.
Qed.

Lemma keeps_ret {A} (a : A) : keeps_store (ret a).
Proof. intros s. reflexivity. Qed.

Lemma keeps_raise {A} (e : exn) : keeps_store (raise (A := A) e).
Proof. intros s. reflexivity. Qed.

Lemma keeps_call_ctx (f : ctx -> res ctx) : keeps_store (call_ctx f).
Proof. intros s. unfold call_ctx. destruct (f (snd s)); reflexivity. Qed.

Lemma keeps_ask_ctx {A} (f : ctx -> res A) : keeps_store (ask_ctx f).
Proof. intros s. reflexivity. Qed.

Lemma keeps_read_ctx {A} (f : ctx -> A) : keeps_store (read_ctx f).
Proof. intros s. reflexivity. Qed.

Lemma keeps_bind {A B} (m : M A) (f : A -> M B) :
  keeps_store m -> (forall a, keeps_store (f a)) -> keeps_store (bindM m f).
Proof.
  intros Hm Hf s. unfold bindM. specialize (Hm s).
  destruct (m s) as [s' [a|e]]; [rewrite Hf; exact Hm | exact Hm].
Qed.

Lemma keeps_bind_heap {A} (f : gmap ref object -> M A) :
  (forall h, keeps_store (f h)) -> keeps_store (bindM get_heap f).
Proof. intros Hf s. unfold bindM, get_heap. apply Hf. Qed.

Lemma keeps_try2 {A} (body : M A) c1 (handler1 : exn -> M A) c2 (handler2 : exn -> M A) :
  keeps_store body -> (forall e, keeps_store (handler1 e)) ->
  (forall e, keeps_store (handler2 e)) ->
  keeps_store (tryM2 body c1 handler1 c2 handler2).
Proof.
  intros Hb Hh1 Hh2 s. unfold tryM2. specialize (Hb s).
  destruct (body s) as [s' [a|e]]; [exact Hb|].
  destruct (isinstance_exn e c1); [rewrite Hh1; exact Hb|].
  destruct (isinstance_exn e c2); [rewrite Hh2; exact Hb | exact Hb].
Qed.

Lemma keeps_for_each (l : list ref) (body : ref -> M unit) :
  (forall x, keeps_store (body x)) -> keeps_store (for_each l body).
Proof.
  intros Hb. induction l as [|x l IH]; [apply keeps_ret|].
  cbn [for_each]. apply keeps_bind; [apply Hb | intros _; exact IH].
Qed.

Lemma keeps_annotate_owner (queue_o : M unit) o self :
  keeps_store queue_o -> keeps_store (annotate_owner queue_o o self).
Proof.
  intros Hq. unfold annotate_owner.
  apply keeps_try2; [apply keeps_call_ctx | | intros _; apply keeps_ret].
  intros _. apply keeps_bind; [exact Hq | intros _; apply keeps_call_ctx].
Qed.

Lemma keeps_queue_step_again (queue_tensor : ref -> M unit) self o :
  (forall r, keeps_store (queue_tensor r)) ->
  keeps_store (queue_step queue_tensor self false o).
Proof.
  intros Hq. unfold queue_step. apply keeps_bind; [apply keeps_ret|].
  intros _. apply keeps_bind_heap. intros h. apply keeps_annotate_owner.
  destruct (is_Tensor h o); [apply Hq|].
  destruct (is_Observable h o); [apply keeps_call_ctx | apply keeps_raise].
Qed.

(** Queueing a tensor again ([init=False]) talks to the recording context
    only: no object of the store changes, whatever the context answers and
    however deep the constituents nest. *)
Lemma Tensor_queue_again_keeps_store depth self (s : gmap ref object * ctx) :
  fst (fst (Tensor_queue depth self false s)) = fst s.
Proof.
  revert self s. induction depth as [|d IH]; intros self s;
    cbn [Tensor_queue]; revert s; apply keeps_bind_heap; intros h;
    (apply keeps_bind; [|intros _; apply keeps_call_ctx]);
    apply keeps_for_each; intros o; apply keeps_queue_step_again; intros r.
  - apply keeps_raise.
  - intros s. apply IH.
Qed.

Lemma annotate_owner_ok (queue_o : M unit) o self h (q : ctx) :
  accepting -> exists q', annotate_owner queue_o o self (h, q) = ((h, q'), Ok tt).
Proof.
  intros [Hupd _]. unfold annotate_owner, tryM2, call_ctx. cbn [fst snd].
  destruct (Hupd q o {[ "owner"%string := IRef self ]}) as [q' ->]. eauto.
Qed.

Lemma observable_is_stored h o : is_Observable h o = true -> h !! o <> None.
Proof. unfold is_Observable. destruct (h !! o); [discriminate | discriminate]. Qed.

Lemma absorbed_constituents h o :
  is_Observable h o = true ->
  (if is_Tensor h o then obs_of h o else [o]) = constituents_of h o.
Proof.
  unfold is_Observable, is_Tensor, obs_of, constituents_of.
  destruct (h !! o) as [[x|t|]|]; try discriminate; reflexivity.
Qed.

(** One turn of the constructor loop, in an accepting context. *)
Lemma queue_step_init_ok (qt : ref -> M unit) self o h (q : ctx) acc args :
  accepting -> h !! self = None -> is_Observable h o = true ->
  exists q', queue_step qt self true o (<[self := TensorObj (new_tensor acc args)]> h, q)
             = ((<[self := TensorObj (new_tensor (acc ++ constituents_of h o) args)]> h, q'),
                Ok tt).
Proof.
  intros Hacc Hfresh Hobs.
  assert (Hne : self <> o).
  { intros <-. apply (observable_is_stored _ _ Hobs). exact Hfresh. }
  assert (HT : is_Tensor (<[self := TensorObj (new_tensor acc args)]> h) o = is_Tensor h o).
  { unfold is_Tensor. rewrite lookup_insert_ne by exact Hne. reflexivity. }
  assert (HO : is_Observable (<[self := TensorObj (new_tensor acc args)]> h) o = true).
  { unfold is_Observable. rewrite lookup_insert_ne by exact Hne. exact Hobs. }
  assert (Hobs_of : obs_of (<[self := TensorObj (new_tensor acc args)]> h) o = obs_of h o).
  { unfold obs_of. rewrite lookup_insert_ne by exact Hne. reflexivity. }
  rewrite <- (absorbed_constituents h o Hobs).
  unfold queue_step. unfold bindM at 1. unfold bindM at 1. unfold get_heap at 1.
  cbn [fst snd]. rewrite HT, HO, Hobs_of.
  set (ext := if is_Tensor h o then obs_of h o else [o]).
  assert (Hupd : forall f,
             update_obs self f (<[self := TensorObj (new_tensor acc args)]> h, q)
             = ((<[self := TensorObj (new_tensor (f acc) args)]> h, q), Ok tt)).
  { intros f. unfold update_obs. cbn [fst snd]. rewrite lookup_insert_eq.
    rewrite insert_insert_eq. reflexivity. }
  assert (Hstep : (if is_Tensor h o then update_obs self (fun l => l ++ obs_of h o)
                   else update_obs self (fun l => l ++ [o]))
                    (<[self := TensorObj (new_tensor acc args)]> h, q)
                  = ((<[self := TensorObj (new_tensor (acc ++ ext) args)]> h, q), Ok tt)).
  { unfold ext. destruct (is_Tensor h o); apply Hupd. }
  rewrite Hstep. unfold bindM, get_heap. cbn [fst snd].
  apply annotate_owner_ok, Hacc.
Qed.

Lemma for_each_init_ok (qt : ref -> M unit) self h l :
  accepting -> h !! self = None -> Forall (fun o => is_Observable h o = true) l ->
  forall (q : ctx) acc args,
  exists q', for_each l (queue_step qt self true) (<[self := TensorObj (new_tensor acc args)]> h, q)
             = ((<[self := TensorObj (new_tensor (acc ++ flat_map (constituents_of h) l) args)]> h,
                 q'), Ok tt).
Proof.
  intros Hacc Hfresh Hl. induction Hl as [|o l Ho _ IH]; intros q acc args.
  - exists q. cbn. rewrite List.app_nil_r. reflexivity.
  - cbn [for_each flat_map]. unfold bindM.
    destruct (queue_step_init_ok qt self o h q acc args Hacc Hfresh Ho) as [q1 ->].
    destruct (IH q1 (acc ++ constituents_of h o) args) as [q2 ->].
    exists q2. rewrite <- List.app_assoc. reflexivity.
Qed.

(** Construction flattens: each argument contributes its constituents. *)
Lemma Tensor_init_ok depth self args h (q : ctx) :
  accepting -> h !! self = None -> Forall (fun o => is_Observable h o = true) args ->
  exists q', Tensor_init depth self args (h, q)
             = ((<[self := TensorObj (new_tensor (flat_map (constituents_of h) args) args)]> h,
                 q'), Ok tt).
Proof.
  intros Hacc Hfresh Hargs. unfold Tensor_init, bindM at 1, put_obj. cbn [fst snd].
  assert (Hq : forall qt,
             exists q', bindM (for_each args (queue_step qt self true))
                          (fun _ => call_ctx (fun q0 => append q0 self
                                                          {[ "owns"%string := ITuple args ]}))
                          (<[self := TensorObj (new_tensor [] args)]> h, q)
                        = ((<[self := TensorObj (new_tensor (flat_map (constituents_of h) args)
                                                    args)]> h, q'), Ok tt)).
  { intros qt. unfold bindM.
    destruct (for_each_init_ok qt self h args Hacc Hfresh Hargs q [] args) as [q1 ->].
    cbn [app]. unfold call_ctx. cbn [fst snd].
    destruct (proj2 Hacc q1 self {[ "owns"%string := ITuple args ]}) as [q2 ->]. eauto. }
  destruct depth; cbn [Tensor_queue]; unfold bindM at 1, get_heap; cbn [fst snd];
    rewrite lookup_insert_eq; cbn [_args new_tensor]; apply Hq.
Qed.

Lemma for_each_app (l1 l2 : list ref) (body : ref -> M unit) s :
  for_each (l1 ++ l2) body s = bindM (for_each l1 body) (fun _ => for_each l2 body) s.
Proof.
  revert s. induction l1 as [|x l1 IH]; intros s; [reflexivity|].
  cbn [app for_each]. unfold bindM. destruct (body x s) as [s' [[]|e]]; [|reflexivity].
  rewrite IH. reflexivity.
Qed.

(** An argument that is not an observable makes the constructor fail. *)
Lemma Tensor_init_refuses depth self pre x post h (q : ctx) :
  accepting -> h !! self = None -> Forall (fun o => is_Observable h o = true) pre ->
  h !! x = Some OtherObj ->
  snd (Tensor_init depth self (pre ++ x :: post) (h, q)) = Raise (mk ValueError).
Proof.
  intros Hacc Hfresh Hpre Hx.
  assert (Hne : self <> x) by (intros <-; rewrite Hfresh in Hx; discriminate).
  unfold Tensor_init, bindM at 1, put_obj. cbn [fst snd].
  assert (Hq : forall qt,
             snd (bindM (for_each (pre ++ x :: post) (queue_step qt self true))
                    (fun _ => call_ctx (fun q0 => append q0 self
                                          {[ "owns"%string := ITuple (pre ++ x :: post) ]}))
                    (<[self := TensorObj (new_tensor [] (pre ++ x :: post))]> h, q))
             = Raise (mk ValueError)).
  { intros qt. unfold bindM at 1. rewrite for_each_app. unfold bindM at 1.
    destruct (for_each_init_ok qt self h pre Hacc Hfresh Hpre q [] (pre ++ x :: post))
      as [q1 ->].
    cbn [for_each]. unfold bindM at 1. unfold queue_step, bindM at 1.
    unfold bindM at 1, get_heap. cbn [fst snd].
    unfold is_Tensor, is_Observable. rewrite lookup_insert_ne by exact Hne.
    rewrite Hx. reflexivity. }
  destruct depth; cbn [Tensor_queue]; unfold bindM at 1, get_heap; cbn [fst snd];
    rewrite lookup_insert_eq; cbn [_args new_tensor]; apply Hq.
Qed.

Lemma Tensor_new_ok depth args h (q : ctx) :
  accepting -> Forall (fun o => is_Observable h o = true) args ->
  exists q', Tensor_new depth args (h, q)
             = ((<[fresh (dom h) := TensorObj (new_tensor (flat_map (constituents_of h) args)
                                                 args)]> h, q'), Ok (fresh (dom h))).
Proof.
  intros Hacc Hargs. unfold Tensor_new, bindM at 1, get_heap. cbn [fst snd].
  unfold bindM.
  destruct (Tensor_init_ok depth (fresh (dom h)) args h q Hacc) as [q' ->];
    [apply not_elem_of_dom, is_fresh | exact Hargs |].
  exists q'. reflexivity.
Qed.

Lemma Tensor_new_refuses depth pre x post h (q : ctx) :
  accepting -> Forall (fun o => is_Observable h o = true) pre -> h !! x = Some OtherObj ->
  snd (Tensor_new depth (pre ++ x :: post) (h, q)) = Raise (mk ValueError).
Proof.
  intros Hacc Hpre Hx. unfold Tensor_new, bindM at 1, get_heap. cbn [fst snd].
  assert (Hr : snd (Tensor_init depth (fresh (dom h)) (pre ++ x :: post) (h, q))
               = Raise (mk ValueError)).
  { apply Tensor_init_refuses;
      [exact Hacc | apply not_elem_of_dom, is_fresh | exact Hpre | exact Hx]. }
  unfold bindM.
  destruct (Tensor_init depth (fresh (dom h)) (pre ++ x :: post) (h, q)) as [s' [[]|e]];
    cbn [snd] in *; [discriminate Hr|].
  injection Hr as ->. reflexivity.
Qed.

Lemma accepting_recovering : accepting -> recovering.
Proof.
  intros [Hupd Happ]. split.
  - intros q r i. left. apply Hupd.
  - intros q r i. destruct (Happ q r i) as [q' Hq']. exists q'. split; [exact Hq'|].
    intros j. apply Hupd.
Qed.

(** The [try] block in a recovering context: when the context does not know
    the object, the object is queued and the annotation repeated. *)
Lemma annotate_owner_recovers (queue_o : M unit) o self h (q : ctx) :
  recovering ->
  (forall q0, exists q1, queue_o (h, q0) = ((h, q1), Ok tt)
                         /\ forall j, exists q2, update_info q1 o j = Ok q2) ->
  exists q', annotate_owner queue_o o self (h, q) = ((h, q'), Ok tt).
Proof.
  intros [Hupd _] Hqueue. unfold annotate_owner, tryM2, call_ctx. cbn [fst snd].
  destruct (Hupd q o {[ "owner"%string := IRef self ]}) as [[q' ->]|(e & -> & He)]; [eauto|].
  destruct (isinstance_exn e QueuingError) eqn:Eq.
  - unfold bindM. destruct (Hqueue q) as (q1 & -> & Hq1). cbn [fst snd].
    destruct (Hq1 {[ "owner"%string := IRef self ]}) as [q2 ->]. eauto.
  - destruct He as [He|He]; [discriminate|]. rewrite He. unfold ret. eauto.
Qed.

Lemma Operator_queue_recovers o h :
  recovering ->
  forall q0 : ctx, exists q1, Operator_queue o (h, q0) = ((h, q1), Ok tt)
                              /\ forall j, exists q2, update_info q1 o j = Ok q2.
Proof.
  intros [_ Happ] q0. unfold Operator_queue, call_ctx. cbn [fst snd].
  destruct (Happ q0 o ∅) as (q1 & -> & Hq1). eauto.
Qed.

Lemma for_each_again_recovers (qt : ref -> M unit) self h l :
  recovering -> Forall (plain h) l ->
  forall q : ctx, exists q', for_each l (queue_step qt self false) (h, q) = ((h, q'), Ok tt).
Proof.
  intros Hrec Hl. induction Hl as [|x l [X HX] _ IH]; intros q; [exists q; reflexivity|].
  cbn [for_each]. unfold bindM at 1.
  assert (Hstep : exists q1, queue_step qt self false x (h, q) = ((h, q1), Ok tt)).
  { unfold queue_step, bindM, ret, get_heap. cbn [fst snd].
    unfold is_Tensor, is_Observable. rewrite HX.
    apply annotate_owner_recovers; [exact Hrec | apply Operator_queue_recovers, Hrec]. }
  destruct Hstep as [q1 ->]. apply IH.
Qed.

(** Queueing a tensor whose constituents are plain, in a recovering
    context: it returns, and the tensor can then be annotated. *)
Lemma Tensor_queue_again_recovers d o h T :
  recovering -> h !! o = Some (TensorObj T) -> Forall (plain h) (obs T) ->
  forall q0 : ctx, exists q1, Tensor_queue d o false (h, q0) = ((h, q1), Ok tt)
                              /\ forall j, exists q2, update_info q1 o j = Ok q2.
Proof.
  intros Hrec Ho Hobs q0.
  assert (Hrun : forall qt, exists q1,
             bindM (for_each (obs T) (queue_step qt o false))
               (fun _ => call_ctx (fun q => append q o {[ "owns"%string := ITuple (obs T) ]}))
               (h, q0) = ((h, q1), Ok tt)
             /\ forall j, exists q2, update_info q1 o j = Ok q2).
  { intros qt. unfold bindM.
    destruct (for_each_again_recovers qt o h (obs T) Hrec Hobs q0) as [q' ->].
    unfold call_ctx. cbn [fst snd].
    destruct (proj2 Hrec q' o {[ "owns"%string := ITuple (obs T) ]}) as (q1 & -> & Hq1).
    eauto. }
  destruct d; cbn [Tensor_queue]; unfold bindM at 1, get_heap; cbn [fst snd];
    rewrite Ho; apply Hrun.
Qed.

Lemma annotate_arg_recovers d o self h (q : ctx) :
  recovering -> flat h -> is_Observable h o = true ->
  exists q', annotate_owner (if is_Tensor h o then Tensor_queue d o false
                             else if is_Observable h o then Operator_queue o
                             else raise (mk AttributeError)) o self (h, q)
             = ((h, q'), Ok tt).
Proof.
  intros Hrec Hflat Ho. apply annotate_owner_recovers; [exact Hrec|].
  unfold is_Tensor, is_Observable in *. destruct (h !! o) as [[x|T|]|] eqn:E; try discriminate.
  - apply Operator_queue_recovers, Hrec.
  - apply (Tensor_queue_again_recovers d o h T Hrec E), (Hflat o T E).
Qed.

Lemma constituents_plain h o :
  flat h -> is_Observable h o = true -> Forall (plain h) (constituents_of h o).
Proof.
  intros Hflat Ho. unfold constituents_of, is_Observable in *.
  destruct (h !! o) as [[x|t|]|] eqn:E; try discriminate.
  - constructor; [exists x; exact E | constructor].
  - exact (Hflat o t E).
Qed.

Lemma returning_annotates depth self h args :
  returning depth -> flat h -> h !! self = None ->
  annotates (match depth with
             | 0 => fun _ => raise (mk RecursionError)
             | S d => fun o => Tensor_queue d o false
             end) self h args.
Proof.
  intros Hret Hflat Hfresh o acc q1 Hacc Ho.
  destruct Hret as [Hacpt|[Hrec Hd]]; [apply annotate_owner_ok, Hacpt|].
  destruct depth as [|d]; [lia|].
  apply annotate_arg_recovers; [exact Hrec | |].
  - apply flat_insert; [|exact Hflat | exact Hacc].
    intros [x Hx]. rewrite Hfresh in Hx. discriminate.
  - unfold is_Observable. rewrite lookup_insert_ne; [exact Ho|].
    intros <-. apply (observable_is_stored _ _ Ho). exact Hfresh.
Qed.

Lemma queue_step_init_run (qt : ref -> M unit) self o h (q : ctx) acc args :
  annotates qt self h args -> flat h -> Forall (plain h) acc ->
  h !! self = None -> is_Observable h o = true ->
  exists q', queue_step qt self true o (<[self := TensorObj (new_tensor acc args)]> h, q)
             = ((<[self := TensorObj (new_tensor (acc ++ constituents_of h o) args)]> h, q'),
                Ok tt).
Proof.
  intros Hann Hflat Hacc Hfresh Hobs.
  assert (Hne : self <> o).
  { intros <-. apply (observable_is_stored _ _ Hobs). exact Hfresh. }
  assert (HT : is_Tensor (<[self := TensorObj (new_tensor acc args)]> h) o = is_Tensor h o).
  { unfold is_Tensor. rewrite lookup_insert_ne by exact Hne. reflexivity. }
  assert (HO : is_Observable (<[self := TensorObj (new_tensor acc args)]> h) o = true).
  { unfold is_Observable. rewrite lookup_insert_ne by exact Hne. exact Hobs. }
  assert (Hobs_of : obs_of (<[self := TensorObj (new_tensor acc args)]> h) o = obs_of h o).
  { unfold obs_of. rewrite lookup_insert_ne by exact Hne. reflexivity. }
  assert (Hnext : Forall (plain h) (acc ++ constituents_of h o)).
  { apply Forall_app. split; [exact Hacc | apply constituents_plain; assumption]. }
  specialize (Hann o (acc ++ constituents_of h o)).
  revert Hann. rewrite <- (absorbed_constituents h o Hobs). intros Hann.
  unfold queue_step. unfold bindM at 1. unfold bindM at 1. unfold get_heap at 1.
  cbn [fst snd]. rewrite HT, HO, Hobs_of.
  set (ext := if is_Tensor h o then obs_of h o else [o]) in *.
  assert (Hupd : forall f,
             update_obs self f (<[self := TensorObj (new_tensor acc args)]> h, q)
             = ((<[self := TensorObj (new_tensor (f acc) args)]> h, q), Ok tt)).
  { intros f. unfold update_obs. cbn [fst snd]. rewrite lookup_insert_eq.
    rewrite insert_insert_eq. reflexivity. }
  assert (Hstep : (if is_Tensor h o then update_obs self (fun l => l ++ obs_of h o)
                   else update_obs self (fun l => l ++ [o]))
                    (<[self := TensorObj (new_tensor acc args)]> h, q)
                  = ((<[self := TensorObj (new_tensor (acc ++ ext) args)]> h, q), Ok tt)).
  { unfold ext. destruct (is_Tensor h o); apply Hupd. }
  rewrite Hstep. unfold bindM, get_heap. cbn [fst snd].
  apply Hann; [|exact Hobs]. unfold ext. rewrite (absorbed_constituents h o Hobs). exact Hnext.
Qed.

Lemma for_each_init_run (qt : ref -> M unit) self h args l :
  annotates qt self h args -> flat h -> h !! self = None ->
  Forall (fun o => is_Observable h o = true) l ->
  forall (q : ctx) acc, Forall (plain h) acc ->
  exists q', for_each l (queue_step qt self true) (<[self := TensorObj (new_tensor acc args)]> h, q)
             = ((<[self := TensorObj (new_tensor (acc ++ flat_map (constituents_of h) l) args)]> h,
                 q'), Ok tt).
Proof.
  intros Hann Hflat Hfresh Hl. induction Hl as [|o l Ho _ IH]; intros q acc Hacc.
  - exists q. cbn. rewrite List.app_nil_r. reflexivity.
  - cbn [for_each flat_map]. unfold bindM.
    destruct (queue_step_init_run qt self o h q acc args Hann Hflat Hacc Hfresh Ho) as [q1 ->].
    destruct (IH q1 (acc ++ constituents_of h o)) as [q2 ->].
    { apply Forall_app. split; [exact Hacc | apply constituents_plain; assumption]. }
    exists q2. rewrite <- List.app_assoc. reflexivity.
Qed.

(** Construction flattens, in every context the constructor returns in. *)
Lemma Tensor_init_run depth self args h (q : ctx) :
  returning depth -> flat h -> h !! self = None ->
  Forall (fun o => is_Observable h o = true) args ->
  exists q', Tensor_init depth self args (h, q)
             = ((<[self := TensorObj (new_tensor (flat_map (constituents_of h) args) args)]> h,
                 q'), Ok tt).
Proof.
  intros Hret Hflat Hfresh Hargs. unfold Tensor_init, bindM at 1, put_obj. cbn [fst snd].
  pose proof (returning_annotates depth self h args Hret Hflat Hfresh) as Hann.
  assert (Happ : forall q0 r i, exists q', append (ctx := ctx) q0 r i = Ok q').
  { intros q0 r i. destruct Hret as [[_ Ha]|[[_ Ha] _]]; [apply Ha|].
    destruct (Ha q0 r i) as (q' & Hq' & _). eauto. }
  assert (Hq : forall qt, annotates qt self h args ->
             exists q', bindM (for_each args (queue_step qt self true))
                          (fun _ => call_ctx (fun q0 => append q0 self
                                                          {[ "owns"%string := ITuple args ]}))
                          (<[self := TensorObj (new_tensor [] args)]> h, q)
                        = ((<[self := TensorObj (new_tensor (flat_map (constituents_of h) args)
                                                    args)]> h, q'), Ok tt)).
  { intros qt Hqt. unfold bindM.
    destruct (for_each_init_run qt self h args args Hqt Hflat Hfresh Hargs q []) as [q1 ->];
      [constructor|].
    cbn [app]. unfold call_ctx. cbn [fst snd].
    destruct (Happ q1 self {[ "owns"%string := ITuple args ]}) as [q2 ->]. eauto. }
  destruct depth; cbn [Tensor_queue]; unfold bindM at 1, get_heap; cbn [fst snd];
    rewrite lookup_insert_eq; cbn [_args new_tensor]; apply Hq, Hann.
Qed.

Lemma Tensor_init_refuses_run depth self pre x post h (q : ctx) :
  returning depth -> flat h -> h !! self = None ->
  Forall (fun o => is_Observable h o = true) pre -> h !! x = Some OtherObj ->
  snd (Tensor_init depth self (pre ++ x :: post) (h, q)) = Raise (mk ValueError).
Proof.
  intros Hret Hflat Hfresh Hpre Hx.
  assert (Hne : self <> x) by (intros <-; rewrite Hfresh in Hx; discriminate).
  unfold Tensor_init, bindM at 1, put_obj. cbn [fst snd].
  pose proof (returning_annotates depth self h (pre ++ x :: post) Hret Hflat Hfresh) as Hann.
  assert (Hq : forall qt, annotates qt self h (pre ++ x :: post) ->
             snd (bindM (for_each (pre ++ x :: post) (queue_step qt self true))
                    (fun _ => call_ctx (fun q0 => append q0 self
                                          {[ "owns"%string := ITuple (pre ++ x :: post) ]}))
                    (<[self := TensorObj (new_tensor [] (pre ++ x :: post))]> h, q))
             = Raise (mk ValueError)).
  { intros qt Hqt. unfold bindM at 1. rewrite for_each_app. unfold bindM at 1.
    destruct (for_each_init_run qt self h (pre ++ x :: post) pre Hqt Hflat Hfresh Hpre q [])
      as [q1 ->]; [constructor|].
    cbn [for_each]. unfold bindM at 1. unfold queue_step, bindM at 1.
    unfold bindM at 1, get_heap. cbn [fst snd].
    unfold is_Tensor, is_Observable. rewrite lookup_insert_ne by exact Hne.
    rewrite Hx. reflexivity. }
  destruct depth; cbn [Tensor_queue]; unfold bindM at 1, get_heap; cbn [fst snd];
    rewrite lookup_insert_eq; cbn [_args new_tensor]; apply Hq, Hann.
Qed.

Lemma Tensor_new_run depth args h (q : ctx) :
  returning depth -> flat h -> Forall (fun o => is_Observable h o = true) args ->
  exists q', Tensor_new depth args (h, q)
             = ((<[fresh (dom h) := TensorObj (new_tensor (flat_map (constituents_of h) args)
                                                 args)]> h, q'), Ok (fresh (dom h))).
Proof.
  intros Hret Hflat Hargs. unfold Tensor_new, bindM at 1, get_heap. cbn [fst snd].
  unfold bindM.
  destruct (Tensor_init_run depth (fresh (dom h)) args h q Hret Hflat) as [q' ->];
    [apply not_elem_of_dom, is_fresh | exact Hargs |].
  exists q'. reflexivity.
Qed.

Lemma Tensor_new_refuses_run depth pre x post h (q : ctx) :
  returning depth -> flat h ->
  Forall (fun o => is_Observable h o = true) pre -> h !! x = Some OtherObj ->
  snd (Tensor_new depth (pre ++ x :: post) (h, q)) = Raise (mk ValueError).
Proof.
  intros Hret Hflat Hpre Hx. unfold Tensor_new, bindM at 1, get_heap. cbn [fst snd].
  assert (Hr : snd (Tensor_init depth (fresh (dom h)) (pre ++ x :: post) (h, q))
               = Raise (mk ValueError)).
  { apply Tensor_init_refuses_run;
      [exact Hret | exact Hflat | apply not_elem_of_dom, is_fresh | exact Hpre | exact Hx]. }
  unfold bindM.
  destruct (Tensor_init depth (fresh (dom h)) (pre ++ x :: post) (h, q)) as [s' [[]|e]];
    cbn [snd] in *; [discriminate Hr|].
  injection Hr as ->. reflexivity.
Qed.

(** One turn of the constructor loop that returns, in any context: the
    argument was an observable and has been absorbed. *)
Lemma queue_step_init_returns (qt : ref -> M unit) self o h (q : ctx) acc args s' :
  (forall r, keeps_store (qt r)) -> h !! self = None -> h !! o <> None ->
  queue_step qt self true o (<[self := TensorObj (new_tensor acc args)]> h, q) = (s', Ok tt) ->
  is_Observable h o = true
  /\ fst s' = <[self := TensorObj (new_tensor (acc ++ constituents_of h o) args)]> h.
Proof.
  intros Hqt Hfresh Ho.
  assert (Hne : self <> o) by (intros <-; contradiction).
  assert (HT : is_Tensor (<[self := TensorObj (new_tensor acc args)]> h) o = is_Tensor h o).
  { unfold is_Tensor. rewrite lookup_insert_ne by exact Hne. reflexivity. }
  assert (HO : is_Observable (<[self := TensorObj (new_tensor acc args)]> h) o
               = is_Observable h o).
  { unfold is_Observable. rewrite lookup_insert_ne by exact Hne. reflexivity. }
  assert (Hobs_of : obs_of (<[self := TensorObj (new_tensor acc args)]> h) o = obs_of h o).
  { unfold obs_of. rewrite lookup_insert_ne by exact Hne. reflexivity. }
  assert (Hupd : forall f,
             update_obs self f (<[self := TensorObj (new_tensor acc args)]> h, q)
             = ((<[self := TensorObj (new_tensor (f acc) args)]> h, q), Ok tt)).
  { intros f. unfold update_obs. cbn [fst snd]. rewrite lookup_insert_eq.
    rewrite insert_insert_eq. reflexivity. }
  unfold queue_step. unfold bindM at 1. unfold bindM at 1. unfold get_heap at 1.
  cbn [fst snd]. rewrite HT, HO, Hobs_of.
  destruct (is_Observable h o) eqn:Eo.
  2:{ assert (Et : is_Tensor h o = false).
      { unfold is_Tensor, is_Observable in *. destruct (h !! o) as [[x|t|]|]; congruence. }
      rewrite Et. unfold raise. discriminate. }
  rewrite <- (absorbed_constituents h o Eo).
  set (ext := if is_Tensor h o then obs_of h o else [o]).
  assert (Hstep : (if is_Tensor h o then update_obs self (fun l => l ++ obs_of h o)
                   else update_obs self (fun l => l ++ [o]))
                    (<[self := TensorObj (new_tensor acc args)]> h, q)
                  = ((<[self := TensorObj (new_tensor (acc ++ ext) args)]> h, q), Ok tt)).
  { unfold ext. destruct (is_Tensor h o); apply Hupd. }
  rewrite Hstep. unfold bindM, get_heap. cbn [fst snd].
  intros Hrun. split; [reflexivity|].
  match type of Hrun with ?m ?s0 = _ =>
    assert (Hk : fst (fst (m s0)) = fst s0) end.
  { apply keeps_annotate_owner.
    match goal with |- TensorModel.keeps_store (if ?b then _ else _) => destruct b end;
      [apply Hqt|].
    match goal with |- TensorModel.keeps_store (if ?b then _ else _) => destruct b end;
      [apply keeps_call_ctx | apply keeps_raise]. }
  rewrite Hrun in Hk. exact Hk.
Qed.

Lemma for_each_init_returns (qt : ref -> M unit) self h args l :
  (forall r, keeps_store (qt r)) -> h !! self = None ->
  Forall (fun o => h !! o <> None) l ->
  forall (q : ctx) acc s',
    for_each l (queue_step qt self true) (<[self := TensorObj (new_tensor acc args)]> h, q)
    = (s', Ok tt) ->
    Forall (fun o => is_Observable h o = true) l
    /\ fst s' = <[self := TensorObj (new_tensor (acc ++ flat_map (constituents_of h) l) args)]> h.
Proof.
  intros Hqt Hfresh Hl. induction Hl as [|o l Ho _ IH]; intros q acc s'.
  - cbn. intros [= <-]. split; [constructor|]. cbn. rewrite List.app_nil_r. reflexivity.
  - cbn [for_each flat_map]. unfold bindM.
    destruct (queue_step qt self true o _) as [[h1 q1] [[]|e]] eqn:E1; [|discriminate].
    destruct (queue_step_init_returns qt self o h q acc args _ Hqt Hfresh Ho E1) as [Hobs Hh1].
    cbn [fst] in Hh1. subst h1. intros Hrest.
    destruct (IH q1 _ s' Hrest) as [Hl' Hs']. split; [constructor; assumption|].
    rewrite Hs', <- List.app_assoc. reflexivity.
Qed.

(** Whenever the constructor returns, in any context: the result is the new
    object, every argument was an observable, and [obs] is the flattening. *)
Lemma Tensor_new_returns depth args h (q : ctx) s' t :
  Forall (fun o => h !! o <> None) args ->
  Tensor_new depth args (h, q) = (s', Ok t) ->
  Forall (fun o => is_Observable h o = true) args
  /\ t = fresh (dom h)
  /\ fst s' = <[t := TensorObj (new_tensor (flat_map (constituents_of h) args) args)]> h.
Proof.
  intros Hargs. unfold Tensor_new, bindM at 1, get_heap. cbn [fst snd].
  set (self := fresh (dom h)).
  assert (Hfresh : h !! self = None) by apply not_elem_of_dom, is_fresh.
  assert (Hq : forall qt s1,
             (forall r, keeps_store (qt r)) ->
             bindM (for_each args (queue_step qt self true))
               (fun _ => call_ctx (fun q0 => append q0 self {[ "owns"%string := ITuple args ]}))
               (<[self := TensorObj (new_tensor [] args)]> h, q) = (s1, Ok tt) ->
             Forall (fun o => is_Observable h o = true) args
             /\ fst s1 = <[self := TensorObj (new_tensor (flat_map (constituents_of h) args)
                                                 args)]> h).
  { intros qt s1 Hqt. unfold bindM.
    destruct (for_each args _ _) as [s2 [[]|e]] eqn:E; [|discriminate].
    destruct (for_each_init_returns qt self h args args Hqt Hfresh Hargs q [] s2 E)
      as [Hobs Hs2].
    intros Happ. split; [exact Hobs|].
    pose proof (keeps_call_ctx (fun q0 => append q0 self {[ "owns"%string := ITuple args ]}) s2)
      as Hk.
    rewrite Happ in Hk. cbn [fst] in Hk. rewrite Hk. exact Hs2. }
  unfold bindM, Tensor_init, put_obj. unfold bindM at 1. cbn [fst snd].
  destruct (Tensor_queue depth self true _) as [s1 [[]|e]] eqn:E; [|discriminate].
  intros [= <- <-]. split; [|split; [reflexivity|]].
  - destruct depth; cbn [Tensor_queue] in E; unfold bindM at 1, get_heap in E;
      cbn [fst snd] in E; rewrite lookup_insert_eq in E; cbn [_args new_tensor] in E.
    + apply (Hq _ _ (fun r => keeps_raise _) E).
    + apply (Hq _ _ (fun r s0 => Tensor_queue_again_keeps_store depth r s0) E).
  - destruct depth; cbn [Tensor_queue] in E; unfold bindM at 1, get_heap in E;
      cbn [fst snd] in E; rewrite lookup_insert_eq in E; cbn [_args new_tensor] in E.
    + apply (Hq _ _ (fun r => keeps_raise _) E).
    + apply (Hq _ _ (fun r s0 => Tensor_queue_again_keeps_store depth r s0) E).
Qed.

(** C8: the [obs] list of a tensor never holds a tensor.  The invariant is
    kept by the constructor and by the tensor product [a @ b], whatever the
    arguments and the recording context, and whether the call returns or
    raises.  Whenever the constructor returns, in any context, every
    argument was an observable and [obs] is the flattening of the arguments
    in order: each tensor contributes its constituents, each plain
    observable itself.  The constructor does return on observables in every
    context that accepts every call, and, the recursion limit leaving room
    for one nested call of [queue], in every context that answers an unknown
    object with [QueuingError] (the object is then queued and the annotation
    repeated) or with [NotImplementedError]; there a tensor built
    from a tensor and a plain observable has the tensor's constituents
    followed by the observable, and an argument that is not an observable
    makes the constructor raise [ValueError]. *)
Theorem Tensor_obs_never_nested depth (h : gmap ref object) (q : ctx) :
  flat h ->
  (forall args, flat (fst (fst (Tensor_new depth args (h, q)))))
  /\ (forall a b, flat (fst (fst (matmul_op depth a b (h, q)))))
  /\ (forall args s' t,
        Forall (fun o => h !! o <> None) args ->
        Tensor_new depth args (h, q) = (s', Ok t) ->
        Forall (fun o => is_Observable h o = true) args
        /\ h !! t = None
        /\ fst s' = <[t := TensorObj (new_tensor (flat_map (constituents_of h) args) args)]> h
        /\ Forall (plain h) (flat_map (constituents_of h) args))
  /\ (accepting \/ (recovering /\ 0 < depth) ->
      (forall args, Forall (fun o => is_Observable h o = true) args ->
         exists q',
           Tensor_new depth args (h, q)
           = ((<[fresh (dom h) := TensorObj (new_tensor (flat_map (constituents_of h) args)
                                               args)]> h, q'), Ok (fresh (dom h)))
           /\ Forall (plain h) (flat_map (constituents_of h) args))
      /\ (forall t o T, h !! t = Some (TensorObj T) -> plain h o ->
            exists q',
              Tensor_new depth [t; o] (h, q)
              = ((<[fresh (dom h) := TensorObj (new_tensor (obs T ++ [o]) [t; o])]> h, q'),
                 Ok (fresh (dom h))))
      /\ (forall pre x post,
            Forall (fun o => is_Observable h o = true) pre -> h !! x = Some OtherObj ->
            snd (Tensor_new depth (pre ++ x :: post) (h, q)) = Raise (mk ValueError))).
Proof.
  intros Hflat.
  assert (Hplain : forall args, Forall (fun o => is_Observable h o = true) args ->
                                Forall (plain h) (flat_map (constituents_of h) args)).
  { intros args Hargs. apply Forall_flat_map. eapply Forall_impl; [exact Hargs|].
    intros o Ho. apply constituents_plain; assumption. }
  split; [|split; [|split]].
  - intros args. apply (pres_Tensor_new depth args (h, q)), Hflat.
  - intros a b. apply (pres_matmul_op depth a b (h, q)), Hflat.
  - intros args s' t Hargs Hrun.
    destruct (Tensor_new_returns depth args h q s' t Hargs Hrun) as (Hobs & -> & Hs').
    split; [exact Hobs|]. split; [apply not_elem_of_dom, is_fresh|].
    split; [exact Hs' | apply Hplain, Hobs].
  - intros Hret. split; [|split].
    + intros args Hargs. destruct (Tensor_new_run depth args h q Hret Hflat Hargs) as [q' Hq'].
      exists q'. split; [exact Hq' | apply Hplain, Hargs].
    + intros t o T Ht [O HO].
      destruct (Tensor_new_run depth [t; o] h q Hret Hflat) as [q' Hq'].
      { repeat constructor; unfold is_Observable; [rewrite Ht | rewrite HO]; reflexivity. }
      exists q'. rewrite Hq'. cbn [flat_map]. unfold constituents_of. rewrite Ht, HO.
      reflexivity.
    + intros pre x post Hpre Hx. apply Tensor_new_refuses_run; assumption.
Qed.

Lemma returns_self {A} (m : M A) (self : ref) s r :
  snd (bindM m (fun _ => ret self) s) = Ok r -> r = self.
Proof.
  unfold bindM. destruct (m s) as [s' [a|e]]; cbn; [intros [= <-]; reflexivity | discriminate].
Qed.

Lemma keeps_matmul_annotate self other rec : keeps_store (matmul_annotate self other rec).
Proof.
  unfold matmul_annotate. destruct rec; [|apply keeps_ret].
  apply keeps_bind; [apply keeps_ask_ctx|]. intros [info|]; [|apply keeps_raise].
  destruct (info !! "owns"%string) as [[b|r|owns]|]; try apply keeps_raise.
  apply keeps_bind; [apply keeps_call_ctx | intros _; apply keeps_call_ctx].
Qed.

(** The effect of [Tensor.__matmul__] on the store, whatever the context does. *)
Lemma Tensor_matmul_effect self other h (q : ctx) T :
  h !! self = Some (TensorObj T) -> is_Observable h other = true ->
  fst (fst (Tensor_matmul self other (h, q)))
  = <[self := TensorObj (set_obs T (obs T ++ constituents_of h other))]> h
  /\ (forall r, snd (Tensor_matmul self other (h, q)) = Ok r -> r = self)
  /\ (recording q = false ->
      Tensor_matmul self other (h, q)
      = ((<[self := TensorObj (set_obs T (obs T ++ constituents_of h other))]> h, q), Ok self)).
Proof.
  intros HT Hobs. rewrite <- (absorbed_constituents h other Hobs).
  set (ext := if is_Tensor h other then obs_of h other else [other]).
  set (h1 := <[self := TensorObj (set_obs T (obs T ++ ext))]> h).
  assert (Hrun : Tensor_matmul self other (h, q)
                 = bindM (matmul_annotate self other (recording q)) (fun _ => ret self) (h1, q)).
  { unfold Tensor_matmul, bindM at 1, get_heap. cbn [fst snd]. rewrite Hobs.
    assert (Hstep : (if is_Tensor h other then update_obs self (fun l => l ++ obs_of h other)
                     else update_obs self (fun l => l ++ [other])) (h, q)
                    = ((h1, q), Ok tt)).
    { unfold h1, ext. destruct (is_Tensor h other); unfold update_obs; cbn [fst snd];
        rewrite HT; reflexivity. }
    unfold bindM at 1. rewrite Hstep. unfold bindM at 1, read_ctx. cbn [fst snd].
    reflexivity. }
  rewrite Hrun. split; [|split].
  - rewrite keeps_bind; [reflexivity | apply keeps_matmul_annotate | intros _; apply keeps_ret].
  - intros r. apply returns_self.
  - intros ->. reflexivity.
Qed.

(** The effect of [Tensor.__rmatmul__] on the store. *)
Lemma Tensor_rmatmul_effect self other h (q : ctx) T :
  h !! self = Some (TensorObj T) -> is_Observable h other = true ->
  fst (fst (Tensor_rmatmul self other (h, q)))
  = <[self := TensorObj (set_obs T (other :: obs T))]> h
  /\ (forall r, snd (Tensor_rmatmul self other (h, q)) = Ok r -> r = self)
  /\ (recording q = false ->
      Tensor_rmatmul self other (h, q)
      = ((<[self := TensorObj (set_obs T (other :: obs T))]> h, q), Ok self)).
Proof.
  intros HT Hobs.
  set (h1 := <[self := TensorObj (set_obs T (other :: obs T))]> h).
  set (annotate := fun rec : bool =>
         if rec then call_ctx (fun q0 => update_info q0 other {[ "owner"%string := IRef self ]})
         else ret tt).
  assert (Hrun : Tensor_rmatmul self other (h, q)
                 = bindM (annotate (recording q)) (fun _ => ret self) (h1, q)).
  { unfold Tensor_rmatmul, bindM at 1, get_heap. cbn [fst snd]. rewrite Hobs.
    unfold bindM at 1, update_obs. cbn [fst snd]. rewrite HT. cbn [app].
    unfold bindM at 1, read_ctx. cbn [fst snd]. reflexivity. }
  rewrite Hrun. split; [|split].
  - rewrite keeps_bind; [reflexivity | | intros _; apply keeps_ret].
    unfold annotate. destruct (recording q); [apply keeps_call_ctx | apply keeps_ret].
  - intros r. apply returns_self.
  - intros ->. reflexivity.
Qed.

(** How [@] dispatches on a tensor and on a plain observable. *)
Lemma matmul_op_tensor_left depth t o h (q : ctx) T :
  h !! t = Some (TensorObj T) -> matmul_op depth t o (h, q) = Tensor_matmul t o (h, q).
Proof. intros HT. unfold matmul_op, bindM at 1, get_heap. cbn [fst snd]. rewrite HT. reflexivity. Qed.

Lemma matmul_op_tensor_right depth o t h (q : ctx) O T :
  h !! o = Some (ObsObj O) -> h !! t = Some (TensorObj T) ->
  matmul_op depth o t (h, q) = Tensor_rmatmul t o (h, q).
Proof.
  intros HO HT. unfold matmul_op, bindM at 1, get_heap. cbn [fst snd]. rewrite HO.
  unfold Observable_matmul, bindM at 1, get_heap. cbn [fst snd].
  unfold is_Tensor. rewrite HT. reflexivity.
Qed.


End Facts.

Lemma no_context_accepting : accepting (ctx := no_context).
Proof. split; intros q r i; exists q; reflexivity. Qed.

Lemma store0_flat : flat Examples.store0.
Proof.
  intros r t Hr. unfold Examples.store0 in Hr.
  repeat (rewrite lookup_insert in Hr; case_decide; [subst|]); try discriminate.
  injection Hr as <-. repeat constructor; eexists; reflexivity.
Qed.

Lemma log_lookup_update (l : RecordingExample.log) r r' i :
  RecordingExample.log_lookup l r <> None ->
  RecordingExample.log_lookup (RecordingExample.log_update l r' i) r <> None.
Proof.
  induction l as [|[x j] l IH]; cbn; [intros Hr; exact Hr|].
  destruct (bool_decide (r' = x)); cbn; destruct (bool_decide (r = x));
    try (intros _; discriminate); try exact IH.
  intros Hr. exact Hr.
Qed.

Lemma log_lookup_new (l : RecordingExample.log) r i :
  RecordingExample.log_lookup (l ++ [(r, i)]) r <> None.
Proof.
  induction l as [|[x j] l IH]; cbn.
  - rewrite bool_decide_eq_true_2 by reflexivity. discriminate.
  - case_bool_decide; [discriminate | exact IH].
Qed.

(** The context of [RecordingExample] answers an unknown object with
    [QueuingError] and knows every object once it is appended. *)
Lemma log_recovering : recovering (ctx := RecordingExample.log).
Proof.
  split.
  - intros q r i. cbn. destruct (RecordingExample.log_lookup q r); [left; eauto|].
    right. eexists. split; [reflexivity|]. left. reflexivity.
  - intros q r i. eexists. split; [reflexivity|]. intros j. cbn.
    assert (Hk : RecordingExample.log_lookup
                   (match RecordingExample.log_lookup q r with
                    | Some _ => RecordingExample.log_update q r i
                    | None => q ++ [(r, i)]
                    end) r <> None).
    { destruct (RecordingExample.log_lookup q r) eqn:E.
      - apply log_lookup_update. rewrite E. discriminate.
      - apply log_lookup_new. }
    destruct (RecordingExample.log_lookup _ r); [eauto | contradiction].
Qed.

Lemma Tensor_obs_never_nested_witness :
  flat (fst (fst (Tensor_new 1 [3; 2] (Examples.store0, @nil (ref * gmap string infoval)))))
  /\ exists q',
      Tensor_new 1 [3; 2] (Examples.store0, @nil (ref * gmap string infoval))
      = ((<[fresh (dom Examples.store0) := TensorObj (new_tensor ([0; 1] ++ [2]) [3; 2])]>
            Examples.store0, q'), Ok (fresh (dom Examples.store0))).
Proof.
  destruct (Tensor_obs_never_nested (ctx := RecordingExample.log) 1 Examples.store0 []
              store0_flat) as (Hnew & _ & _ & Hret).
  split; [apply Hnew|].
  destruct Hret as (_ & Hpair & _); [right; split; [exact log_recovering | lia]|].
  apply (Hpair 3 2 (new_tensor [0; 1] [0; 1])).
  - reflexivity.
  - eexists. reflexivity.
Defined.


(** Outside the tensor product: the guard of [__rmatmul__] lets a tensor
    through, so a direct call [t.__rmatmul__(t)] would nest; the expression
    [a @ b] never makes that call, since a tensor on the left is dispatched
    to [__matmul__]. *)
Remark direct_rmatmul_of_tensor_nests :
  ~ flat (fst (fst (Tensor_rmatmul 3 3 (Examples.store0, NoContext)))).
Proof.
  intros Hflat.
  specialize (Hflat 3 (set_obs (new_tensor [0; 1] [0; 1]) [3; 0; 1])).
  assert (Hl : fst (fst (Tensor_rmatmul 3 3 (Examples.store0, NoContext))) !! 3
               = Some (TensorObj (set_obs (new_tensor [0; 1] [0; 1]) [3; 0; 1])))
    by reflexivity.
  specialize (Hflat Hl). apply Forall_cons in Hflat as [[o Ho] _].
  pose proof (eq_trans (eq_sym Ho) Hl) as E. discriminate E.
Qed.

End TensorFacts.

(** ** [Tensor.matrix] and [Tensor.sparse_matrix] *)

Module TensorMatrixFacts.
Import TensorModel TensorMatrixModel.

Lemma groupby_nil {A K} `{EqDecision K} (key : A -> K) (l : list A) :
  groupby key l = [] -> l = [].
Proof.
  destruct l as [|x l]; [reflexivity|]. cbn [groupby].
  destruct (groupby key l) as [|[|y g] gs]; try discriminate.
  destruct (decide (key x = key y)); discriminate.
Qed.

Lemma mapM_nil {A B} (f : A -> res B) (l : list A) : mapM f l = Ok [] -> l = [].
Proof.
  destruct l as [|x l]; [reflexivity|]. cbn [mapM].
  destruct (f x); cbn; [|discriminate]. destruct (mapM f l); cbn; discriminate.
Qed.

(** The groups of [groupby] on a list that is cut into maximal runs. *)
Lemma groupby_prepend_run {A K} `{EqDecision K} (key : A -> K) (g : list A) :
  forall (x : A) (rest : list A) (gs' : list (list A)),
    groupby key rest = gs' ->
    forallb (fun y => bool_decide (key y = key x)) g = true ->
    match gs' with
    | (y :: _) :: _ => negb (bool_decide (key y = key x))
    | [] :: _ => false
    | [] => true
    end = true ->
    groupby key (x :: g ++ rest) = (x :: g) :: gs'.
Proof.
  induction g as [|z g IH]; intros x rest gs' Hrest Hg Hhead.
  - cbn [app groupby]. rewrite Hrest. destruct gs' as [|[|y g'] gs'']; try reflexivity;
      [discriminate|].
    apply negb_true_iff, bool_decide_eq_false in Hhead.
    destruct (decide (key x = key y)) as [E|]; [|reflexivity]. symmetry in E. contradiction.
  - cbn [forallb] in Hg. apply andb_true_iff in Hg as [Hz Hg].
    apply bool_decide_eq_true in Hz.
    change (groupby key (x :: (z :: g) ++ rest))
      with (match groupby key (z :: g ++ rest) with
            | (y :: g0) :: gs =>
                if decide (key x = key y) then (x :: y :: g0) :: gs
                else [x] :: (y :: g0) :: gs
            | _ => [[x]]
            end).
    rewrite (IH z rest gs' Hrest).
    + destruct (decide (key x = key z)) as [|Hne]; [reflexivity | congruence].
    + rewrite Hz. exact Hg.
    + rewrite Hz. exact Hhead.
Qed.

Lemma groupby_runs {A K} `{EqDecision K} (key : A -> K) (gs : list (list A)) :
  runs key gs = true -> groupby key (concat gs) = gs.
Proof.
  induction gs as [|[|x g] gs' IH]; intros Hr; [reflexivity | discriminate |].
  cbn [runs] in Hr. apply andb_true_iff in Hr as [Hr Hruns].
  apply andb_true_iff in Hr as [Hg Hhead].
  cbn [concat]. change ((x :: g) ++ concat gs') with (x :: g ++ concat gs').
  apply groupby_prepend_run; [apply IH, Hruns | exact Hg|].
  destruct gs' as [|[|y g'] gs'']; try reflexivity; [discriminate Hruns | exact Hhead].
Qed.

Lemma mapM_length {A B} (f : A -> res B) (l : list A) (ys : list B) :
  mapM f l = Ok ys -> length ys = length l.
Proof.
  revert ys. induction l as [|x l IH]; intros ys; cbn [mapM].
  - intros [= <-]. reflexivity.
  - destruct (f x); cbn; [|discriminate]. destruct (mapM f l) as [ys'|]; cbn; [|discriminate].
    intros [= <-]. cbn. rewrite (IH ys' eq_refl). reflexivity.
Qed.

Section Facts.

Variable np_kron : ndarray -> ndarray -> ndarray.
Variable multi_dot : list ndarray -> res ndarray.
Context {sparse : Type}.
Variable sp_eye2 : sparse.
Variable coo_matrix : ndarray -> sparse.
Variable sp_kron : sparse -> sparse -> sparse.

(** The block of each group: the matrix of a single constituent, the
    [multi_dot] product of the matrices of several. *)
Lemma blocks_of_groups (groups : list (list observable)) (blocks : list ndarray) :
  Forall2 (fun g B => match g with
                      | [] => False
                      | [o] => obs_matrix o = Ok B
                      | _ => exists mats, mapM obs_matrix g = Ok mats /\ multi_dot mats = Ok B
                      end) groups blocks ->
  mapM (block multi_dot) groups = Ok blocks.
Proof.
  induction 1 as [|g B groups blocks Hg _ IH]; [reflexivity|].
  cbn [mapM]. rewrite IH.
  assert (Hb : block multi_dot g = Ok B).
  { unfold block. destruct g as [|o [|o' g']]; [contradiction | |].
    - cbn [mapM]. rewrite Hg. reflexivity.
    - destruct Hg as (mats & Hm & Hd). rewrite Hm. cbn [mbind res_bind Py.bind].
      pose proof (mapM_length _ _ _ Hm) as Hlen.
      destruct mats as [|m [|m' mats']]; cbn in Hlen; try discriminate. exact Hd. }
  rewrite Hb. reflexivity.
Qed.

Lemma mat_size_of_dims (blocks : list ndarray) (dims : list nat) :
  Forall2 (fun B d => exists rest, shape B = d :: rest) blocks dims ->
  mat_size_of blocks = Ok (fold_right Nat.mul 1 dims).
Proof.
  unfold mat_size_of. intros Hd.
  assert (Hm : mapM shape0 blocks = Ok dims).
  { induction Hd as [|B d blocks dims [rest HB] _ IH]; [reflexivity|].
    assert (H0 : shape0 B = Ok d) by (unfold shape0; rewrite HB; reflexivity).
    cbn [mapM]. rewrite H0, IH. reflexivity. }
  rewrite Hm. reflexivity.
Qed.

(** C5: [Tensor.matrix()] groups neighbouring constituents with the same
    wires; the block of a group is the matrix of its one constituent, or the
    [multi_dot] product of the matrices of its several constituents.  When
    all blocks are defined and the product of their first dimensions is not
    2 to the number of wires of the tensor, the call does not raise: it
    emits one warning (the partial-overlap one when two constituents overlap
    partially, the size one otherwise) and returns the Kronecker product of
    the blocks, taken from the left in the order of the groups. *)
Theorem Tensor_matrix_size_mismatch_warns (groups : list (list observable))
    (blocks : list ndarray) (dims : list nat) :
  runs obs_wires groups = true ->
  Forall2 (fun g B => match g with
                      | [] => False
                      | [o] => obs_matrix o = Ok B
                      | _ => exists mats, mapM obs_matrix g = Ok mats /\ multi_dot mats = Ok B
                      end) groups blocks ->
  Forall2 (fun B d => exists rest, shape B = d :: rest) blocks dims ->
  fold_right Nat.mul 1 dims <> 2 ^ length (Tensor_wires (concat groups)) ->
  exists B Bs,
    blocks = B :: Bs
    /\ Tensor_matrix np_kron multi_dot (concat groups) None
       = ([if check_wires_partial_overlap (concat groups) then PartialOverlapWarning
           else SizeMismatchWarning (fold_right Nat.mul 1 dims)
                  (2 ^ length (Tensor_wires (concat groups)))],
          Ok (fold_left np_kron Bs B)).
Proof.
  intros Hruns Hblocks Hdims Hne.
  destruct blocks as [|B Bs].
  - exfalso. apply Hne. apply Forall2_nil_inv_r in Hblocks. subst groups.
    apply Forall2_nil_inv_l in Hdims. subst dims. reflexivity.
  - exists B, Bs. split; [reflexivity|].
    unfold Tensor_matrix, U_list_of.
    rewrite (groupby_runs obs_wires groups Hruns), (blocks_of_groups groups _ Hblocks).
    rewrite (mat_size_of_dims _ dims Hdims).
    destruct (Nat.eqb_spec (fold_right Nat.mul 1 dims)
                (2 ^ length (Tensor_wires (concat groups)))); [contradiction|].
    reflexivity.
Qed.

(** Overwriting the slot of the wire [y] in a list indexed by the wires. *)
Lemma insert_at_wire {B} (g : label -> B) (W : Wires_t) (y : label) (v : B) i :
  NoDup W -> index_of y W = Some i ->
  <[i := v]> (map g W) = map (fun x => if bool_decide ([y] = [x]) then v else g x) W.
Proof.
  intros Hnd. revert i. induction Hnd as [|z W Hz Hnd IH]; intros i; cbn; [discriminate|].
  case_bool_decide as Hyz.
  - intros [= <-]. subst z. cbn. rewrite bool_decide_eq_true_2 by reflexivity. f_equal.
    apply List.map_ext_in. intros x Hx. rewrite bool_decide_eq_false_2; [reflexivity|].
    intros [= ->]. apply Hz, list_elem_of_In, Hx.
  - destruct (index_of y W) as [j|]; cbn; [|discriminate]. intros [= <-]. cbn.
    rewrite bool_decide_eq_false_2 by (intros [= ->]; contradiction).
    f_equal. apply IH. reflexivity.
Qed.

Lemma place_op_placeable (W : Wires_t) (g : label -> sparse) (o : observable) :
  NoDup W -> placeable W o ->
  place_op coo_matrix W (map g W) o
  = Ok (map (fun x => factor_at coo_matrix [o] x (g x)) W).
Proof.
  intros Hnd (y & m & Hw & Hy & Hm). unfold place_op. rewrite Hw. cbn [length].
  cbn [Nat.ltb Nat.leb]. unfold index_wires, index.
  destruct (WiresFacts.index_of_elem y W Hy) as [i Hi]. rewrite Hi. cbn. rewrite Hm. cbn.
  rewrite (insert_at_wire g W y (coo_matrix m) i Hnd Hi). f_equal.
  apply List.map_ext. intros x. unfold factor_at. cbn [fold_left].
  rewrite ?Hw, ?Hm. reflexivity.
Qed.

Lemma foldM_place_ops (W : Wires_t) (obs : list observable) :
  NoDup W -> Forall (placeable W) obs ->
  forall g : label -> sparse,
    foldM (place_op coo_matrix W) obs (map g W)
    = Ok (map (fun x => factor_at coo_matrix obs x (g x)) W).
Proof.
  intros Hnd Hobs. induction Hobs as [|o obs Ho _ IH]; intros g; [reflexivity|].
  cbn [foldM]. rewrite (place_op_placeable W g o Hnd Ho). cbn.
  rewrite IH. reflexivity.
Qed.

Lemma foldM_place_ops_refused (W : Wires_t) pre (o : observable) post :
  NoDup W -> Forall (placeable W) pre -> 1 < length (obs_wires o) ->
  forall g : label -> sparse,
    foldM (place_op coo_matrix W) (pre ++ o :: post) (map g W) = Raise (mk ValueError).
Proof.
  intros Hnd Hpre Ho. induction Hpre as [|p pre Hp _ IH]; intros g.
  - cbn [app foldM]. unfold place_op.
    destruct (Nat.ltb_spec 1 (length (obs_wires o))); [reflexivity | lia].
  - cbn [app foldM]. rewrite (place_op_placeable W g p Hnd Hp). cbn. apply IH.
Qed.

Lemma all_wires_step_NoDup (acc ws : Wires_t) :
  NoDup acc ->
  NoDup (fold_left (fun acc' w => if bool_decide (w ∈ acc') then acc' else acc' ++ [w]) ws acc).
Proof.
  revert acc. induction ws as [|w ws IH]; intros acc Hacc; [exact Hacc|].
  cbn [fold_left]. apply IH. case_bool_decide as Hw; [exact Hacc|].
  apply NoDup_app. split; [exact Hacc|]. split; [|apply NoDup_singleton].
  intros x Hx Hx'. apply list_elem_of_singleton in Hx'. subst x. contradiction.
Qed.

Lemma all_wires_from_NoDup (ls : list Wires_t) (acc : Wires_t) :
  NoDup acc ->
  NoDup (fold_left
           (fun acc0 ws =>
              fold_left (fun acc' w => if bool_decide (w ∈ acc') then acc' else acc' ++ [w])
                        ws acc0)
           ls acc).
Proof.
  revert acc. induction ls as [|ws ls IH]; intros acc Hacc; [exact Hacc|].
  cbn [fold_left]. apply IH, all_wires_step_NoDup, Hacc.
Qed.

Lemma all_wires_NoDup (ls : list Wires_t) : NoDup (all_wires ls).
Proof. apply all_wires_from_NoDup. constructor. Qed.

Lemma Wires_ok_NoDup (l W : list label) : Wires l = Ok W -> NoDup W.
Proof.
  unfold Wires. destruct (nodupb l) eqn:E; [|discriminate]. intros [= <-].
  induction l as [|x l IH]; [constructor|]. cbn in E.
  apply andb_true_iff in E as [Hx Hl]. constructor; [|apply IH, Hl].
  apply negb_true_iff, bool_decide_eq_false in Hx. exact Hx.
Qed.

(** C2, as amended: on a non-empty target ordering, when every constituent
    acts on exactly one wire of the ordering and has a matrix,
    [sparse_matrix] returns the Kronecker product of one factor per wire
    position: the identity where no constituent acts, the matrix of the
    (last) constituent acting there otherwise.  It raises the
    structural-constraint [ValueError] at the first constituent that acts on
    more than one wire, whether or not those wires are contiguous. *)
Theorem Tensor_sparse_matrix_single_wires (obs : list observable)
    (wires : option (list label)) (W : Wires_t) :
  match wires with
  | None => Ok (Tensor_wires obs)
  | Some wires => Wires wires
  end = Ok W ->
  (Forall (placeable W) obs ->
   forall w0 W', W = w0 :: W' ->
     Tensor_sparse_matrix sp_eye2 coo_matrix sp_kron obs wires
     = Ok (fold_left sp_kron (map (fun x => factor_at coo_matrix obs x sp_eye2) W')
             (factor_at coo_matrix obs w0 sp_eye2))
     /\ length (map (fun x => factor_at coo_matrix obs x sp_eye2) W) = length W
     /\ (forall x, Forall (fun o => obs_wires o <> [x]) obs ->
                   factor_at coo_matrix obs x sp_eye2 = sp_eye2)
     /\ (forall x pre o m post,
           obs = pre ++ o :: post -> obs_wires o = [x] -> obs_matrix o = Ok m ->
           Forall (fun o' => obs_wires o' <> [x]) post ->
           factor_at coo_matrix obs x sp_eye2 = coo_matrix m))
  /\ (forall pre o post,
        obs = pre ++ o :: post -> Forall (placeable W) pre -> 1 < length (obs_wires o) ->
        Tensor_sparse_matrix sp_eye2 coo_matrix sp_kron obs wires = Raise (mk ValueError)).
Proof.
  intros HW.
  assert (Hnd : NoDup W).
  { destruct wires as [w|]; [exact (Wires_ok_NoDup w W HW)|].
    injection HW as <-. apply all_wires_NoDup. }
  assert (Hrep : repeat sp_eye2 (length W) = map (fun _ => sp_eye2) W).
  { clear. induction W as [|x W IH]; [reflexivity|]. cbn. rewrite IH. reflexivity. }
  assert (Huncovered : forall x l init,
             Forall (fun o => obs_wires o <> [x]) l -> factor_at coo_matrix l x init = init).
  { intros x l. induction l as [|o l IH]; intros init Hl; [reflexivity|].
    apply Forall_cons in Hl as [Ho Hl]. unfold factor_at in *. cbn [fold_left].
    rewrite bool_decide_eq_false_2 by exact Ho. apply IH, Hl. }
  assert (Hrun : Tensor_sparse_matrix sp_eye2 coo_matrix sp_kron obs wires
                 = (ops ← foldM (place_op coo_matrix W) obs (repeat sp_eye2 (length W));
                    reduce sp_kron ops)).
  { unfold Tensor_sparse_matrix. destruct wires as [w|].
    - change (Wires w = Ok W) in HW. rewrite HW. reflexivity.
    - injection HW as <-. reflexivity. }
  split.
  - intros Hobs w0 W' HWeq. split; [|split; [|split]].
    + rewrite Hrun, Hrep.
      rewrite (foldM_place_ops W obs Hnd Hobs). cbn. rewrite HWeq. reflexivity.
    + apply List.length_map.
    + intros x Hx. apply Huncovered, Hx.
    + intros x pre o m post -> Hw Hm Hpost. unfold factor_at.
      rewrite fold_left_app. cbn [fold_left].
      rewrite bool_decide_eq_true_2 by exact Hw. rewrite Hm.
      apply (Huncovered x post (coo_matrix m) Hpost).
  - intros pre o post -> Hpre Ho. rewrite Hrun, Hrep.
    rewrite (foldM_place_ops_refused W pre o post Hnd Hpre Ho). reflexivity.
Qed.

End Facts.

Lemma Tensor_matrix_size_mismatch_warns_witness :
  let groups := [[Examples.PauliZ_on 0; Examples.PauliX_on 0]; [Examples.PauliX_on 1];
                 [Examples.PauliZ_on 0]] in
  exists B Bs,
    [of_rows [[0; 1]; [-1; 0]]%float; Examples.PauliX_matrix; Examples.PauliZ_matrix] = B :: Bs
    /\ Tensor_matrix Examples.kron2 Examples.multi_dot2 (concat groups) None
       = ([SizeMismatchWarning 8 4], Ok (fold_left Examples.kron2 Bs B)).
Proof.
  intros groups.
  apply (Tensor_matrix_size_mismatch_warns Examples.kron2 Examples.multi_dot2 groups
           [of_rows [[0; 1]; [-1; 0]]%float; Examples.PauliX_matrix; Examples.PauliZ_matrix]
           [2; 2; 2]).
  - reflexivity.
  - repeat constructor.
    exists [Examples.PauliZ_matrix; Examples.PauliX_matrix]. split; reflexivity.
  - repeat constructor; eexists; reflexivity.
  - vm_compute. lia.
Defined.

(** C2, as stated, fails: a constituent on the wires 0 and 1, a contiguous
    block of the target ordering [0, 1], makes [sparse_matrix] raise. *)
Lemma sparse_matrix_contiguous_counterexample :
  contiguous [LInt 0; LInt 1] (obs_wires Examples.Herm_01) = true
  /\ Tensor_sparse_matrix (eye 2) (fun m => m) Examples.kron2 [Examples.Herm_01] None
     = Raise (mk ValueError)
  /\ Tensor_sparse_matrix (eye 2) (fun m => m) Examples.kron2 [Examples.Herm_01]
       (Some [LInt 0; LInt 1])
     = Raise (mk ValueError).
Proof. repeat split. Qed.

Lemma Tensor_sparse_matrix_single_wires_witness :
  Tensor_sparse_matrix (eye 2) (fun m => m) Examples.kron2
    [Examples.PauliX_on 0; Examples.PauliZ_on 1] (Some [LInt 0; LInt 1; LInt 2])
  = Ok (fold_left Examples.kron2 [Examples.PauliZ_matrix; eye 2] Examples.PauliX_matrix).
Proof.
  destruct (Tensor_sparse_matrix_single_wires (eye 2) (fun m => m) Examples.kron2
              [Examples.PauliX_on 0; Examples.PauliZ_on 1] (Some [LInt 0; LInt 1; LInt 2])
              [LInt 0; LInt 1; LInt 2] eq_refl) as [Hok _].
  destruct (Hok) with (w0 := LInt 0) (W' := [LInt 1; LInt 2]) as [Heq _].
  - repeat constructor.
    + exists (LInt 0), Examples.PauliX_matrix. repeat split. apply (bool_decide_unpack _).
      vm_compute. exact I.
    + exists (LInt 1), Examples.PauliZ_matrix. repeat split. apply (bool_decide_unpack _).
      vm_compute. exact I.
  - reflexivity.
  - exact Heq.
Defined.

End TensorMatrixFacts.

(** ** More on the tensor product and the constructor *)

Module TensorProductFacts.
Import TensorModel TensorFrames TensorFacts.

Section Facts.

Context {ctx : Type} `{QueuingContext ctx}.

Implicit Types (s : gmap ref object * ctx).

Local Abbreviation keeps_store := (TensorModel.keeps_store (ctx := ctx)).

Lemma only_self_update_obs h self args f s :
  only_self h self args s -> only_self h self args (fst (update_obs self f s)).
Proof.
  intros (t' & Hs & Ha). unfold update_obs. rewrite Hs, lookup_insert_eq. cbn [fst].
  exists (set_obs t' (f (obs t'))). rewrite insert_insert_eq. split; [reflexivity | exact Ha].
Qed.

Lemma only_self_keeps {A} h self args (m : M A) s :
  keeps_store m -> only_self h self args s -> only_self h self args (fst (m s)).
Proof. intros Hm (t' & Hs & Ha). exists t'. rewrite Hm. split; assumption. Qed.

Lemma only_self_bind {A B} h self args (m : M A) (f : A -> M B) s :
  only_self h self args (fst (m s)) ->
  (forall a s', only_self h self args s' -> only_self h self args (fst (f a s'))) ->
  only_self h self args (fst (bindM m f s)).
Proof.
  intros Hm Hf. unfold bindM. destruct (m s) as [s' [a|e]]; [apply Hf; exact Hm | exact Hm].
Qed.

Lemma only_self_for_each h self args (l : list ref) (body : ref -> M unit) s :
  (forall x s', only_self h self args s' -> only_self h self args (fst (body x s'))) ->
  only_self h self args s -> only_self h self args (fst (for_each l body s)).
Proof.
  intros Hb. revert s. induction l as [|x l IH]; intros s Hs; [exact Hs|].
  cbn [for_each]. apply only_self_bind; [apply Hb, Hs | intros _ s' Hs'; apply IH, Hs'].
Qed.

Lemma only_self_queue_step h self args depth o s :
  only_self h self args s ->
  only_self h self args
    (fst (queue_step (match depth with
                      | 0 => fun _ => raise (mk RecursionError)
                      | S d => fun o => Tensor_queue d o false
                      end) self true o s)).
Proof.
  intros Hs. unfold queue_step. apply only_self_bind.
  - unfold bindM, get_heap. cbn [fst snd].
    destruct (is_Tensor (fst s) o); [apply only_self_update_obs, Hs|].
    destruct (is_Observable (fst s) o); [apply only_self_update_obs, Hs | exact Hs].
  - intros _ s' Hs'. apply only_self_keeps; [|exact Hs'].
    apply keeps_bind_heap. intros h'. apply keeps_annotate_owner.
    destruct (is_Tensor h' o).
    + destruct depth; [apply keeps_raise|]. intros s0. apply Tensor_queue_again_keeps_store.
    + destruct (is_Observable h' o); [apply keeps_call_ctx | apply keeps_raise].
Qed.

(** The constructor never touches an existing object: whatever the
    arguments and the context, and whether it returns or raises, the store
    afterwards is the store before plus the new tensor at the fresh
    reference, whose [_args] are the arguments. *)
Theorem Tensor_new_only_allocates depth args (h : gmap ref object) (q : ctx) :
  exists t',
    fst (fst (Tensor_new depth args (h, q))) = <[fresh (dom h) := TensorObj t']> h
    /\ _args t' = args
    /\ forall r, r ∈ dom h -> fst (fst (Tensor_new depth args (h, q))) !! r = h !! r.
Proof.
  set (self := fresh (dom h)).
  assert (Hfresh : self ∉ dom h) by apply is_fresh.
  assert (Honly : only_self h self args (fst (Tensor_new depth args (h, q)))).
  { unfold Tensor_new, bindM at 1, get_heap. cbn [fst snd]. fold self.
    apply only_self_bind; [|intros _ s' Hs'; exact Hs'].
    unfold Tensor_init, bindM at 1, put_obj. cbn [fst snd].
    assert (H0 : only_self h self args
                   (<[self := TensorObj (new_tensor [] args)]> h, q)).
    { exists (new_tensor [] args). split; reflexivity. }
    destruct depth; cbn [Tensor_queue]; unfold bindM at 1, get_heap; cbn [fst snd];
      rewrite lookup_insert_eq; cbn [_args new_tensor];
      (apply only_self_bind;
       [|intros _ s' Hs'; apply only_self_keeps; [apply keeps_call_ctx | exact Hs']]).
    - apply only_self_for_each; [|exact H0].
      intros o s' Hs'. apply (only_self_queue_step h self args 0 o s' Hs').
    - apply only_self_for_each; [|exact H0].
      intros o s' Hs'. apply (only_self_queue_step h self args (S depth) o s' Hs'). }
  destruct Honly as (t' & Hs & Ha). exists t'. split; [exact Hs|]. split; [exact Ha|].
  intros r Hr. rewrite Hs. apply lookup_insert_ne. intros <-. contradiction.
Qed.

Lemma matmul_plain_run depth (h : gmap ref object) (q : ctx) (a b : ref) :
  accepting -> plain h a -> plain h b ->
  exists q',
    matmul_op depth a b (h, q)
    = ((<[fresh (dom h) := TensorObj (new_tensor [a; b] [a; b])]> h, q'), Ok (fresh (dom h))).
Proof.
  intros Hacc [A HA] [B HB].
  assert (Hrun : matmul_op depth a b (h, q) = Tensor_new depth [a; b] (h, q)).
  { unfold matmul_op, bindM at 1, get_heap. cbn [fst snd]. rewrite HA.
    unfold Observable_matmul, bindM at 1, get_heap. cbn [fst snd].
    unfold is_Tensor, is_Observable. rewrite HB. reflexivity. }
  destruct (Tensor_new_ok depth [a; b] h q Hacc) as [q' Hq'].
  { repeat constructor; unfold is_Observable; [rewrite HA | rewrite HB]; reflexivity. }
  exists q'. rewrite Hrun, Hq'. cbn [flat_map]. unfold constituents_of. rewrite HA, HB.
  reflexivity.
Qed.

(** [a @ b] on two plain observables, in an accepting context: a new tensor
    with [obs = [a, b]] is returned; it is a new object, and every object
    that was there before, [a] and [b] among them, is as it was. *)
Theorem matmul_of_plain_observables depth (h : gmap ref object) (q : ctx) (a b : ref) :
  accepting -> plain h a -> plain h b ->
  exists h' q' t,
    matmul_op depth a b (h, q) = ((h', q'), Ok t)
    /\ obs_of h' t = [a; b]
    /\ h !! t = None
    /\ (forall r, h !! r <> None -> h' !! r = h !! r)
    /\ plain h' a /\ plain h' b.
Proof.
  intros Hacc Ha Hb.
  destruct (matmul_plain_run depth h q a b Hacc Ha Hb) as [q' Hrun].
  assert (Hfresh : h !! fresh (dom h) = None) by apply not_elem_of_dom, is_fresh.
  assert (Hkeep : forall r, h !! r <> None ->
             <[fresh (dom h) := TensorObj (new_tensor [a; b] [a; b])]> h !! r = h !! r).
  { intros r Hr. apply lookup_insert_ne. intros <-. contradiction. }
  eexists _, q', _. split; [exact Hrun|]. split; [|split; [exact Hfresh|split; [exact Hkeep|]]].
  - unfold obs_of. rewrite lookup_insert_eq. reflexivity.
  - destruct Ha as [A HA], Hb as [B HB].
    split; [exists A | exists B]; rewrite Hkeep; congruence.
Qed.

(** [a @ b] with an observable [a] (plain or tensor) and a [b] that is not an
    observable raises [ValueError]; neither the store nor the context
    changes. *)
Theorem matmul_refuses_non_observable depth (h : gmap ref object) (q : ctx) (a b : ref) :
  is_Observable h a = true -> h !! b = Some OtherObj ->
  matmul_op depth a b (h, q) = ((h, q), Raise (mk ValueError)).
Proof.
  intros Ha Hb. unfold matmul_op, bindM at 1, get_heap. cbn [fst snd].
  unfold is_Observable in Ha. destruct (h !! a) as [[A|T|]|] eqn:Ea; try discriminate.
  - unfold Observable_matmul, bindM at 1, get_heap. cbn [fst snd].
    unfold is_Tensor, is_Observable. rewrite Hb. reflexivity.
  - unfold Tensor_matmul, bindM at 1, get_heap. cbn [fst snd].
    unfold is_Tensor, is_Observable. rewrite Hb. reflexivity.
Qed.

(** The same with the operands exchanged: a value that is not an observable
    on the left of a tensor raises [ValueError], on the left of a plain
    observable [TypeError]; nothing changes. *)
Theorem matmul_refuses_non_observable_left depth (h : gmap ref object) (q : ctx)
    (a b : ref) :
  h !! a = Some OtherObj ->
  (is_Tensor h b = true -> matmul_op depth a b (h, q) = ((h, q), Raise (mk ValueError)))
  /\ (is_Tensor h b = false -> matmul_op depth a b (h, q) = ((h, q), Raise (mk TypeError))).
Proof.
  intros Ha. split; intros Hb; unfold matmul_op, bindM at 1, get_heap; cbn [fst snd];
    rewrite Ha, Hb; [|reflexivity].
  unfold Tensor_rmatmul, bindM at 1, get_heap. cbn [fst snd].
  unfold is_Observable. rewrite Ha. reflexivity.
Qed.

(** The tensor product is associative on the constituents: outside a
    recording context that accepts every call, [(a @ b) @ c] and
    [a @ (b @ c)] on plain observables both return a tensor whose [obs] is
    [[a, b, c]]. *)
Theorem matmul_associative_on_obs depth (h : gmap ref object) (q : ctx) (a b c : ref) :
  accepting -> (forall q0 : ctx, recording q0 = false) ->
  plain h a -> plain h b -> plain h c ->
  (exists s t,
      bindM (matmul_op depth a b) (fun ab => matmul_op depth ab c) (h, q) = (s, Ok t)
      /\ obs_of (fst s) t = [a; b; c])
  /\ (exists s t,
         bindM (matmul_op depth b c) (fun bc => matmul_op depth a bc) (h, q) = (s, Ok t)
         /\ obs_of (fst s) t = [a; b; c]).
Proof.
  intros Hacc Hrec Ha Hb Hc.
  assert (Hkeep : forall x, plain h x ->
             plain (<[fresh (dom h) := TensorObj (new_tensor [a; b] [a; b])]> h) x
             /\ plain (<[fresh (dom h) := TensorObj (new_tensor [b; c] [b; c])]> h) x).
  { intros x [X HX].
    assert (Hne : fresh (dom h) <> x).
    { intros <-. pose proof (is_fresh (dom h)) as Hf. apply not_elem_of_dom in Hf.
      rewrite Hf in HX. discriminate. }
    split; exists X; rewrite lookup_insert_ne by exact Hne; exact HX. }
  split.
  - destruct (matmul_plain_run depth h q a b Hacc Ha Hb) as (q1 & Hab).
    unfold bindM at 1. rewrite Hab.
    set (h1 := <[fresh (dom h) := TensorObj (new_tensor [a; b] [a; b])]> h).
    assert (HT : h1 !! fresh (dom h) = Some (TensorObj (new_tensor [a; b] [a; b])))
      by apply lookup_insert_eq.
    destruct (proj1 (Hkeep c Hc)) as [C HC]. fold h1 in HC.
    rewrite (matmul_op_tensor_left depth _ c h1 q1 _ HT).
    destruct (Tensor_matmul_effect (fresh (dom h)) c h1 q1 _ HT) as (_ & _ & Hret);
      [unfold is_Observable; rewrite HC; reflexivity|].
    rewrite (Hret (Hrec q1)). eexists _, _. split; [reflexivity|].
    cbn [fst]. unfold obs_of. rewrite lookup_insert_eq. cbn [obs set_obs new_tensor].
    unfold constituents_of. rewrite HC. reflexivity.
  - destruct (matmul_plain_run depth h q b c Hacc Hb Hc) as (q1 & Hbc).
    unfold bindM at 1. rewrite Hbc.
    set (h1 := <[fresh (dom h) := TensorObj (new_tensor [b; c] [b; c])]> h).
    assert (HT : h1 !! fresh (dom h) = Some (TensorObj (new_tensor [b; c] [b; c])))
      by apply lookup_insert_eq.
    destruct (proj2 (Hkeep a Ha)) as [A HA]. fold h1 in HA.
    rewrite (matmul_op_tensor_right depth a _ h1 q1 A _ HA HT).
    destruct (Tensor_rmatmul_effect (fresh (dom h)) a h1 q1 _ HT) as (_ & _ & Hret);
      [unfold is_Observable; rewrite HA; reflexivity|].
    rewrite (Hret (Hrec q1)). eexists _, _. split; [reflexivity|].
    cbn [fst]. unfold obs_of. rewrite lookup_insert_eq. reflexivity.
Qed.

End Facts.

Lemma matmul_of_plain_observables_witness :
  exists h' q' t,
    matmul_op 1 0 1 (Examples.store0, NoContext) = ((h', q'), Ok t)
    /\ obs_of h' t = [0; 1]
    /\ Examples.store0 !! t = None
    /\ (forall r, Examples.store0 !! r <> None -> h' !! r = Examples.store0 !! r)
    /\ plain h' 0 /\ plain h' 1.
Proof.
  apply (matmul_of_plain_observables 1 Examples.store0 NoContext 0 1 no_context_accepting);
    eexists; reflexivity.
Defined.

Lemma matmul_refuses_non_observable_witness :
  matmul_op 1 3 4 (Examples.store0, NoContext)
  = ((Examples.store0, NoContext), Raise (mk ValueError)).
Proof. apply matmul_refuses_non_observable; reflexivity. Defined.

Lemma matmul_refuses_non_observable_left_witness :
  matmul_op 1 4 3 (Examples.store0, NoContext)
  = ((Examples.store0, NoContext), Raise (mk ValueError)).
Proof.
  apply (proj1 (matmul_refuses_non_observable_left 1 Examples.store0 NoContext 4 3 eq_refl)).
  reflexivity.
Defined.

Lemma matmul_associative_on_obs_witness :
  exists s t,
    bindM (matmul_op 1 0 1) (fun ab => matmul_op 1 ab 2) (Examples.store0, NoContext)
    = (s, Ok t)
    /\ obs_of (fst s) t = [0; 1; 2].
Proof.
  apply (proj1 (matmul_associative_on_obs 1 Examples.store0 NoContext 0 1 2
                  no_context_accepting (fun _ => eq_refl)
                  (ex_intro _ _ eq_refl) (ex_intro _ _ eq_refl) (ex_intro _ _ eq_refl))).
Defined.

End TensorProductFacts.

(** ** More on [expand_matrix] and [matrix] *)

Module ExpandMatrixMoreFacts.
Import NDArrayFacts ExpandMatrixFacts.

(** Whenever [expand_matrix] returns, it returns a well-formed square
    matrix of dimension 2 to the number of wires of the order. *)
Theorem expand_matrix_result_shape (M R : ndarray) (wires wire_order : list label) :
  expand_matrix M wires wire_order = Ok R ->
  shape R = [2 ^ length wire_order; 2 ^ length wire_order] /\ wf_array R.
Proof.
  unfold expand_matrix, Wires. destruct (nodupb wire_order); [|discriminate].
  cbn [mbind res_bind bind].
  destruct (indices wire_order wires) as [pos|]; [|discriminate]. cbn [mbind res_bind bind].
  destruct (reshape (eye _) _) as [I|]; [|discriminate]. cbn [mbind res_bind bind].
  destruct (reshape M _) as [Mr|]; [|discriminate]. cbn [mbind res_bind bind].
  destruct (tensordot _ _ _ _) as [T|]; [|discriminate]. cbn [mbind res_bind bind].
  destruct (indices wire_order wire_order) as [src|]; [|discriminate].
  cbn [mbind res_bind bind].
  destruct (moveaxis _ _ _) as [mat|]; [|discriminate]. cbn [mbind res_bind bind].
  unfold reshape. destruct (Nat.eqb_spec (prod_shape [2 ^ length wire_order;
                                                      2 ^ length wire_order])
                              (length (data mat))) as [E|]; [|discriminate].
  intros [= <-]. split; [reflexivity|]. unfold wf_array. cbn [shape data]. symmetry. exact E.
Qed.

Lemma reshape_refuses (a : ndarray) sh :
  prod_shape sh <> length (data a) -> reshape a sh = Raise (mk ValueError).
Proof.
  intros Hne. unfold reshape.
  destruct (Nat.eqb_spec (prod_shape sh) (length (data a))); [contradiction | reflexivity].
Qed.

Lemma indices_contained (wo ws : list label) :
  Forall (fun w => w ∈ wo) ws -> exists pos, indices wo ws = Ok pos.
Proof.
  induction 1 as [|x ws Hx _ [pos IH]]; [exists []; reflexivity|].
  destruct (WiresFacts.index_of_elem x wo Hx) as [i Hi].
  exists (i :: pos). cbn [indices]. unfold index. rewrite Hi. cbn. rewrite IH. reflexivity.
Qed.

(** A base matrix that does not have 4^|wires| entries is refused with
    [ValueError], for wires contained in a duplicate-free order. *)
Theorem expand_matrix_wrong_size (M : ndarray) (wires wire_order : list label) :
  NoDup wire_order -> Forall (fun w => w ∈ wire_order) wires ->
  length (data M) <> 2 ^ (length wires * 2) ->
  expand_matrix M wires wire_order = Raise (mk ValueError).
Proof.
  intros Hnd Hin Hsize. unfold expand_matrix, Wires.
  rewrite nodupb_true by exact Hnd. cbn [mbind res_bind bind].
  destruct (indices_contained wire_order wires Hin) as [pos ->]. cbn [mbind res_bind bind].
  rewrite (reshape_ok (eye (2 ^ length wire_order))).
  2:{ unfold eye, tabulate. cbn [data].
      rewrite List.length_map, all_indices_length, !prod_shape_cons, prod_shape_repeat2.
      change (prod_shape []) with 1.
      replace (length wire_order * 2) with (length wire_order + length wire_order) by lia.
      rewrite Nat.pow_add_r. lia. }
  cbn [mbind res_bind bind]. rewrite (reshape_refuses M); [reflexivity|].
  rewrite prod_shape_repeat2. congruence.
Qed.

Lemma index_of_missing (x : label) (wo : Wires_t) : x ∉ wo -> index_of x wo = None.
Proof.
  induction wo as [|y wo IH]; intros Hx; [reflexivity|]. cbn [index_of].
  rewrite bool_decide_eq_false_2 by (intros ->; apply Hx; left).
  rewrite IH by (intros Hin; apply Hx; right; exact Hin). reflexivity.
Qed.

Lemma indices_missing (wo ws : Wires_t) :
  Exists (fun w => w ∉ wo) ws -> indices wo ws = Raise (mk WireError).
Proof.
  induction 1 as [x ws Hx | x ws _ IH]; cbn [indices]; unfold index.
  - rewrite (index_of_missing x wo Hx). reflexivity.
  - destruct (index_of x wo); [|reflexivity]. cbn [mbind res_bind bind]. rewrite IH.
    reflexivity.
Qed.

(** Which wires [expand_matrix] refuses, whatever the matrix is: a wire
    order that names a wire twice, and an operator wire that the wire order
    does not contain; both raise [WireError]. *)
Theorem expand_matrix_wire_errors (M : ndarray) (wires wire_order : list label) :
  (~ NoDup wire_order -> expand_matrix M wires wire_order = Raise (mk WireError))
  /\ (Exists (fun w => w ∉ wire_order) wires ->
      expand_matrix M wires wire_order = Raise (mk WireError)).
Proof.
  unfold expand_matrix, Wires. split.
  - intros Hdup. destruct (nodupb wire_order) eqn:End; [|reflexivity].
    exfalso. apply Hdup. apply (TensorMatrixFacts.Wires_ok_NoDup wire_order).
    unfold Wires. rewrite End. reflexivity.
  - intros Hmiss. destruct (nodupb wire_order); [|reflexivity].
    cbn [mbind res_bind bind]. rewrite (indices_missing _ _ Hmiss). reflexivity.
Qed.

Lemma expand_matrix_wire_errors_witness :
  expand_matrix M16 [LInt 0; LInt 2] [LInt 0; LInt 1; LInt 0] = Raise (mk WireError)
  /\ expand_matrix M16 [LInt 0; LInt 2] [LInt 0; LInt 1] = Raise (mk WireError).
Proof.
  split.
  - apply (proj1 (expand_matrix_wire_errors M16 [LInt 0; LInt 2] [LInt 0; LInt 1; LInt 0])).
    intros Hnd. apply NoDup_cons in Hnd as [Hnd _]. apply Hnd.
    apply (bool_decide_unpack _). vm_compute. exact I.
  - apply (proj2 (expand_matrix_wire_errors M16 [LInt 0; LInt 2] [LInt 0; LInt 1])).
    right. left. apply (bool_decide_unpack _). vm_compute. exact I.
Defined.

Lemma expand_matrix_result_shape_witness :
  shape (of_rows [[1; 3; 2; 4]; [9; 11; 10; 12]; [5; 7; 6; 8]; [13; 15; 14; 16]]%float)
  = [2 ^ 2; 2 ^ 2]
  /\ wf_array (of_rows [[1; 3; 2; 4]; [9; 11; 10; 12]; [5; 7; 6; 8]; [13; 15; 14; 16]]%float).
Proof.
  apply (expand_matrix_result_shape M16 _ [LInt 0; LInt 2] [LInt 2; LInt 0]).
  vm_compute. reflexivity.
Defined.

Lemma expand_matrix_wrong_size_witness :
  expand_matrix (of_rows [[1; 2]; [3; 4]]%float) [LInt 0; LInt 2] [LInt 0; LInt 1; LInt 2]
  = Raise (mk ValueError).
Proof.
  apply expand_matrix_wrong_size.
  - apply (bool_decide_unpack _). vm_compute. exact I.
  - apply (bool_decide_unpack _). vm_compute. exact I.
  - vm_compute. lia.
Defined.

End ExpandMatrixMoreFacts.

(** ** Construction and inversion of operators *)

Module OperatorMoreFacts.
Import OperatorModel OperationModel Examples MoreExamples.

Section Facts.

Context {eigs : Type}.
Context {ctx : Type} `{QueuingContext ctx}.
Variable Wires_ctor : pyval -> res Wires_t.
Variable np_linalg_eigvals : ndarray -> res eigs.
Variable math_conj : ndarray -> ndarray.
Variable conj_eigs : eigs -> eigs.

Lemma Operator_init_unfold (c : @op_class eigs) r hp params wires do_queue id (q : ctx) :
  wires <> PyNone ->
  Operator_init Wires_ctor c r hp params wires do_queue id q
  = if negb (length params =? num_params c (length params)) then Raise (mk ValueError)
    else
      ws ← resolve_wires Wires_ctor wires;
      if wrong_number_of_wires (num_wires c) (length ws) then Raise (mk ValueError)
      else
        let self := {| cls := c; _name := class_name c; _id := id; queue_idx := None;
                       _num_params := length params; _wires := ws; data := params;
                       _hyperparameters := hp; _inverse := false |} in
        if do_queue then q' ← append q r ∅; Ok (self, q') else Ok (self, q).
Proof. intros Hw. unfold Operator_init, resolve_wires. destruct wires; congruence. Qed.

Lemma Operator_init_context (c : @op_class eigs) r hp params wires do_queue id
    (q q' : ctx) (self : @operator eigs) :
  Operator_init Wires_ctor c r hp params wires do_queue id q = Ok (self, q') ->
  if do_queue then append q r ∅ = Ok q' else q' = q.
Proof.
  intros Hinit.
  assert (Hw : wires <> PyNone) by (intros ->; discriminate Hinit).
  revert Hinit. rewrite (Operator_init_unfold c r hp params wires do_queue id q Hw).
  destruct (negb _); [discriminate|].
  destruct (resolve_wires Wires_ctor wires) as [ws|]; [|discriminate].
  cbn [mbind res_bind bind].
  destruct (wrong_number_of_wires (num_wires c) (length ws)); [discriminate|].
  destruct do_queue.
  - destruct (append q r ∅) as [q0|]; cbn [mbind res_bind bind]; [|discriminate].
    intros [= _ <-]. reflexivity.
  - intros [= _ <-]. reflexivity.
Qed.

(** What a successful [Operator.__init__] guarantees: as many parameters as
    [num_params] says, as many wires as [num_wires] says unless it is
    [AllWires] or [AnyWires], the class name as name, the inverse flag
    unset; and the recording context is touched by one [append] when
    [do_queue] is set and not at all otherwise. *)
Theorem Operator_init_invariants (c : @op_class eigs) r hp params wires do_queue id
    (q q' : ctx) (self : @operator eigs) :
  Operator_init Wires_ctor c r hp params wires do_queue id q = Ok (self, q') ->
  cls self = c
  /\ data self = params
  /\ length (data self) = num_params (cls self) (_num_params self)
  /\ resolve_wires Wires_ctor wires = Ok (OperatorModel.wires self)
  /\ (num_wires c = AllWires \/ num_wires c = AnyWires
      \/ Z.of_nat (length (OperatorModel.wires self)) = num_wires c)
  /\ name self = class_name c
  /\ inverse self = false
  /\ (if do_queue then append q r ∅ = Ok q' else q' = q).
Proof.
  intros Hinit.
  assert (Hw : wires <> PyNone) by (intros ->; discriminate Hinit).
  revert Hinit.
  rewrite (Operator_init_unfold c r hp params wires do_queue id q Hw).
  destruct (Nat.eqb_spec (length params) (num_params c (length params))) as [Hn|];
    [|discriminate]. cbn [negb].
  destruct (resolve_wires Wires_ctor wires) as [ws|]; [|discriminate]. cbn [mbind res_bind bind].
  destruct (wrong_number_of_wires (num_wires c) (length ws)) eqn:Ew; [discriminate|].
  assert (Hres : forall q0,
             Ok ({| cls := c; _name := class_name c; _id := id; queue_idx := None;
                    _num_params := length params; _wires := ws; data := params;
                    _hyperparameters := hp; _inverse := false |}, q0) = Ok (self, q') ->
             cls self = c /\ data self = params
             /\ length (data self) = num_params (cls self) (_num_params self)
             /\ Ok ws = Ok (OperatorModel.wires self)
             /\ (num_wires c = AllWires \/ num_wires c = AnyWires
                 \/ Z.of_nat (length (OperatorModel.wires self)) = num_wires c)
             /\ name self = class_name c /\ inverse self = false /\ q0 = q').
  { intros q0 [= <- <-]. cbn. repeat split; try assumption.
    - unfold wrong_number_of_wires in Ew.
      destruct (Z.eqb_spec (num_wires c) AllWires); [left; assumption|].
      destruct (Z.eqb_spec (num_wires c) AnyWires); [right; left; assumption|].
      destruct (Z.eqb_spec (Z.of_nat (length ws)) (num_wires c));
        [right; right; assumption | discriminate].
    - unfold name. cbn. destruct (kind c); reflexivity. }
  destruct do_queue.
  - destruct (append q r ∅) as [q0|] eqn:Ea; [|discriminate]. cbn [mbind res_bind bind].
    intros Hq. destruct (Hres q0 Hq) as (H1 & H2 & H3 & H4 & H5 & H6 & H7 & H8).
    subst q0. repeat split; assumption.
  - intros Hq. destruct (Hres q Hq) as (H1 & H2 & H3 & H4 & H5 & H6 & H7 & H8).
    repeat split; try assumption. symmetry. exact H8.
Qed.

(** What [Operator.__init__] refuses with [ValueError]: no wires; a number
    of parameters other than the fixed [num_params], whatever the wires are;
    and a number of wires other than a fixed [num_wires]. *)
Theorem Operator_init_refusals (c : @op_class eigs) r hp params wires do_queue id (q : ctx) :
  (wires = PyNone ->
   Operator_init Wires_ctor c r hp params wires do_queue id q = Raise (mk ValueError))
  /\ (forall k, wires <> PyNone -> num_params_fixed c = Some k -> length params <> k ->
                Operator_init Wires_ctor c r hp params wires do_queue id q
                = Raise (mk ValueError))
  /\ (forall ws, wires <> PyNone ->
                 length params = num_params c (length params) ->
                 resolve_wires Wires_ctor wires = Ok ws ->
                 num_wires c <> AllWires -> num_wires c <> AnyWires ->
                 Z.of_nat (length ws) <> num_wires c ->
                 Operator_init Wires_ctor c r hp params wires do_queue id q
                 = Raise (mk ValueError)).
Proof.
  split; [intros ->; reflexivity|]. split.
  - intros k Hw Hk Hne. rewrite (Operator_init_unfold c r hp params wires do_queue id q Hw).
    unfold num_params. rewrite Hk.
    destruct (Nat.eqb_spec (length params) k); [contradiction | reflexivity].
  - intros ws Hw Hn Hws Hall Hany Hlen.
    rewrite (Operator_init_unfold c r hp params wires do_queue id q Hw).
    rewrite <- Hn, Nat.eqb_refl. cbn [negb]. rewrite Hws. cbn [mbind res_bind bind].
    unfold wrong_number_of_wires.
    destruct (Z.eqb_spec (num_wires c) AllWires); [contradiction|].
    destruct (Z.eqb_spec (num_wires c) AnyWires); [contradiction|].
    destruct (Z.eqb_spec (Z.of_nat (length ws)) (num_wires c)); [contradiction | reflexivity].
Qed.

(** What a successful [Operation.__init__] guarantees about [grad_recipe]:
    with the analytic method it has one entry per parameter, otherwise it is
    [None]. *)
Theorem Operation_init_grad_recipe (c : @operation_class eigs) r hp params wires do_queue id
    (q q' : ctx) (o : @operation eigs) :
  Operation_init Wires_ctor c r hp params wires do_queue id q = Returned (o, q') ->
  Operator_init Wires_ctor (base c) r hp params wires do_queue id q = Ok (op o, q')
  /\ (grad_method c (op o) = Some "A"%string ->
      exists recipe, grad_recipe o = Some recipe
                     /\ length recipe = num_params (cls (op o)) (_num_params (op o)))
  /\ (grad_method c (op o) <> Some "A"%string ->
      grad_recipe o = None /\ grad_recipe_attr c = None).
Proof.
  unfold Operation_init.
  destruct (Operator_init _ _ _ _ _ _ _ _ _) as [[self q0]|]; [|discriminate].
  case_bool_decide as Hgm.
  - destruct (grad_recipe_attr c) as [recipe|].
    + destruct (Nat.eqb_spec (length recipe) (num_params (cls self) (_num_params self)));
        [|discriminate].
      intros [= <- <-]. cbn. split; [reflexivity|]. split; [eauto | contradiction].
    + intros [= <- <-]. cbn. split; [reflexivity|]. split; [|contradiction].
      intros _. eexists. split; [reflexivity | apply List.repeat_length].
  - destruct (grad_recipe_attr c) as [recipe|]; [discriminate|].
    intros [= <- <-]. cbn. split; [reflexivity|]. split; [contradiction | split; reflexivity].
Qed.

(** A failing [grad_recipe] assertion comes after the base constructor has
    run: the wires and parameters were accepted and, with [do_queue], the
    object is already appended to the recording context. *)
Theorem Operation_init_asserts_after_queue (c : @operation_class eigs) r hp params wires
    do_queue id (q q' : ctx) :
  Operation_init Wires_ctor c r hp params wires do_queue id q = AssertionFailed q' ->
  (exists self, Operator_init Wires_ctor (base c) r hp params wires do_queue id q
                = Ok (self, q'))
  /\ (if do_queue then append q r ∅ = Ok q' else q' = q)
  /\ exists recipe, grad_recipe_attr c = Some recipe.
Proof.
  unfold Operation_init.
  destruct (Operator_init _ _ _ _ _ _ _ _ _) as [[self q0]|] eqn:Einit; [|discriminate].
  intros Hfail.
  assert (Hq : q0 = q' /\ exists recipe, grad_recipe_attr c = Some recipe).
  { case_bool_decide; destruct (grad_recipe_attr c) as [recipe|]; try discriminate.
    - destruct (length recipe =? _); [discriminate|]. injection Hfail as ->. eauto.
    - injection Hfail as ->. eauto. }
  destruct Hq as [-> Hrec]. split; [eauto|]. split; [|exact Hrec].
  exact (Operator_init_context _ _ _ _ _ _ _ _ _ _ Einit).
Qed.

(** Inside a recording context [inv()] leaves the operation as it is: it
    reads the annotation [inverse] of the object in the context (unset
    counts as [False]) and stores its negation there; the flag of the
    object, and with it [matrix()], do not change. *)
Theorem inv_recording_leaves_object (q q' : ctx) (r : ref) (self self' : @operator eigs) :
  recording q = true ->
  inv q r self = Ok (q', self') ->
  self' = self
  /\ Operation_matrix math_conj self' None = Operation_matrix math_conj self None
  /\ exists info,
      get_info q r = Ok (Some info)
      /\ update_info q r {[ "inverse"%string :=
                              IBool (negb (match info !! "inverse"%string with
                                           | Some v => truthy v
                                           | None => false
                                           end)) ]} = Ok q'.
Proof.
  intros Hrec. unfold inv. rewrite Hrec.
  destruct (get_info q r) as [[info|]|]; cbn [mbind res_bind bind]; try discriminate.
  destruct (update_info q r _) as [q0|] eqn:Eu; cbn [mbind res_bind bind]; [|discriminate].
  intros [= <- <-]. split; [reflexivity|]. split; [reflexivity|].
  exists info. split; [reflexivity | exact Eu].
Qed.


(** [Operation.eigvals()] of an inverted operation without [compute_eigvals]:
    the fallback takes the eigenvalues of [self.matrix()], which for an
    inverted operation is already the conjugate transpose, and conjugates
    them once more. *)
Theorem Operation_eigvals_inverted_fallback (self : @operator eigs) (M : ndarray) e v :
  kind (cls self) = KOperation -> inverse self = true ->
  compute_eigvals (cls self) (parameters self) (hyperparameters self) = Raise e ->
  isinstance_exn e EigvalsUndefinedError = true ->
  compute_matrix (cls self) (parameters self) (hyperparameters self) = Ok M ->
  np_linalg_eigvals (math_conj (math_T M)) = Ok v ->
  Operation_eigvals np_linalg_eigvals math_conj conj_eigs self = Ok (conj_eigs v).
Proof.
  intros Hk Hinv He Hcls HM Hv.
  unfold Operation_eigvals, Operator_eigvals, try_except. rewrite He, Hcls.
  unfold matrix. rewrite Hk. unfold Operation_matrix. rewrite HM, Hinv.
  cbn [mbind res_bind bind]. rewrite Hv. cbn [mbind res_bind bind]. reflexivity.
Qed.

End Facts.

Lemma Operator_init_invariants_witness :
  exists self : @operator (list float),
    Operator_init Examples.Wires_ctor Herm_cls 7 ∅ [PyArr PauliZ_matrix]
      (PyList [PyInt 0; PyInt 1]) true None (@nil (ref * gmap string infoval))
    = Ok (self, [(7, ∅)])
    /\ length (data self) = 1
    /\ name self = "Hermitian"%string.
Proof.
  eexists. split; [reflexivity|].
  pose proof (Operator_init_invariants Examples.Wires_ctor Herm_cls 7 ∅ [PyArr PauliZ_matrix]
                (PyList [PyInt 0; PyInt 1]) true None [] [(7, ∅)] _ eq_refl)
    as (_ & _ & Hlen & _ & _ & Hname & _).
  split; [exact Hlen | exact Hname].
Defined.

Lemma Operator_init_refusals_witness :
  Operator_init Examples.Wires_ctor PauliZ_cls 7 ∅ [PyInt 5] (PyInt 0) true None NoContext
  = Raise (mk ValueError)
  /\ Operator_init Examples.Wires_ctor PauliZ_cls 7 ∅ [] (PyList [PyInt 0; PyInt 1]) true None
       NoContext
     = Raise (mk ValueError).
Proof.
  split.
  - apply (proj1 (proj2 (Operator_init_refusals Examples.Wires_ctor PauliZ_cls 7 ∅ [PyInt 5]
                           (PyInt 0) true None NoContext)) 0); [discriminate | reflexivity|].
    cbn. lia.
  - apply (proj2 (proj2 (Operator_init_refusals Examples.Wires_ctor PauliZ_cls 7 ∅ []
                           (PyList [PyInt 0; PyInt 1]) true None NoContext))
             [LInt 0; LInt 1]); try discriminate; reflexivity.
Defined.

Lemma Operation_init_grad_recipe_witness :
  exists o : @operation (list float),
    Operation_init Examples.Wires_ctor Analytic_cls 7 ∅ [PyInt 1; PyInt 2] (PyInt 0) false None
      NoContext = Returned (o, NoContext)
    /\ exists recipe, grad_recipe o = Some recipe /\ length recipe = 2.
Proof.
  eexists. split; [reflexivity|].
  apply (Operation_init_grad_recipe Examples.Wires_ctor Analytic_cls 7 ∅ [PyInt 1; PyInt 2]
           (PyInt 0) false None NoContext NoContext _ eq_refl).
  reflexivity.
Defined.

Lemma Operation_init_asserts_after_queue_witness :
  RecordingExample.log_lookup [(7, ∅)] 7 = Some ∅
  /\ append (@nil (ref * gmap string infoval)) 7 ∅ = Ok [(7, ∅)].
Proof.
  split; [reflexivity|].
  apply (Operation_init_asserts_after_queue Examples.Wires_ctor Inconsistent_cls 7 ∅
           [PyInt 1] (PyInt 0) true None [] [(7, ∅)]).
  reflexivity.
Defined.

Lemma inv_recording_leaves_object_witness :
  let self := instance RY_pi_cls [LInt 0] false in
  let q : RecordingExample.log := [(3, ∅)] in
  let q' : RecordingExample.log := [(3, {[ "inverse"%string := IBool true ]})] in
  inv q 3 self = Ok (q', self)
  /\ Operation_matrix conj_real self None = Operation_matrix conj_real self None
  /\ get_info q' 3 = Ok (Some {[ "inverse"%string := IBool true ]}).
Proof.
  intros self q q'. split; [reflexivity|].
  destruct (inv_recording_leaves_object conj_real q q' 3 self self) as (_ & Hm & _);
    [reflexivity | reflexivity |].
  split; [exact Hm | reflexivity].
Defined.


Lemma Operation_eigvals_inverted_fallback_witness :
  Operation_eigvals (fun m => Ok (NDArray.data m)) conj_real (map PrimFloat.opp)
    (instance RY_pi_cls [LInt 0] true)
  = Ok (map PrimFloat.opp (NDArray.data (math_T RY_pi_matrix))).
Proof.
  apply (Operation_eigvals_inverted_fallback (fun m => Ok (NDArray.data m)) conj_real
           (map PrimFloat.opp)
           (instance RY_pi_cls [LInt 0] true) RY_pi_matrix (mk EigvalsUndefinedError));
    reflexivity.
Defined.

End OperatorMoreFacts.

(** ** The matrix of a tensor on separate wires *)

Module TensorMatrixMoreFacts.
Import TensorModel TensorMatrixModel SeparateWires.

Lemma shared_wires_nil (a b : Wires_t) :
  shared_wires a b = [] -> forall w, w ∈ a -> w ∉ b.
Proof.
  unfold shared_wires. induction a as [|x a IH]; intros Hs w Hw.
  - apply elem_of_nil in Hw. contradiction.
  - cbn [List.filter] in Hs. case_bool_decide as Hx; [discriminate|].
    apply elem_of_cons in Hw as [->|Hw]; [exact Hx | apply IH; assumption].
Qed.

Lemma separated_cons (o : observable) (rest : list observable) :
  separated (o :: rest) = true ->
  Forall (fun o' => forall w, w ∈ obs_wires o -> w ∉ obs_wires o') rest
  /\ separated rest = true.
Proof.
  cbn [separated]. intros Hs. apply andb_true_iff in Hs as [Hf Hr]. split; [|exact Hr].
  apply Forall_forall. intros o' Ho'. apply shared_wires_nil.
  rewrite forallb_forall in Hf.
  apply list_elem_of_In in Ho'. apply Hf in Ho'. apply bool_decide_eq_true in Ho'. exact Ho'.
Qed.

Lemma proper_wires_spec (o : observable) :
  proper_wires o = true -> obs_wires o <> [] /\ NoDup (obs_wires o).
Proof.
  unfold proper_wires. intros Hp. apply andb_true_iff in Hp as [Hne Hnd]. split.
  - apply negb_true_iff, bool_decide_eq_false in Hne. exact Hne.
  - apply (TensorMatrixFacts.Wires_ok_NoDup (obs_wires o)). unfold Wires. rewrite Hnd.
    reflexivity.
Qed.

Lemma existsb_none {A} (f : A -> bool) (l : list A) :
  (forall x, In x l -> f x = false) -> existsb f l = false.
Proof.
  induction l as [|x l IH]; intros Hl; [reflexivity|]. cbn [existsb].
  rewrite (Hl x) by (left; reflexivity). apply IH. intros y Hy. apply Hl. right. exact Hy.
Qed.

Lemma combinations2_separated (l : list observable) (a b : observable) :
  separated l = true -> In (a, b) (combinations2 l) ->
  shared_wires (obs_wires a) (obs_wires b) = [].
Proof.
  induction l as [|x l IH]; intros Hs Hin; [contradiction|].
  cbn [combinations2] in Hin. apply List.in_app_or in Hin as [Hin|Hin].
  - apply List.in_map_iff in Hin as (y & [= <- <-] & Hy).
    cbn [separated] in Hs. apply andb_true_iff in Hs as [Hf _].
    rewrite forallb_forall in Hf. apply Hf in Hy. apply bool_decide_eq_true in Hy. exact Hy.
  - apply IH; [|exact Hin]. cbn [separated] in Hs. apply andb_true_iff in Hs as [_ Hr].
    exact Hr.
Qed.

(** Constituents on separate wires never overlap partially. *)
Lemma separated_no_partial_overlap (obs : list observable) :
  separated obs = true -> check_wires_partial_overlap obs = false.
Proof.
  intros Hs. unfold check_wires_partial_overlap. apply existsb_none. intros [a b] Hin.
  cbn [fst snd]. rewrite (combinations2_separated obs a b Hs Hin).
  rewrite bool_decide_eq_true_2 by reflexivity. reflexivity.
Qed.

(** On separate wires every group of [itertools.groupby] is one constituent. *)
Lemma groupby_separated (obs : list observable) :
  separated obs = true -> forallb proper_wires obs = true ->
  groupby obs_wires obs = map (fun o => [o]) obs.
Proof.
  induction obs as [|x l IH]; intros Hs Hp; [reflexivity|].
  pose proof (separated_cons x l Hs) as [Hdis Hs'].
  cbn [forallb] in Hp. apply andb_true_iff in Hp as [Hx Hp'].
  cbn [groupby]. rewrite (IH Hs' Hp'). destruct l as [|y l']; [reflexivity|].
  cbn [map]. destruct (decide (obs_wires x = obs_wires y)) as [E|]; [|reflexivity].
  exfalso. apply proper_wires_spec in Hx as [Hne _].
  apply Forall_cons in Hdis as [Hy _].
  destruct (obs_wires x) as [|w ws] eqn:Ew; [contradiction|].
  apply (Hy w); [left | rewrite <- E; left].
Qed.

Section Facts.

Variable np_kron : ndarray -> ndarray -> ndarray.
Variable multi_dot : list ndarray -> res ndarray.

Lemma blocks_of_singletons (obs : list observable) :
  mapM (block multi_dot) (map (fun o => [o]) obs) = mapM obs_matrix obs.
Proof.
  induction obs as [|o l IH]; [reflexivity|]. cbn [map mapM]. rewrite IH.
  unfold block. cbn [mapM]. destruct (obs_matrix o); reflexivity.
Qed.

Lemma mapM_sized (obs : list observable) (mats : list ndarray) :
  Forall2 sized obs mats -> mapM obs_matrix obs = Ok mats.
Proof.
  induction 1 as [|o m l ms [Hm _] _ IH]; [reflexivity|].
  cbn [mapM]. rewrite Hm, IH. reflexivity.
Qed.

Lemma mat_size_of_sized (obs : list observable) (mats : list ndarray) :
  Forall2 sized obs mats ->
  mat_size_of mats = Ok (2 ^ length (concat (map obs_wires obs))).
Proof.
  unfold mat_size_of.
  assert (Hdims : Forall2 sized obs mats ->
                  exists dims, mapM shape0 mats = Ok dims
                               /\ fold_right Nat.mul 1 dims
                                  = 2 ^ length (concat (map obs_wires obs))).
  { induction 1 as [|o m l ms [_ Hm] _ (dims & Hd & Hp)].
    - exists []. split; reflexivity.
    - exists (2 ^ length (obs_wires o) :: dims). split.
      + cbn [mapM]. rewrite Hm, Hd. reflexivity.
      + cbn [fold_right map concat]. rewrite Hp, List.length_app, Nat.pow_add_r. reflexivity. }
  intros Hs. destruct (Hdims Hs) as (dims & -> & <-). reflexivity.
Qed.

Lemma add_wires_fresh (ws acc : Wires_t) :
  NoDup ws -> (forall w, w ∈ ws -> w ∉ acc) ->
  fold_left (fun acc' w => if bool_decide (w ∈ acc') then acc' else acc' ++ [w]) ws acc
  = acc ++ ws.
Proof.
  revert acc. induction ws as [|w ws IH]; intros acc Hnd Hfresh.
  - cbn. rewrite List.app_nil_r. reflexivity.
  - apply NoDup_cons in Hnd as [Hw Hnd]. cbn [fold_left].
    rewrite bool_decide_eq_false_2 by (apply Hfresh; left).
    rewrite IH; [rewrite <- List.app_assoc; reflexivity | exact Hnd |].
    intros w' Hw' Hin. apply elem_of_app in Hin as [Hin|Hin].
    + apply (Hfresh w'); [right; exact Hw' | exact Hin].
    + apply list_elem_of_singleton in Hin. subst w'. contradiction.
Qed.

Lemma all_wires_from_separated (obs : list observable) (acc : Wires_t) :
  separated obs = true -> forallb proper_wires obs = true ->
  Forall (fun o => forall w, w ∈ acc -> w ∉ obs_wires o) obs ->
  fold_left (fun acc0 ws =>
               fold_left (fun acc' w => if bool_decide (w ∈ acc') then acc' else acc' ++ [w])
                         ws acc0)
            (map obs_wires obs) acc
  = acc ++ concat (map obs_wires obs).
Proof.
  revert acc. induction obs as [|o l IH]; intros acc Hs Hp Hacc.
  - cbn. rewrite List.app_nil_r. reflexivity.
  - pose proof (separated_cons o l Hs) as [Hdis Hs'].
    cbn [forallb] in Hp. apply andb_true_iff in Hp as [Ho Hp'].
    apply proper_wires_spec in Ho as [_ Hnd].
    apply Forall_cons in Hacc as [Hacc_o Hacc_l].
    cbn [map fold_left concat]. rewrite add_wires_fresh.
    + rewrite IH; [rewrite <- List.app_assoc; reflexivity | exact Hs' | exact Hp' |].
      rewrite Forall_forall in Hacc_l, Hdis. apply Forall_forall. intros o' Ho' w Hw.
      apply elem_of_app in Hw as [Hw|Hw]; [apply Hacc_l | apply Hdis]; assumption.
    + exact Hnd.
    + intros w Hw Hin. exact (Hacc_o w Hin Hw).
Qed.

(** The wires of a tensor on separate wires: those of its constituents,
    one after the other. *)
Lemma Tensor_wires_separated (obs : list observable) :
  separated obs = true -> forallb proper_wires obs = true ->
  Tensor_wires obs = concat (map obs_wires obs).
Proof.
  intros Hs Hp. unfold Tensor_wires, all_wires.
  rewrite (all_wires_from_separated obs [] Hs Hp); [reflexivity|].
  apply Forall_forall. intros o _ w Hw. apply elem_of_nil in Hw. contradiction.
Qed.

(** [Tensor.matrix()] of constituents on pairwise separate wires, each with
    a matrix of the size of its wires: no warning is emitted and the result
    is the Kronecker product of the constituents' matrices, from the left in
    the order of [obs]; [multi_dot] is not called. *)
Theorem Tensor_matrix_separate_wires (obs : list observable) (m : ndarray)
    (mats : list ndarray) :
  separated obs = true ->
  forallb proper_wires obs = true ->
  Forall2 sized obs (m :: mats) ->
  check_wires_partial_overlap obs = false
  /\ Tensor_wires obs = concat (map obs_wires obs)
  /\ Tensor_matrix np_kron multi_dot obs None = ([], Ok (fold_left np_kron mats m)).
Proof.
  intros Hs Hp Hm. split; [apply separated_no_partial_overlap, Hs|].
  split; [apply Tensor_wires_separated; assumption|].
  unfold Tensor_matrix, U_list_of.
  rewrite (groupby_separated obs Hs Hp), blocks_of_singletons, (mapM_sized obs _ Hm).
  rewrite (mat_size_of_sized obs _ Hm), (Tensor_wires_separated obs Hs Hp).
  rewrite Nat.eqb_refl. reflexivity.
Qed.

Lemma groupby_same_key {A K} `{EqDecision K} (key : A -> K) (k : K) (x : A) (l : list A) :
  Forall (fun y => key y = k) (x :: l) -> groupby key (x :: l) = [x :: l].
Proof.
  revert x. induction l as [|y l IH]; intros x Hk; [reflexivity|].
  apply Forall_cons in Hk as [Hx Hl]. cbn [groupby]. 
  change (match groupby key (y :: l) with
          | (y0 :: g) :: gs =>
              if decide (key x = key y0) then (x :: y0 :: g) :: gs else [x] :: (y0 :: g) :: gs
          | _ => [[x]]
          end = [x :: y :: l]).
  rewrite (IH y Hl). apply Forall_cons in Hl as [Hy _].
  destruct (decide (key x = key y)) as [|Hne]; [reflexivity | congruence].
Qed.

Lemma add_wires_known (ws acc : Wires_t) :
  (forall w, w ∈ ws -> w ∈ acc) ->
  fold_left (fun acc' w => if bool_decide (w ∈ acc') then acc' else acc' ++ [w]) ws acc = acc.
Proof.
  induction ws as [|w ws IH]; intros Hk; [reflexivity|]. cbn [fold_left].
  rewrite bool_decide_eq_true_2 by (apply Hk; left). apply IH. intros w' Hw'. apply Hk.
  right. exact Hw'.
Qed.

Lemma Tensor_wires_same (W : Wires_t) (o : observable) (l : list observable) :
  NoDup W -> Forall (fun o' => obs_wires o' = W) (o :: l) -> Tensor_wires (o :: l) = W.
Proof.
  intros Hnd Hall. apply Forall_cons in Hall as [Ho Hl].
  unfold Tensor_wires, all_wires. cbn [map fold_left]. rewrite Ho.
  rewrite add_wires_fresh; [|exact Hnd|intros w _ Hw; apply elem_of_nil in Hw; contradiction].
  cbn [app]. induction Hl as [|o' l' Ho' _ IH]; [reflexivity|].
  cbn [map fold_left]. rewrite Ho', add_wires_known by (intros w Hw; exact Hw). exact IH.
Qed.

Lemma shared_wires_self (W : Wires_t) : shared_wires W W = W.
Proof.
  unfold shared_wires. 
  assert (Hgen : forall a, (forall w, w ∈ a -> w ∈ W) ->
                           List.filter (fun w => bool_decide (w ∈ W)) a = a).
  { induction a as [|x a IH]; intros Ha; [reflexivity|]. cbn [List.filter].
    rewrite bool_decide_eq_true_2 by (apply Ha; left). f_equal. apply IH.
    intros w Hw. apply Ha. right. exact Hw. }
  apply Hgen. intros w Hw. exact Hw.
Qed.

Lemma combinations2_in {A} (l : list A) (a b : A) :
  In (a, b) (combinations2 l) -> In a l /\ In b l.
Proof.
  induction l as [|x l IH]; intros Hin; [contradiction|].
  cbn [combinations2] in Hin. apply List.in_app_or in Hin as [Hin|Hin].
  - apply List.in_map_iff in Hin as (y & [= <- <-] & Hy). split; [left; reflexivity|].
    right. exact Hy.
  - destruct (IH Hin) as [Ha Hb]. split; right; assumption.
Qed.

(** [Tensor.matrix()] of two or more constituents that all act on the same
    wires: they form one group, whose matrices are multiplied by
    [multi_dot] in the order of [obs]; the product is the result, without a
    Kronecker product and, when it has the size of the wires, without a
    warning. *)
Theorem Tensor_matrix_same_wires (W : Wires_t) (o1 o2 : observable) (rest : list observable)
    (mats : list ndarray) (P : ndarray) :
  NoDup W ->
  Forall (fun o => obs_wires o = W) (o1 :: o2 :: rest) ->
  mapM obs_matrix (o1 :: o2 :: rest) = Ok mats ->
  multi_dot mats = Ok P ->
  shape0 P = Ok (2 ^ length W) ->
  check_wires_partial_overlap (o1 :: o2 :: rest) = false
  /\ Tensor_wires (o1 :: o2 :: rest) = W
  /\ Tensor_matrix np_kron multi_dot (o1 :: o2 :: rest) None = ([], Ok P).
Proof.
  intros Hnd Hall Hmats Hdot Hsize.
  pose proof (Tensor_wires_same W o1 (o2 :: rest) Hnd Hall) as Hw.
  split; [|split; [exact Hw|]].
  - unfold check_wires_partial_overlap. apply existsb_none. intros [a b] Hin.
    apply combinations2_in in Hin as [Ha Hb]. rewrite List.Forall_forall in Hall.
    cbn [fst snd]. rewrite (Hall a Ha), (Hall b Hb), shared_wires_self.
    rewrite !(bool_decide_eq_true_2 (W = W)) by reflexivity. cbn [negb orb].
    apply andb_false_r.
  - unfold Tensor_matrix, U_list_of. rewrite Hw.
    rewrite (groupby_same_key obs_wires W o1 (o2 :: rest) Hall).
    assert (Hblock : block multi_dot (o1 :: o2 :: rest) = Ok P).
    { unfold block. rewrite Hmats. cbn [mbind res_bind bind].
      cbn [mapM] in Hmats.
      destruct (obs_matrix o1); [|discriminate]. cbn [mbind res_bind bind] in Hmats.
      destruct (obs_matrix o2); [|discriminate]. cbn [mbind res_bind bind] in Hmats.
      destruct (mapM obs_matrix rest); [|discriminate]. cbn [mbind res_bind bind] in Hmats.
      injection Hmats as <-. exact Hdot. }
    cbn [mapM]. rewrite Hblock. cbn [mbind res_bind bind].
    unfold mat_size_of. cbn [mapM]. rewrite Hsize. cbn [mbind res_bind bind fold_right].
    rewrite Nat.mul_1_r, Nat.eqb_refl. reflexivity.
Qed.

End Facts.

Lemma Tensor_matrix_same_wires_witness :
  Tensor_matrix Examples.kron2 Examples.multi_dot2
    [Examples.PauliX_on 0; Examples.PauliZ_on 0] None
  = ([], Ok (of_rows [[0; -1]; [1; 0]]%float)).
Proof.
  apply (Tensor_matrix_same_wires Examples.kron2 Examples.multi_dot2 [LInt 0]
           (Examples.PauliX_on 0) (Examples.PauliZ_on 0) []
           [Examples.PauliX_matrix; Examples.PauliZ_matrix]).
  - apply (bool_decide_unpack _). vm_compute. exact I.
  - repeat constructor.
  - reflexivity.
  - vm_compute. reflexivity.
  - reflexivity.
Defined.

Lemma Tensor_matrix_separate_wires_witness :
  Tensor_matrix Examples.kron2 Examples.multi_dot2
    [Examples.PauliX_on 0; MoreExamples.Herm_on 1 2; Examples.PauliZ_on 3] None
  = ([], Ok (fold_left Examples.kron2 [eye 4; Examples.PauliZ_matrix] Examples.PauliX_matrix)).
Proof.
  apply (Tensor_matrix_separate_wires Examples.kron2 Examples.multi_dot2
           [Examples.PauliX_on 0; MoreExamples.Herm_on 1 2; Examples.PauliZ_on 3]).
  - reflexivity.
  - reflexivity.
  - repeat constructor.
Defined.

End TensorMatrixMoreFacts.

(** ** The Heisenberg expansion of CV operators *)

Module CVFacts.
Import CVModel.

Section Shapes.

Context {R : Type}.
Variable r0 r1 : R.

Lemma get_slice_length {A} (l : list A) start :
  start + 2 <= length l -> length (get_slice l start) = 2.
Proof.
  intros H. unfold get_slice. rewrite List.length_firstn, List.length_skipn. lia.
Qed.

Lemma get_slice_Forall {A} (P : A -> Prop) (l : list A) start :
  Forall P l -> Forall P (get_slice l start).
Proof.
  intros H. unfold get_slice. apply Forall_take, Forall_drop, H.
Qed.

Lemma set_item_ok {A} (l : list A) i (x : A) :
  i < length l -> set_item l i x = Ok (<[i := x]> l).
Proof.
  intros H. unfold set_item. destruct (Nat.ltb_spec i (length l)); [reflexivity | lia].
Qed.

(** Replacing two rows of a matrix by two rows of the same length. *)
Lemma splice_shape2 (W rows' : list (list R)) d r c :
  shape2 W r c -> d + 2 <= r -> length rows' = 2 -> Forall (fun row => length row = c) rows' ->
  shape2 (firstn d W ++ rows' ++ skipn (d + 2) W) r c.
Proof.
  intros [Hr Hc] Hd Hlen Hrows. split.
  - rewrite !List.length_app, List.length_firstn, List.length_skipn. lia.
  - apply Forall_app. split; [apply Forall_take, Hc|].
    apply Forall_app. split; [exact Hrows | apply Forall_drop, Hc].
Qed.

Lemma insert_row_shape2 (W : list (list R)) i row r c :
  shape2 W r c -> length row = c -> shape2 (<[i := row]> W) r c.
Proof.
  intros [Hr Hc] Hrow. split; [rewrite length_insert; exact Hr|].
  apply Forall_insert; assumption.
Qed.

Lemma indices_ok (wo ws : Wires_t) :
  contains_wires wo ws = true ->
  exists wi, indices wo ws = Ok wi /\ length wi = length ws /\ Forall (fun w => w < length wo) wi.
Proof.
  unfold contains_wires. induction ws as [|x ws IH]; intros Hc.
  - exists []. repeat split. constructor.
  - cbn in Hc. apply andb_true_iff in Hc as [Hx Hws]. apply bool_decide_eq_true in Hx.
    destruct (IH Hws) as (wi & Hwi & Hlen & Hlt).
    destruct (WiresFacts.index_of_elem x wo Hx) as [i Hi].
    exists (i :: wi). cbn [indices]. unfold index. rewrite Hi. cbn. rewrite Hwi. cbn.
    repeat split; [lia|]. constructor; [|exact Hlt].
    eapply WiresFacts.index_of_lt, Hi.
Qed.

Lemma enumerate_In {A} (l : list A) k (x : A) :
  In (k, x) (enumerate l) -> k < length l /\ In x l.
Proof.
  unfold enumerate. intros Hin. split.
  - apply List.in_combine_l in Hin. apply List.in_seq in Hin. lia.
  - eapply List.in_combine_r, Hin.
Qed.

Lemma zeros2_shape dim : shape2 (zeros2 r0 dim) dim dim.
Proof.
  unfold zeros2. split; [apply List.repeat_length|].
  apply Forall_forall. intros row Hrow. apply list_elem_of_In, List.repeat_spec in Hrow.
  subst row. apply List.repeat_length.
Qed.

Lemma eye2_shape dim : shape2 (eye2 r0 r1 dim) dim dim.
Proof.
  unfold eye2. split; [rewrite List.length_map; apply List.length_seq|].
  apply Forall_map, Forall_forall. intros i _. cbn.
  rewrite List.length_map. apply List.length_seq.
Qed.

Lemma shape2_row (W : list (list R)) r c row : shape2 W r c -> In row W -> length row = c.
Proof.
  intros [_ Hrows] Hin. rewrite Forall_forall in Hrows. apply Hrows, list_elem_of_In, Hin.
Qed.

End Shapes.


Lemma get_slice_two {A} (l : list A) start :
  start + 2 <= length l ->
  exists a b, get_slice l start = [a; b]
              /\ nth_error l start = Some a /\ nth_error l (S start) = Some b.
Proof.
  unfold get_slice. revert l. induction start as [|s IH]; intros l Hl.
  - destruct l as [|a [|b l]]; cbn in Hl; try lia. exists a, b. repeat split.
  - destruct l as [|x l]; cbn in Hl; [lia|]. cbn [skipn nth_error]. apply IH. lia.
Qed.

(** Overwriting two neighbouring entries leaves the others alone. *)
Lemma splice_nth {A} (l : list A) start (a b : A) :
  start + 2 <= length l ->
  nth_error (firstn start l ++ [a; b] ++ skipn (start + 2) l) start = Some a
  /\ nth_error (firstn start l ++ [a; b] ++ skipn (start + 2) l) (S start) = Some b
  /\ forall p, p <> start -> p <> S start ->
               nth_error (firstn start l ++ [a; b] ++ skipn (start + 2) l) p = nth_error l p.
Proof.
  revert l. induction start as [|s IH]; intros l Hl.
  - destruct l as [|x [|y l]]; cbn in Hl; try lia. cbn. repeat split.
    intros [|[|p]] H0 H1; try contradiction; reflexivity.
  - destruct l as [|x l]; cbn in Hl; [lia|].
    destruct (IH l ltac:(lia)) as (Ha & Hb & Hframe).
    cbn [firstn Nat.add skipn app nth_error]. split; [exact Ha|]. split; [exact Hb|].
    intros [|p] H0 H1; [reflexivity|]. cbn [nth_error]. apply Hframe; lia.
Qed.

Lemma set_slice_two {A} (l : list A) start (a b : A) :
  start + 2 <= length l ->
  set_slice l start [a; b] = Ok (firstn start l ++ [a; b] ++ skipn (start + 2) l).
Proof.
  intros Hl. unfold set_slice. rewrite (get_slice_length l start Hl). reflexivity.
Qed.

Lemma index_of_nth (x : label) (wo : Wires_t) i :
  index_of x wo = Some i -> nth_error wo i = Some x.
Proof.
  revert i. induction wo as [|y wo IH]; intros i; cbn [index_of]; [discriminate|].
  case_bool_decide as E.
  - intros [= <-]. subst y. reflexivity.
  - destruct (index_of x wo) as [j|]; cbn; [|discriminate]. intros [= <-]. cbn. apply IH.
    reflexivity.
Qed.

Lemma indices_nth (wo ws : Wires_t) (wi : list nat) :
  indices wo ws = Ok wi ->
  (forall k x, nth_error ws k = Some x ->
               exists i, index_of x wo = Some i /\ nth_error wi k = Some i)
  /\ (forall i, In i wi -> exists x, x ∈ ws /\ index_of x wo = Some i).
Proof.
  revert wi. induction ws as [|y ws IH]; intros wi; cbn [indices].
  - intros [= <-]. split; [intros [|k] x; discriminate | intros i []].
  - unfold index. destruct (index_of y wo) as [j|] eqn:Ej; cbn; [|discriminate].
    destruct (indices wo ws) as [wi'|]; cbn; [|discriminate]. intros [= <-].
    destruct (IH wi' eq_refl) as [Hk Hi]. split.
    + intros [|k] x; cbn [nth_error].
      * intros [= <-]. exists j. split; [exact Ej | reflexivity].
      * apply Hk.
    + intros i [<-|Hin].
      * exists y. split; [left | exact Ej].
      * destruct (Hi i Hin) as (x & Hx & Hxi). exists x. split; [right; exact Hx | exact Hxi].
Qed.

Lemma indices_NoDup (wo ws : Wires_t) (wi : list nat) :
  indices wo ws = Ok wi -> NoDup ws -> NoDup wi.
Proof.
  revert wi. induction ws as [|y ws IH]; intros wi; cbn [indices].
  - intros [= <-] _. constructor.
  - unfold index. destruct (index_of y wo) as [j|] eqn:Ej; cbn; [|discriminate].
    destruct (indices wo ws) as [wi'|] eqn:Ei; cbn; [|discriminate]. intros [= <-] Hnd.
    apply NoDup_cons in Hnd as [Hy Hnd]. constructor; [|apply IH; [reflexivity | exact Hnd]].
    intros Hj. apply list_elem_of_In in Hj.
    destruct (proj2 (indices_nth wo ws wi' Ei) j Hj) as (x & Hx & Hxj).
    apply index_of_nth in Ej, Hxj. rewrite Ej in Hxj. injection Hxj as ->. contradiction.
Qed.

Section Facts.

Context {R : Type}.
Variable r0 r1 : R.

Ltac step := cbn [mbind res_bind Py.bind].

(** The loop of the vector branch: the pair of every wire goes to the
    position of the wire; the other entries stay as they were. *)
Lemma expand1_loop (v : list R) (N : nat) (wi : list nat) :
  forall (s : nat) (W0 : list R),
    1 + 2 * (s + length wi) <= length v ->
    NoDup wi -> Forall (fun w => w < N) wi -> length W0 = 1 + N * 2 ->
    exists W,
      foldM (fun W kw => set_slice W (loc (snd kw)) (get_slice v (loc (fst kw))))
            (combine (seq s (length wi)) wi) W0 = Ok W
      /\ length W = 1 + N * 2
      /\ (forall k w, nth_error wi k = Some w ->
                      nth_error W (loc w) = nth_error v (loc (s + k))
                      /\ nth_error W (S (loc w)) = nth_error v (S (loc (s + k))))
      /\ (forall p, (forall w, In w wi -> p <> loc w /\ p <> S (loc w)) ->
                    nth_error W p = nth_error W0 p).
Proof.
  induction wi as [|w wi IH]; intros s W0 Hv Hnd Hlt HW0.
  - exists W0. split; [reflexivity|]. split; [exact HW0|]. split; [|reflexivity].
    intros [|k] w; discriminate.
  - apply NoDup_cons in Hnd as [Hw Hnd]. apply Forall_cons in Hlt as [HwN Hlt].
    cbn [length] in Hv. cbn [length seq combine foldM fst snd].
    destruct (get_slice_two v (loc s)) as (a & b & -> & Ha & Hb); [unfold loc; lia|].
    rewrite set_slice_two by (unfold loc; lia). step.
    destruct (splice_nth W0 (loc w) a b) as (Hwa & Hwb & Hframe); [unfold loc; lia|].
    set (W1 := firstn (loc w) W0 ++ [a; b] ++ skipn (loc w + 2) W0) in *.
    assert (HW1 : length W1 = 1 + N * 2).
    { unfold W1. rewrite !List.length_app, List.length_firstn, List.length_skipn.
      cbn [length]. unfold loc. lia. }
    destruct (IH (S s) W1 ltac:(lia) Hnd Hlt HW1) as (W & -> & HlenW & Hset & Hkeep).
    exists W. split; [reflexivity|]. split; [exact HlenW|]. split.
    + intros [|k] w' Hk; cbn [nth_error] in Hk.
      * injection Hk as <-. rewrite Nat.add_0_r, Ha, Hb, <- Hwa, <- Hwb.
        assert (Hfree : forall p, p = loc w \/ p = S (loc w) ->
                                  forall w', In w' wi -> p <> loc w' /\ p <> S (loc w')).
        { intros p Hp w' Hw'. assert (w' <> w).
          { intros ->. apply Hw, list_elem_of_In, Hw'. }
          unfold loc in *. lia. }
        split; apply Hkeep, Hfree; [left | right]; reflexivity.
      * replace (s + S k) with (S s + k) by lia. apply Hset, Hk.
    + intros p Hp. rewrite Hkeep by (intros w' Hw'; apply Hp; right; exact Hw').
      destruct (Hp w (or_introl eq_refl)) as [H1 H2]. apply Hframe; assumption.
Qed.

Lemma at2_splice (W : list (list R)) d (ra rb : list R) p q :
  d + 2 <= length W ->
  at2 (firstn d W ++ [ra; rb] ++ skipn (d + 2) W) p q
  = if p =? d then nth_error ra q else if p =? S d then nth_error rb q else at2 W p q.
Proof.
  intros Hd. destruct (splice_nth W d ra rb Hd) as (Ha & Hb & Hf). unfold at2.
  destruct (Nat.eqb_spec p d) as [->|H1]; [rewrite Ha; reflexivity|].
  destruct (Nat.eqb_spec p (S d)) as [->|H2]; [rewrite Hb; reflexivity|].
  rewrite Hf by assumption. reflexivity.
Qed.

Lemma at2_insert (W : list (list R)) i row p q :
  i < length W ->
  at2 (<[i := row]> W) p q = if p =? i then nth_error row q else at2 W p q.
Proof.
  unfold at2. revert i p. induction W as [|r W IH]; intros i p Hi; [cbn in Hi; lia|].
  destruct i as [|i]; destruct p as [|p]; cbn; try reflexivity.
  apply IH. cbn in Hi. lia.
Qed.

Lemma shape2_nth (W : list (list R)) r c i row :
  shape2 W r c -> nth_error W i = Some row -> length row = c.
Proof.
  intros HW Hi. eapply shape2_row; [exact HW|]. eapply List.nth_error_In, Hi.
Qed.

(** [W[d1, d2] = U[s1, s2]] for four slices of width 2. *)
Lemma set_block_content (W U : list (list R)) d1 d2 s1 s2 r c r' c' :
  shape2 W r c -> d1 + 2 <= r -> d2 + 2 <= c ->
  shape2 U r' c' -> s1 + 2 <= r' -> s2 + 2 <= c' ->
  exists W', set_block W d1 d2 (get_block U s1 s2) = Ok W' /\ shape2 W' r c
    /\ (forall a b, a < 2 -> b < 2 -> at2 W' (d1 + a) (d2 + b) = at2 U (s1 + a) (s2 + b))
    /\ (forall p q, ~ (d1 <= p < d1 + 2 /\ d2 <= q < d2 + 2) -> at2 W' p q = at2 W p q).
Proof.
  intros HW Hd1 Hd2 HU Hs1 Hs2. pose proof HW as [Hr Hrows]. pose proof HU as [Hr' Hrows'].
  destruct (get_slice_two W d1) as (wa & wb & HWs & Hwa & Hwb); [lia|].
  destruct (get_slice_two U s1) as (ua & ub & HUs & Hua & Hub); [lia|].
  pose proof (shape2_nth _ _ _ _ _ HW Hwa) as Hlwa.
  pose proof (shape2_nth _ _ _ _ _ HW Hwb) as Hlwb.
  pose proof (shape2_nth _ _ _ _ _ HU Hua) as Hlua.
  pose proof (shape2_nth _ _ _ _ _ HU Hub) as Hlub.
  destruct (get_slice_two ua s2) as (x & y & Hx & Hxa & Hxb); [lia|].
  destruct (get_slice_two ub s2) as (z & w & Hz & Hza & Hzb); [lia|].
  unfold set_block, get_block. rewrite HWs, HUs.
  cbn [map length Nat.eqb]. rewrite Hx, Hz. step. cbn [combine mapM fst snd].
  rewrite !set_slice_two by lia. step.
  destruct (splice_nth wa d2 x y ltac:(lia)) as (Hax & Hay & Haf).
  destruct (splice_nth wb d2 z w ltac:(lia)) as (Hbz & Hbw & Hbf).
  eexists. split; [reflexivity|]. split; [|split].
  - apply splice_shape2; [exact HW | exact Hd1 | reflexivity |].
    repeat constructor;
      rewrite !List.length_app, List.length_firstn, List.length_skipn; cbn [length]; lia.
  - intros a b Ha Hb. rewrite at2_splice by lia. unfold at2.
    destruct a as [|[|a]]; [| |lia]; destruct b as [|[|b]]; try lia;
      rewrite ?Nat.add_0_r, ?Nat.add_1_r, ?Nat.eqb_refl;
      rewrite ?Hua, ?Hub, ?Hax, ?Hay, ?Hxa, ?Hxb, ?Hza, ?Hzb;
      try reflexivity;
      (destruct (Nat.eqb_spec (S d1) d1); [lia|]);
      rewrite ?Hbz, ?Hbw; reflexivity.
  - intros p q Hpq. rewrite at2_splice by lia. unfold at2.
    destruct (Nat.eqb_spec p d1) as [->|H1].
    { rewrite Hwa. apply Haf; lia. }
    destruct (Nat.eqb_spec p (S d1)) as [->|H2]; [|reflexivity].
    rewrite Hwb. apply Hbf; lia.
Qed.

(** [W[d, 0] = U[s, 0]] for two row slices of width 2. *)
Lemma set_col_content (W U : list (list R)) d s r c r' c' :
  shape2 W r c -> d + 2 <= r -> 0 < c ->
  shape2 U r' c' -> s + 2 <= r' -> 0 < c' ->
  exists col W', get_col_slice U s 0 = Ok col /\ set_col_slice W d 0 col = Ok W'
    /\ shape2 W' r c
    /\ (forall a, a < 2 -> at2 W' (d + a) 0 = at2 U (s + a) 0)
    /\ (forall p q, ~ (d <= p < d + 2 /\ q = 0) -> at2 W' p q = at2 W p q).
Proof.
  intros HW Hd Hc HU Hs Hc'.
  destruct (get_slice_two W d) as (wa & wb & HWs & Hwa & Hwb); [destruct HW; lia|].
  destruct (get_slice_two U s) as (ua & ub & HUs & Hua & Hub); [destruct HU; lia|].
  pose proof (shape2_nth _ _ _ _ _ HW Hwa) as Hlwa.
  pose proof (shape2_nth _ _ _ _ _ HW Hwb) as Hlwb.
  pose proof (shape2_nth _ _ _ _ _ HU Hua) as Hlua.
  pose proof (shape2_nth _ _ _ _ _ HU Hub) as Hlub.
  destruct ua as [|x ua]; [cbn in Hlua; lia|]. destruct ub as [|z ub]; [cbn in Hlub; lia|].
  destruct wa as [|xa wa]; [cbn in Hlwa; lia|]. destruct wb as [|xb wb]; [cbn in Hlwb; lia|].
  exists [x; z]. unfold get_col_slice, set_col_slice. rewrite HUs, HWs.
  cbn [mapM item nth_error]. step. cbn [length Nat.eqb]. step.
  cbn [combine mapM fst snd]. rewrite !set_item_ok by (cbn [length]; lia). step.
  eexists. split; [reflexivity|]. split; [reflexivity|]. split; [|split].
  - apply splice_shape2; [exact HW | exact Hd | reflexivity |].
    repeat constructor; rewrite length_insert; assumption.
  - intros a Ha. rewrite at2_splice by (destruct HW; lia). unfold at2.
    destruct a as [|[|a]]; [| |lia]; rewrite ?Nat.add_0_r, ?Nat.add_1_r, ?Nat.eqb_refl.
    + rewrite Hua. reflexivity.
    + destruct (Nat.eqb_spec (S d) d); [lia|]. rewrite Hub. reflexivity.
  - intros p q Hpq. rewrite at2_splice by (destruct HW; lia). unfold at2.
    destruct (Nat.eqb_spec p d) as [->|H1].
    { rewrite Hwa. destruct q as [|q]; [lia | reflexivity]. }
    destruct (Nat.eqb_spec p (S d)) as [->|H2]; [|reflexivity].
    rewrite Hwb. destruct q as [|q]; [lia | reflexivity].
Qed.

(** [W[0, d] = U[0, s]] for two column slices of width 2. *)
Lemma set_row_content (W U : list (list R)) d s r c r' c' :
  shape2 W r c -> 0 < r -> d + 2 <= c ->
  shape2 U r' c' -> 0 < r' -> s + 2 <= c' ->
  exists urow0 wrow0 row',
    item U 0 = Ok urow0 /\ item W 0 = Ok wrow0
    /\ set_slice wrow0 d (get_slice urow0 s) = Ok row'
    /\ set_item W 0 row' = Ok (<[0 := row']> W)
    /\ shape2 (<[0 := row']> W) r c
    /\ (forall b, b < 2 -> at2 (<[0 := row']> W) 0 (d + b) = at2 U 0 (s + b))
    /\ (forall p q, ~ (p = 0 /\ d <= q < d + 2) -> at2 (<[0 := row']> W) p q = at2 W p q).
Proof.
  intros HW Hr Hd HU Hr' Hs.
  destruct U as [|urow0 U]; [destruct HU as [HU _]; cbn in HU; lia|].
  destruct W as [|wrow0 W]; [destruct HW as [HW _]; cbn in HW; lia|].
  pose proof (shape2_nth _ _ _ 0 _ HW eq_refl) as Hlw.
  pose proof (shape2_nth _ _ _ 0 _ HU eq_refl) as Hlu.
  destruct (get_slice_two urow0 s) as (x & y & Hxy & Hx & Hy); [lia|].
  destruct (splice_nth wrow0 d x y ltac:(lia)) as (Hax & Hay & Haf).
  exists urow0, wrow0. eexists. split; [reflexivity|]. split; [reflexivity|].
  rewrite Hxy, set_slice_two by lia. split; [reflexivity|].
  split; [apply set_item_ok; cbn [length]; lia|]. split; [|split].
  - apply insert_row_shape2; [exact HW|].
    rewrite !List.length_app, List.length_firstn, List.length_skipn. cbn [length]. lia.
  - intros b Hb. unfold at2. cbn [nth_error].
    change (<[0 := ?row]> (wrow0 :: W)) with (row :: W). cbn [nth_error].
    destruct b as [|[|b]]; [| |lia]; rewrite ?Nat.add_0_r, ?Nat.add_1_r; congruence.
  - intros p q Hpq. unfold at2.
    change (<[0 := ?row]> (wrow0 :: W)) with (row :: W).
    destruct p as [|p]; [|reflexivity]. cbn [nth_error]. apply Haf; lia.
Qed.

(** The inner loop of the matrix branch: the blocks of one row pair. *)
Lemma expand2_inner (U : list (list R)) (nU s1 d1 N : nat) :
  shape2 U nU nU -> s1 + 2 <= nU -> d1 + 2 <= 1 + N * 2 ->
  forall (wi : list nat) (s : nat) (W0 : list (list R)),
    1 + 2 * (s + length wi) <= nU ->
    NoDup wi -> Forall (fun w => w < N) wi -> shape2 W0 (1 + N * 2) (1 + N * 2) ->
    exists W,
      foldM (fun W kw2 => set_block W d1 (loc (snd kw2)) (get_block U s1 (loc (fst kw2))))
            (combine (seq s (length wi)) wi) W0 = Ok W
      /\ shape2 W (1 + N * 2) (1 + N * 2)
      /\ (forall k w a b, nth_error wi k = Some w -> a < 2 -> b < 2 ->
                          at2 W (d1 + a) (loc w + b) = at2 U (s1 + a) (loc (s + k) + b))
      /\ (forall p q, (d1 <= p < d1 + 2 ->
                       forall w, In w wi -> ~ (loc w <= q < loc w + 2)) ->
                      at2 W p q = at2 W0 p q).
Proof.
  intros HU Hs1 Hd1. induction wi as [|w wi IH]; intros s W0 Hv Hnd Hlt HW0.
  - exists W0. split; [reflexivity|]. split; [exact HW0|]. split; [|reflexivity].
    intros [|k] w; discriminate.
  - apply NoDup_cons in Hnd as [Hw Hnd]. apply Forall_cons in Hlt as [HwN Hlt].
    cbn [length] in Hv. cbn [length seq combine foldM fst snd].
    destruct (set_block_content W0 U d1 (loc w) s1 (loc s) _ _ _ _ HW0 Hd1
                ltac:(unfold loc; lia) HU Hs1 ltac:(unfold loc; lia))
      as (W1 & -> & HW1 & Hset1 & Hframe1). step.
    destruct (IH (S s) W1 ltac:(lia) Hnd Hlt HW1) as (W & -> & HW & Hset & Hkeep).
    exists W. split; [reflexivity|]. split; [exact HW|]. split.
    + intros [|k] w' a b Hk Ha Hb; cbn [nth_error] in Hk.
      * injection Hk as <-. rewrite Nat.add_0_r, <- Hset1 by assumption.
        apply Hkeep. intros _ w' Hw'.
        assert (w' <> w) by (intros ->; apply Hw, list_elem_of_In, Hw').
        unfold loc. lia.
      * replace (s + S k) with (S s + k) by lia. apply Hset; assumption.
    + intros p q Hp. rewrite Hkeep by (intros Hr w' Hw'; apply Hp; [exact Hr | right; exact Hw']).
      apply Hframe1. intros [Hr Hq]. apply (Hp Hr w (or_introl eq_refl)). exact Hq.
Qed.

Lemma bind_step {A B} (m : res A) (f : A -> res B) a r :
  m = Ok a -> f a = r -> m ≫= f = r.
Proof. intros -> <-. reflexivity. Qed.

Lemma foldM_step {A B} (f : B -> A -> res B) x l b b1 r :
  f b x = Ok b1 -> foldM f l b1 = r -> foldM f (x :: l) b = r.
Proof. intros H1 H2. cbn [foldM]. rewrite H1. exact H2. Qed.

Local Abbreviation outer_body U wire_indices :=
  (fun W kw1 =>
     let s1 := loc (fst kw1) in
     let d1 := loc (snd kw1) in
     col ← get_col_slice U s1 0;
     W ← set_col_slice W d1 0 col;
     Urow0 ← item U 0;
     Wrow0 ← item W 0;
     Wrow0 ← set_slice Wrow0 d1 (get_slice Urow0 s1);
     W ← set_item W 0 Wrow0;
     foldM (fun W kw2 =>
              set_block W d1 (loc (snd kw2)) (get_block U s1 (loc (fst kw2))))
           (enumerate wire_indices) W).

(** One round of the outer loop of the matrix branch: the first column, the
    first row and the blocks of one wire; nothing else changes. *)
Lemma expand2_round (U : list (list R)) (nw N : nat) (wi_all : list nat) k1 w1
    (W0 : list (list R)) :
  shape2 U (1 + 2 * nw) (1 + 2 * nw) -> length wi_all = nw ->
  NoDup wi_all -> Forall (fun w => w < N) wi_all ->
  k1 < nw -> In w1 wi_all -> shape2 W0 (1 + N * 2) (1 + N * 2) ->
  exists W,
    outer_body U wi_all W0 (k1, w1) = Ok W
    /\ shape2 W (1 + N * 2) (1 + N * 2)
    /\ (forall a, a < 2 ->
          at2 W (loc w1 + a) 0 = at2 U (loc k1 + a) 0
          /\ at2 W 0 (loc w1 + a) = at2 U 0 (loc k1 + a)
          /\ forall k2 w2 b, nth_error wi_all k2 = Some w2 -> b < 2 ->
               at2 W (loc w1 + a) (loc w2 + b) = at2 U (loc k1 + a) (loc k2 + b))
    /\ (forall p q, p <> 0 -> ~ (loc w1 <= p < loc w1 + 2) -> at2 W p q = at2 W0 p q)
    /\ (forall p q, q <> 0 -> (forall w, In w wi_all -> ~ (loc w <= q < loc w + 2)) ->
                    at2 W p q = at2 W0 p q)
    /\ (forall q, ~ (loc w1 <= q < loc w1 + 2) -> at2 W 0 q = at2 W0 0 q).
Proof.
  intros HU Hlen Hnd Hlt Hk1 Hw1 HW0.
  assert (Hw1N : w1 < N).
  { rewrite Forall_forall in Hlt. apply Hlt, list_elem_of_In, Hw1. }
  cbv beta zeta. cbn [fst snd].
  destruct (set_col_content W0 U (loc w1) (loc k1) _ _ _ _ HW0
              ltac:(unfold loc; lia) ltac:(lia) HU ltac:(unfold loc; lia) ltac:(lia))
    as (col & W1 & Hc1 & Hc2 & HW1 & Hcol & Hcolf).
  rewrite Hc1. step. rewrite Hc2. step.
  destruct (set_row_content W1 U (loc w1) (loc k1) _ _ _ _ HW1
              ltac:(lia) ltac:(unfold loc; lia) HU ltac:(lia) ltac:(unfold loc; lia))
    as (urow0 & wrow0 & row' & Hr1 & Hr2 & Hr3 & Hr4 & HW2 & Hrow & Hrowf).
  rewrite Hr1. step. rewrite Hr2. step. rewrite Hr3. step. rewrite Hr4. step.
  destruct (expand2_inner U _ (loc k1) (loc w1) N HU ltac:(unfold loc; lia)
              ltac:(unfold loc; lia) wi_all 0 _ ltac:(lia) Hnd Hlt HW2)
    as (W & HW & HWsh & Hblk & Hblkf).
  unfold enumerate. rewrite HW. exists W. split; [reflexivity|]. split; [exact HWsh|].
  assert (Hcols : forall w, In w wi_all -> ~ (loc w <= 0 < loc w + 2))
    by (intros w _; unfold loc; lia).
  split; [|split; [|split]].
  - intros a Ha. split; [|split].
    + rewrite Hblkf by (intros _; exact Hcols).
      rewrite Hrowf by (unfold loc; lia). apply Hcol, Ha.
    + rewrite Hblkf by (unfold loc; lia). apply Hrow, Ha.
    + intros k2 w2 b Hk2 Hb. apply (Hblk k2 w2 a b Hk2 Ha Hb).
  - intros p q Hp Hrows. rewrite Hblkf by lia. rewrite Hrowf by lia. apply Hcolf. lia.
  - intros p q Hq Hfree. rewrite Hblkf by (intros _; exact Hfree).
    rewrite Hrowf by (specialize (Hfree w1 Hw1); lia). apply Hcolf. lia.
  - intros q Hq. rewrite Hblkf by (unfold loc; lia). rewrite Hrowf by lia.
    apply Hcolf. unfold loc. lia.
Qed.

(** The outer loop of the matrix branch. *)
Lemma expand2_loop (U : list (list R)) (nw N : nat) (wi_all : list nat) :
  shape2 U (1 + 2 * nw) (1 + 2 * nw) -> length wi_all = nw ->
  NoDup wi_all -> Forall (fun w => w < N) wi_all ->
  forall (wi : list nat) (s : nat) (W0 : list (list R)),
    s + length wi <= nw -> NoDup wi -> (forall w, In w wi -> In w wi_all) ->
    shape2 W0 (1 + N * 2) (1 + N * 2) ->
    exists W,
      foldM (outer_body U wi_all) (combine (seq s (length wi)) wi) W0 = Ok W
      /\ shape2 W (1 + N * 2) (1 + N * 2)
      /\ (forall k1 w1 a, nth_error wi k1 = Some w1 -> a < 2 ->
            at2 W (loc w1 + a) 0 = at2 U (loc (s + k1) + a) 0
            /\ at2 W 0 (loc w1 + a) = at2 U 0 (loc (s + k1) + a)
            /\ forall k2 w2 b, nth_error wi_all k2 = Some w2 -> b < 2 ->
                 at2 W (loc w1 + a) (loc w2 + b) = at2 U (loc (s + k1) + a) (loc k2 + b))
      /\ (forall p q, p <> 0 -> (forall w, In w wi -> ~ (loc w <= p < loc w + 2)) ->
                      at2 W p q = at2 W0 p q)
      /\ (forall p q, q <> 0 -> (forall w, In w wi_all -> ~ (loc w <= q < loc w + 2)) ->
                      at2 W p q = at2 W0 p q)
      /\ (forall q, (forall w, In w wi -> ~ (loc w <= q < loc w + 2)) ->
                    at2 W 0 q = at2 W0 0 q).
Proof.
  intros HU Hlen Hnda Hlta. induction wi as [|w wi IH]; intros s W0 Hs Hnd Hin HW0.
  - exists W0. split; [reflexivity|]. split; [exact HW0|].
    split; [intros [|k1] w1; discriminate|]. repeat split; reflexivity.
  - apply NoDup_cons in Hnd as [Hw Hnd]. cbn [length] in Hs.
    cbn [length seq combine].
    destruct (expand2_round U nw N wi_all s w W0 HU Hlen Hnda Hlta ltac:(lia)
                (Hin w (or_introl eq_refl)) HW0)
      as (W1 & HW1eq & HW1 & Hset1 & Hf1 & Hg1 & Hh1).
    destruct (IH (S s) W1 ltac:(lia) Hnd (fun w' Hw' => Hin w' (or_intror Hw')) HW1)
      as (W & HWeq & HW & Hset & Hf & Hg & Hh).
    assert (Hother : forall w', In w' wi -> w' <> w).
    { intros w' Hw' ->. apply Hw, list_elem_of_In, Hw'. }
    exists W. split; [exact (foldM_step _ _ _ _ W1 _ HW1eq HWeq)|].
    split; [exact HW|]. split; [|split; [|split]].
    + intros [|k1] w1 a Hk1 Ha; cbn [nth_error] in Hk1.
      * injection Hk1 as <-. rewrite Nat.add_0_r.
        destruct (Hset1 a Ha) as (HA & HB & HC). split; [|split].
        -- rewrite Hf; [exact HA | unfold loc; lia |].
           intros w' Hw'. specialize (Hother w' Hw'). unfold loc. lia.
        -- rewrite Hh; [exact HB|].
           intros w' Hw'. specialize (Hother w' Hw'). unfold loc. lia.
        -- intros k2 w2 b Hk2 Hb. rewrite Hf; [apply HC; assumption | unfold loc; lia |].
           intros w' Hw'. specialize (Hother w' Hw'). unfold loc. lia.
      * replace (s + S k1) with (S s + k1) by lia. apply Hset; assumption.
    + intros p q Hp Hfree. rewrite Hf; [apply Hf1; [exact Hp|] | exact Hp |].
      * apply Hfree. left. reflexivity.
      * intros w' Hw'. apply Hfree. right. exact Hw'.
    + intros p q Hq Hfree. rewrite Hg by assumption. apply Hg1; assumption.
    + intros q Hfree. rewrite Hh by (intros w' Hw'; apply Hfree; right; exact Hw').
      apply Hh1, Hfree. left. reflexivity.
Qed.

Lemma at2_zeros2 dim p q : p < dim -> q < dim -> at2 (zeros2 r0 dim) p q = Some r0.
Proof.
  intros Hp Hq. unfold at2, zeros2. rewrite List.nth_error_repeat by exact Hp.
  apply List.nth_error_repeat, Hq.
Qed.

Lemma at2_eye2 dim p q :
  p < dim -> q < dim -> at2 (eye2 r0 r1 dim) p q = Some (if p =? q then r1 else r0).
Proof.
  intros Hp Hq. unfold at2, eye2.
  rewrite List.nth_error_map, List.nth_error_seq.
  destruct (Nat.ltb_spec p dim); [|lia]. cbn [option_map].
  rewrite List.nth_error_map, List.nth_error_seq.
  destruct (Nat.ltb_spec q dim); [|lia]. reflexivity.
Qed.

(** The matrix the matrix branch fills: entry (0, 0), the first column, the
    first row and the blocks of the wires come from [U]; the rows and the
    columns of the other wires keep the zeros, or the identity. *)
Lemma expand2_content (is_obs : bool) (U : list (list R)) (wi : list nat) nw N :
  shape2 U (1 + 2 * nw) (1 + 2 * nw) -> length wi = nw ->
  NoDup wi -> Forall (fun w => w < N) wi ->
  exists W,
    expand2 r0 r1 is_obs U wi (1 + N * 2) = Ok W
    /\ shape2 W (1 + N * 2) (1 + N * 2)
    /\ at2 W 0 0 = at2 U 0 0
    /\ (forall k1 w1 a, nth_error wi k1 = Some w1 -> a < 2 ->
          at2 W (loc w1 + a) 0 = at2 U (loc k1 + a) 0
          /\ at2 W 0 (loc w1 + a) = at2 U 0 (loc k1 + a)
          /\ forall k2 w2 b, nth_error wi k2 = Some w2 -> b < 2 ->
               at2 W (loc w1 + a) (loc w2 + b) = at2 U (loc k1 + a) (loc k2 + b))
    /\ (forall p q, p < 1 + N * 2 -> q < 1 + N * 2 ->
          (p <> 0 /\ forall w, In w wi -> ~ (loc w <= p < loc w + 2))
          \/ (q <> 0 /\ forall w, In w wi -> ~ (loc w <= q < loc w + 2)) ->
          at2 W p q = Some (if is_obs then r0 else if p =? q then r1 else r0)).
Proof.
  intros HU Hlen Hnd Hlt.
  set (dim := 1 + N * 2).
  pose (W0 := if is_obs then zeros2 r0 dim else eye2 r0 r1 dim).
  assert (HW0 : shape2 W0 dim dim).
  { unfold W0. destruct is_obs; [apply zeros2_shape | apply eye2_shape]. }
  assert (Hinit : forall p q, p < dim -> q < dim ->
             at2 W0 p q = Some (if is_obs then r0 else if p =? q then r1 else r0)).
  { intros p q Hp Hq. unfold W0.
    destruct is_obs; [apply at2_zeros2 | apply at2_eye2]; assumption. }
  destruct (nth_error U 0) as [row0|] eqn:E0;
    [|apply List.nth_error_None in E0; destruct HU; lia].
  pose proof (shape2_nth _ _ _ 0 _ HU E0) as Hlen0.
  destruct row0 as [|u00 row0']; [cbn in Hlen0; lia|].
  destruct (nth_error W0 0) as [Wrow0|] eqn:EW0;
    [|apply List.nth_error_None in EW0; destruct HW0; unfold dim in *; lia].
  pose proof (shape2_nth _ _ _ 0 _ HW0 EW0) as HlenW.
  set (Wstart := <[0 := <[0 := u00]> Wrow0]> W0).
  assert (HWs : shape2 Wstart dim dim).
  { apply insert_row_shape2; [exact HW0|]. rewrite length_insert. exact HlenW. }
  assert (Hstart : forall p q, (p <> 0 \/ q <> 0) -> at2 Wstart p q = at2 W0 p q).
  { intros p q Hpq. unfold Wstart. rewrite at2_insert by (destruct HW0; unfold dim in *; lia).
    destruct p as [|p]; [|reflexivity]. cbn [Nat.eqb]. unfold at2. rewrite EW0.
    destruct q as [|q]; [lia|]. destruct Wrow0; reflexivity. }
  destruct (expand2_loop U nw N wi HU Hlen Hnd Hlt wi 0 Wstart ltac:(lia) Hnd
              (fun w Hw => Hw) HWs)
    as (W & HW & HWsh & Hset & Hf & Hg & Hh).
  exists W. split; [|split; [exact HWsh|split; [|split]]].
  - unfold expand2. fold dim. change (if is_obs then zeros2 r0 dim else eye2 r0 r1 dim) with W0.
    apply (bind_step _ _ (u00 :: row0')); [unfold item; rewrite E0; reflexivity|].
    apply (bind_step _ _ u00); [reflexivity|].
    apply (bind_step _ _ Wrow0); [unfold item; rewrite EW0; reflexivity|].
    apply (bind_step _ _ (<[0 := u00]> Wrow0));
      [apply set_item_ok; unfold dim in *; lia|].
    apply (bind_step _ _ Wstart);
      [apply set_item_ok; destruct HW0; unfold dim in *; lia|].
    exact HW.
  - rewrite Hh by (intros w _; unfold loc; lia). unfold Wstart.
    rewrite at2_insert by (destruct HW0; unfold dim in *; lia). cbn [Nat.eqb].
    unfold at2. rewrite E0. destruct Wrow0; [cbn in HlenW; unfold dim in *; lia|]. reflexivity.
  - intros k1 w1 a Hk1 Ha. apply (Hset k1 w1 a Hk1 Ha).
  - intros p q Hp Hq [[Hp0 Hfree]|[Hq0 Hfree]].
    + rewrite Hf by assumption. rewrite Hstart by (left; exact Hp0). apply Hinit; assumption.
    + rewrite Hg by assumption. rewrite Hstart by (right; exact Hq0). apply Hinit; assumption.
Qed.

(** The vector the vector branch fills: entry 0 and the pairs of the wires
    come from [U]; the pairs of the other wires keep the zeros. *)
Lemma expand1_content (v : list R) (wi : list nat) nw N :
  length v = 1 + 2 * nw -> length wi = nw -> NoDup wi -> Forall (fun w => w < N) wi ->
  exists W,
    expand1 r0 v wi (1 + N * 2) = Ok W
    /\ length W = 1 + N * 2
    /\ nth_error W 0 = nth_error v 0
    /\ (forall k w, nth_error wi k = Some w ->
                    nth_error W (loc w) = nth_error v (loc k)
                    /\ nth_error W (S (loc w)) = nth_error v (S (loc k)))
    /\ (forall p, 0 < p < 1 + N * 2 ->
                  (forall w, In w wi -> p <> loc w /\ p <> S (loc w)) ->
                  nth_error W p = Some r0).
Proof.
  intros Hv Hlen Hnd Hlt. unfold expand1.
  destruct v as [|u0 v']; [cbn in Hv; lia|].
  change (item (u0 :: v') 0) with (Ok u0). step.
  rewrite set_item_ok by (rewrite List.repeat_length; lia). step.
  set (dim := 1 + N * 2).
  set (W0 := <[0 := u0]> (repeat r0 dim)).
  assert (HW0 : length W0 = dim) by (unfold W0; rewrite length_insert; apply List.repeat_length).
  destruct (expand1_loop (u0 :: v') N wi 0 W0)
    as (W & HW & HlenW & Hset & Hkeep);
    [cbn [Nat.add]; rewrite Hlen, Hv; lia | exact Hnd | exact Hlt | exact HW0 |].
  unfold enumerate. rewrite HW. exists W.
  split; [reflexivity|]. split; [exact HlenW|].
  split; [|split].
  - rewrite Hkeep by (intros w _; unfold loc; lia). reflexivity.
  - intros k w Hk. apply (Hset k w Hk).
  - intros [|p] Hp Hfree; [lia|]. rewrite Hkeep by exact Hfree.
    unfold W0, dim in *. cbn [Nat.add repeat]. cbn. apply List.nth_error_repeat. lia.
Qed.

(** Past its checks, [heisenberg_expand] runs the branch of the number of
    dimensions of [U] at the positions of the operator's wires. *)
Lemma heisenberg_expand_expands (self : cv_operator) (U : array (R := R))
    (wire_order : Wires_t) :
  ndim U <= 2 -> len U = Ok (1 + 2 * length (wires self)) ->
  length (wires self) <> length wire_order ->
  contains_wires wire_order (wires self) = true ->
  exists wi,
    indices wire_order (wires self) = Ok wi
    /\ length wi = length (wires self)
    /\ Forall (fun w => w < length wire_order) wi
    /\ heisenberg_expand r0 r1 self U wire_order
       = match U with
         | Arr1 v => W ← expand1 r0 v wi (1 + length wire_order * 2); Ok (Arr1 W)
         | Arr2 rows =>
             W ← expand2 r0 r1 (is_Observable self) rows wi (1 + length wire_order * 2);
             Ok (Arr2 W)
         | _ => Raise (mk UnboundLocalError)
         end.
Proof.
  intros Hnd Hlen Hne Hc.
  destruct (indices_ok wire_order (wires self) Hc) as (wi & Hwi & Hlwi & Hlt).
  exists wi. split; [exact Hwi|]. split; [exact Hlwi|]. split; [exact Hlt|].
  assert (Hwo : length wire_order <> 0).
  { intros H0. apply Hne. rewrite H0, <- Hlwi.
    destruct wi as [|i wi]; [reflexivity|]. apply Forall_cons in Hlt as [Hi _]. lia. }
  unfold heisenberg_expand. rewrite Hlen. step.
  destruct (Nat.ltb_spec 2 (ndim U)); [lia|]. rewrite Nat.eqb_refl. cbn [negb].
  destruct (Nat.eqb_spec (length wire_order) 0); [contradiction|].
  destruct (Nat.eqb_spec (length (wires self)) (length wire_order)); [contradiction|].
  cbn [orb]. rewrite Hc, Hwi. reflexivity.
Qed.

(** The vector [heisenberg_expand] returns for a vector [U] in the basis
    (I, x_0, p_0, ...) of the operator, whose wires are all in [wire_order].
    When [wire_order] has as many wires as the operator, it is [U] as it is,
    whatever the order of the wires.  Otherwise entry 0 is that of [U]; the
    pair (x, p) of the operator's k-th wire stands at the position of that
    wire in [wire_order]; the pair of every wire the operator does not act
    on is zero. *)
Theorem heisenberg_expand_vector (self : cv_operator) (v : list R) (wire_order : Wires_t) :
  length v = 1 + 2 * length (wires self) ->
  NoDup (wires self) ->
  contains_wires wire_order (wires self) = true ->
  (length (wires self) = length wire_order ->
   heisenberg_expand r0 r1 self (Arr1 v) wire_order = Ok (Arr1 v))
  /\ (length (wires self) <> length wire_order ->
      exists W,
        heisenberg_expand r0 r1 self (Arr1 v) wire_order = Ok (Arr1 W)
        /\ length W = 1 + 2 * length wire_order
        /\ nth_error W 0 = nth_error v 0
        /\ (forall k x i,
              nth_error (wires self) k = Some x -> index_of x wire_order = Some i ->
              nth_error W (loc i) = nth_error v (loc k)
              /\ nth_error W (S (loc i)) = nth_error v (S (loc k)))
        /\ (forall j y,
              nth_error wire_order j = Some y -> y ∉ wires self ->
              nth_error W (loc j) = Some r0 /\ nth_error W (S (loc j)) = Some r0)).
Proof.
  intros Hv Hnd Hc. split.
  - intros Heq. unfold heisenberg_expand. cbn [len ndim]. step. cbn [Nat.ltb Nat.leb].
    rewrite Hv, Nat.eqb_refl, Heq, Nat.eqb_refl, orb_true_r. reflexivity.
  - intros Hne.
    destruct (heisenberg_expand_expands self (Arr1 v) wire_order)
      as (wi & Hwi & Hlen & Hlt & ->);
      [cbn; lia | cbn [len]; rewrite Hv; reflexivity | exact Hne | exact Hc |].
    pose proof (indices_nth _ _ _ Hwi) as [Hfwd Hbwd].
    pose proof (indices_NoDup _ _ _ Hwi Hnd) as Hndwi.
    destruct (expand1_content v wi _ (length wire_order) Hv Hlen Hndwi Hlt)
      as (W & -> & HlenW & H0 & Hset & Hzero).
    step. exists W. split; [reflexivity|]. split; [lia|]. split; [exact H0|]. split.
    + intros k x i Hk Hi. destruct (Hfwd k x Hk) as (i' & Hi' & Hki).
      rewrite Hi in Hi'. injection Hi' as <-. apply (Hset k i Hki).
    + intros j y Hj Hy.
      assert (Hjlt : j < length wire_order) by (apply List.nth_error_Some; congruence).
      assert (Hfree : forall p, p = loc j \/ p = S (loc j) ->
                                forall w, In w wi -> p <> loc w /\ p <> S (loc w)).
      { intros p Hp w Hw. assert (w <> j).
        { intros ->. destruct (Hbwd j Hw) as (x & Hx & Hxj).
          apply index_of_nth in Hxj. rewrite Hj in Hxj. injection Hxj as ->. contradiction. }
        unfold loc in *. lia. }
      split; (apply Hzero; [unfold loc; lia | apply Hfree]); [left | right]; reflexivity.
Qed.

(** C3: what [heisenberg_expand(U, wire_order)] does.  A 0-dimensional [U]
    has no length: [TypeError].  An array of more than two dimensions, or of
    a size other than 1 + 2 * (the operator's wire count): [ValueError].
    Otherwise, when [wire_order] is empty or has as many wires as the
    operator, [U] is returned as it is, whether the operator's wires are in
    [wire_order] or not: the containment check comes after this return, so
    no error is raised for a wire that is not in [wire_order].  Otherwise
    [ValueError] when a wire of the operator is not in [wire_order], and
    else the expanded array of dimension 1 + 2 * |wire_order|: entry 0, the
    pairs (for a square matrix: entry (0, 0), the first column, the first
    row and the blocks) of the operator's wires come from [U], at the
    positions of the wires in [wire_order]; the entries of the other wires
    are those of [np.zeros], or of [np.eye] for a matrix of an operator that
    is no observable. *)
Theorem heisenberg_expand_behaviour (self : cv_operator) (U : array (R := R))
    (wire_order : Wires_t) :
  let nw := length (wires self) in
  let D := 1 + 2 * length wire_order in
  let init := fun p q : nat => if is_Observable self then r0 else if p =? q then r1 else r0 in
  (ndim U = 0 -> heisenberg_expand r0 r1 self U wire_order = Raise (mk TypeError))
  /\ (2 < ndim U -> heisenberg_expand r0 r1 self U wire_order = Raise (mk ValueError))
  /\ (forall n, len U = Ok n -> n <> 1 + 2 * nw ->
                heisenberg_expand r0 r1 self U wire_order = Raise (mk ValueError))
  /\ (ndim U <= 2 -> len U = Ok (1 + 2 * nw) ->
      (length wire_order = 0 \/ nw = length wire_order ->
       heisenberg_expand r0 r1 self U wire_order = Ok U)
      /\ (length wire_order <> 0 -> nw <> length wire_order ->
          (contains_wires wire_order (wires self) = false ->
           heisenberg_expand r0 r1 self U wire_order = Raise (mk ValueError))
          /\ (contains_wires wire_order (wires self) = true -> NoDup (wires self) ->
              (forall v, U = Arr1 v ->
                 exists W,
                   heisenberg_expand r0 r1 self U wire_order = Ok (Arr1 W)
                   /\ length W = D
                   /\ nth_error W 0 = nth_error v 0
                   /\ (forall k x i a,
                         nth_error (wires self) k = Some x ->
                         index_of x wire_order = Some i -> a < 2 ->
                         nth_error W (loc i + a) = nth_error v (loc k + a))
                   /\ (forall j y a,
                         nth_error wire_order j = Some y -> y ∉ wires self -> a < 2 ->
                         nth_error W (loc j + a) = Some r0))
              /\ (forall rows, U = Arr2 rows -> shape2 rows (1 + 2 * nw) (1 + 2 * nw) ->
                 exists W,
                   heisenberg_expand r0 r1 self U wire_order = Ok (Arr2 W)
                   /\ shape2 W D D
                   /\ at2 W 0 0 = at2 rows 0 0
                   /\ (forall k x i a,
                         nth_error (wires self) k = Some x ->
                         index_of x wire_order = Some i -> a < 2 ->
                         at2 W (loc i + a) 0 = at2 rows (loc k + a) 0
                         /\ at2 W 0 (loc i + a) = at2 rows 0 (loc k + a)
                         /\ forall l y j b,
                              nth_error (wires self) l = Some y ->
                              index_of y wire_order = Some j -> b < 2 ->
                              at2 W (loc i + a) (loc j + b) = at2 rows (loc k + a) (loc l + b))
                   /\ (forall j y a q,
                         nth_error wire_order j = Some y -> y ∉ wires self ->
                         a < 2 -> q < D ->
                         at2 W (loc j + a) q = Some (init (loc j + a) q)
                         /\ at2 W q (loc j + a) = Some (init q (loc j + a))))))).
Proof.
  intros nw D init. split; [|split; [|split]].
  - intros H0. destruct U; cbn in H0; try discriminate. reflexivity.
  - intros Hnd. unfold heisenberg_expand.
    destruct U; cbn in Hnd; try lia. reflexivity.
  - intros n Hlen Hn. unfold heisenberg_expand. rewrite Hlen. step.
    destruct (2 <? ndim U); [reflexivity|].
    destruct (Nat.eqb_spec n (1 + 2 * length (wires self))); [contradiction | reflexivity].
  - intros Hnd Hlen. split.
    + intros Hret. unfold heisenberg_expand. rewrite Hlen. step.
      destruct (Nat.ltb_spec 2 (ndim U)); [lia|]. rewrite Nat.eqb_refl. cbn [negb].
      destruct Hret as [H0|Heq].
      * rewrite H0. reflexivity.
      * unfold nw in Heq. rewrite Heq, Nat.eqb_refl, orb_true_r. reflexivity.
    + intros H0 Hne. split.
      * intros Hc. unfold heisenberg_expand. rewrite Hlen. step.
        destruct (Nat.ltb_spec 2 (ndim U)); [lia|]. rewrite Nat.eqb_refl. cbn [negb].
        destruct (Nat.eqb_spec (length wire_order) 0); [contradiction|].
        destruct (Nat.eqb_spec (length (wires self)) (length wire_order)); [contradiction|].
        cbn [orb]. rewrite Hc. reflexivity.
      * intros Hc Hndw.
        destruct (heisenberg_expand_expands self U wire_order Hnd Hlen Hne Hc)
          as (wi & Hwi & Hlwi & Hlt & Hrun).
        pose proof (indices_nth _ _ _ Hwi) as [Hfwd Hbwd].
        pose proof (indices_NoDup _ _ _ Hwi Hndw) as Hndwi.
        assert (Hfree : forall j y, nth_error wire_order j = Some y -> y ∉ wires self ->
                                    forall w, In w wi -> w <> j).
        { intros j y Hj Hy w Hw ->. destruct (Hbwd j Hw) as (x & Hx & Hxj).
          apply index_of_nth in Hxj. rewrite Hj in Hxj. injection Hxj as ->. contradiction. }
        assert (Hpos : forall k x i, nth_error (wires self) k = Some x ->
                                     index_of x wire_order = Some i -> nth_error wi k = Some i).
        { intros k x i Hk Hi. destruct (Hfwd k x Hk) as (i' & Hi' & Hki). congruence. }
        split.
        -- intros v ->. cbn [len] in Hlen. injection Hlen as Hv.
           destruct (expand1_content v wi _ (length wire_order) Hv Hlwi Hndwi Hlt)
             as (W & HW & HlenW & HW0 & Hset & Hzero).
           rewrite Hrun, HW. step. exists W. split; [reflexivity|].
           split; [unfold D; lia|]. split; [exact HW0|]. split.
           ++ intros k x i a Hk Hi Ha. destruct (Hset k i (Hpos k x i Hk Hi)) as [Ha0 Ha1].
              destruct a as [|[|a]]; [| |lia]; rewrite ?Nat.add_0_r, ?Nat.add_1_r; assumption.
           ++ intros j y a Hj Hy Ha.
              assert (Hjlt : j < length wire_order) by (apply List.nth_error_Some; congruence).
              apply Hzero; [unfold loc; lia|].
              intros w Hw. pose proof (Hfree j y Hj Hy w Hw). unfold loc. lia.
        -- intros rows -> Hsh.
           destruct (expand2_content (is_Observable self) rows wi _ (length wire_order)
                       Hsh Hlwi Hndwi Hlt)
             as (W & HW & HWsh & HW00 & Hset & Hinit).
           rewrite Hrun, HW. step. exists W. split; [reflexivity|].
           replace D with (1 + length wire_order * 2) by (unfold D; lia).
           split; [exact HWsh|]. split; [exact HW00|]. split.
           ++ intros k x i a Hk Hi Ha.
              destruct (Hset k i a (Hpos k x i Hk Hi) Ha) as (HA & HB & HC).
              split; [exact HA|]. split; [exact HB|].
              intros l y j b Hl Hj Hb. apply HC; [apply (Hpos l y j Hl Hj) | exact Hb].
           ++ intros j y a q Hj Hy Ha Hq.
              assert (Hjlt : j < length wire_order) by (apply List.nth_error_Some; congruence).
              assert (Hrow : forall w, In w wi -> ~ (loc w <= loc j + a < loc w + 2)).
              { intros w Hw. pose proof (Hfree j y Hj Hy w Hw). unfold loc. lia. }
              split; apply Hinit; try (unfold loc; lia).
              ** left. split; [unfold loc; lia | exact Hrow].
              ** right. split; [unfold loc; lia | exact Hrow].
Qed.

End Facts.

Lemma heisenberg_expand_vector_witness :
  heisenberg_expand 0%float 1%float {| wires := [LInt 1; LInt 0]; is_Observable := true |}
    (Arr1 [7; 1; 2; 3; 4]%float) [LInt 0; LInt 1]
  = Ok (Arr1 [7; 1; 2; 3; 4]%float)
  /\ exists W,
      heisenberg_expand 0%float 1%float {| wires := [LInt 2; LInt 0]; is_Observable := true |}
        (Arr1 [7; 1; 2; 3; 4]%float) [LInt 0; LInt 1; LInt 2] = Ok (Arr1 W)
      /\ length W = 7
      /\ nth_error W 0 = Some 7%float
      /\ nth_error W (loc 1) = Some 0%float.
Proof.
  split.
  - apply (heisenberg_expand_vector 0%float 1%float
             {| wires := [LInt 1; LInt 0]; is_Observable := true |}
             [7; 1; 2; 3; 4]%float [LInt 0; LInt 1]).
    + reflexivity.
    + apply (bool_decide_unpack _). vm_compute. exact I.
    + reflexivity.
    + reflexivity.
  - destruct (heisenberg_expand_vector 0%float 1%float
                {| wires := [LInt 2; LInt 0]; is_Observable := true |}
                [7; 1; 2; 3; 4]%float [LInt 0; LInt 1; LInt 2])
      as [_ H].
    + reflexivity.
    + apply (bool_decide_unpack _). vm_compute. exact I.
    + reflexivity.
    + destruct H as (W & HW & Hlen & H0 & _ & Hzero); [cbn; lia|].
      exists W. split; [exact HW|]. split; [exact Hlen|]. split; [exact H0|].
      apply (Hzero 1 (LInt 1)); [reflexivity|].
      apply (bool_decide_unpack _). vm_compute. exact I.
Defined.

Lemma heisenberg_expand_behaviour_witness :
  let self := {| wires := [LInt 1]; is_Observable := false |} in
  exists W,
    heisenberg_expand 0%float 1%float self
      (Arr2 [[1; 0; 0]; [2; 3; 4]; [5; 6; 7]]%float) [LInt 0; LInt 1] = Ok (Arr2 W)
    /\ shape2 W 5 5
    /\ at2 W 0 0 = Some 1%float
    /\ at2 W 4 3 = Some 6%float
    /\ at2 W 1 1 = Some 1%float
    /\ at2 W 1 3 = Some 0%float.
Proof.
  intros self.
  destruct (heisenberg_expand_behaviour 0%float 1%float self
              (Arr2 [[1; 0; 0]; [2; 3; 4]; [5; 6; 7]]%float) [LInt 0; LInt 1])
    as (_ & _ & _ & H).
  destruct H as [_ H]; [cbn; lia | reflexivity |].
  destruct H as [_ H]; [cbn; lia | cbn; lia |].
  destruct H as [_ H]; [reflexivity | apply (bool_decide_unpack _); vm_compute; exact I |].
  destruct (H [[1; 0; 0]; [2; 3; 4]; [5; 6; 7]]%float eq_refl)
    as (W & HW & Hsh & H00 & Hset & Hinit).
  { split; [reflexivity | repeat constructor]. }
  exists W. split; [exact HW|]. split; [exact Hsh|]. split; [exact H00|].
  destruct (Hset 0 (LInt 1) 1 1 eq_refl eq_refl ltac:(lia)) as (_ & _ & Hblk).
  split; [exact (Hblk 0 (LInt 1) 1 0 eq_refl eq_refl ltac:(lia))|].
  assert (Hfree : LInt 0 ∉ wires self)
    by (apply (bool_decide_unpack _); vm_compute; exact I).
  destruct (Hinit 0 (LInt 0) 0 1 eq_refl Hfree ltac:(lia) ltac:(cbn; lia)) as [H11 _].
  destruct (Hinit 0 (LInt 0) 0 3 eq_refl Hfree ltac:(lia) ltac:(cbn; lia)) as [H13 _].
  split; [exact H11 | exact H13].
Defined.

(** With as many wires in [wire_order] as the operator has, [U] is returned
    although the operator's wire is not in [wire_order]. *)
Lemma heisenberg_expand_foreign_wire :
  let self := {| wires := [LInt 0]; is_Observable := true |} in
  contains_wires [LInt 1] (wires self) = false
  /\ heisenberg_expand 0%float 1%float self (Arr1 [5; 7; 9]%float) [LInt 1]
     = Ok (Arr1 [5; 7; 9]%float).
Proof. split; reflexivity. Qed.

End CVFacts.

(** ** Comparison of observables *)

Module CompareFacts.
Import TensorModel CompareModel TensorFacts.



Section Facts.

Context {ctx : Type} `{QueuingContext ctx}.
Variable is_Identity : observable -> bool.
Variable parameters_bytes : observable -> res (list string).

Local Abbreviation non_identity :=
  (List.filter (fun ob : observable => negb (is_Identity ob))).






(** [compare] with something that is no observable raises [ValueError]
    before anything is built. *)
Lemma compare_refuses depth (h : gmap ref object) (q : ctx) (a b : ref) :
  is_Observable h b = false ->
  compare is_Identity parameters_bytes depth a b (h, q) = ((h, q), Raise (mk ValueError)).
Proof. intros Hb. unfold compare, bindM, get_heap. cbn [fst snd]. rewrite Hb. reflexivity. Qed.

End Facts.


End CompareFacts.

(** ** Eigenvalues of a tensor *)

Module TensorEigvalsFacts.
Import TensorModel TensorMatrixModel TensorEigvalsModel.

Lemma insert_by_Permutation {A} (key : A -> list string) (x : A) (l : list A) :
  Permutation (insert_by key x l) (x :: l).
Proof.
  induction l as [|y l IH]; [reflexivity|]. cbn [insert_by].
  destruct (key_lt (key y) (key x)); [|reflexivity].
  rewrite IH. apply perm_swap.
Qed.

Lemma sorted_by_Permutation {A} (key : A -> list string) (l : list A) :
  Permutation (sorted_by key l) l.
Proof.
  unfold sorted_by. induction l as [|x l IH]; [reflexivity|]. cbn [fold_right].
  rewrite insert_by_Permutation, IH. reflexivity.
Qed.

Lemma groupby_keyed_const {A K} `{EqDecision K} (key : A -> K) (k : K) (x : A) (l : list A) :
  Forall (fun y => key y = k) (x :: l) -> groupby_keyed key (x :: l) = [(k, x :: l)].
Proof.
  revert x. induction l as [|y l IH]; intros x Hk.
  - apply Forall_cons in Hk as [Hx _]. cbn. rewrite Hx. reflexivity.
  - apply Forall_cons in Hk as [Hx Hl].
    change (groupby_keyed key (x :: y :: l))
      with (match groupby_keyed key (y :: l) with
            | (k0, g) :: gs =>
                if decide (key x = k0) then (k0, x :: g) :: gs
                else (key x, [x]) :: (k0, g) :: gs
            | [] => [(key x, [x])]
            end).
    rewrite (IH y Hl). destruct (decide (key x = k)); [reflexivity | contradiction].
Qed.

Lemma key_lt_asym (a b : list string) : key_lt a b = true -> key_lt b a = false.
Proof.
  revert b. induction a as [|x a IH]; intros [|y b]; cbn [key_lt]; try discriminate;
    try reflexivity.
  rewrite (String.compare_antisym x y). destruct (String.compare y x); cbn [CompOpp].
  - apply IH.
  - discriminate.
  - reflexivity.
Qed.

(** No element of the list stands before one with a smaller key. *)
Lemma insert_by_ordered {A} (key : A -> list string) (x : A) (l : list A) :
  (forall l1 a b l2, l = l1 ++ a :: b :: l2 -> key_lt (key b) (key a) = false) ->
  forall l1 a b l2, insert_by key x l = l1 ++ a :: b :: l2 -> key_lt (key b) (key a) = false.
Proof.
  induction l as [|y l IH]; intros Hl l1 a b l2 E; cbn [insert_by] in E.
  - destruct l1 as [|? [|? ?]]; discriminate E.
  - destruct (key_lt (key y) (key x)) eqn:Eyx.
    + destruct l1 as [|z l1]; cbn [app] in E.
      * injection E as <- E.
        destruct l as [|z l]; cbn [insert_by] in E.
        -- injection E as <- _. apply key_lt_asym, Eyx.
        -- destruct (key_lt (key z) (key x)) eqn:Ezx.
           ++ injection E as <- _. apply (Hl [] y z l eq_refl).
           ++ injection E as <- _. apply key_lt_asym, Eyx.
      * injection E as <- E. apply (IH (fun l1' a' b' l2' E' =>
                                          Hl (y :: l1') a' b' l2' (f_equal (cons y) E'))
                                      l1 a b l2 E).
    + destruct l1 as [|z l1]; cbn [app] in E.
      * injection E as <- <- _. exact Eyx.
      * injection E as <- E. apply (Hl l1 a b l2 E).
Qed.

Lemma sorted_by_ordered {A} (key : A -> list string) (l : list A) :
  forall l1 a b l2, sorted_by key l = l1 ++ a :: b :: l2 -> key_lt (key b) (key a) = false.
Proof.
  unfold sorted_by. induction l as [|x l IH]; cbn [fold_right].
  - intros l1 a b l2 E. destruct l1; discriminate E.
  - apply insert_by_ordered, IH.
Qed.

Section Facts.

Context {vec : Type}.
Variable np_array_1 : vec.
Variable pauli_eigs : nat -> res vec.
Variable np_kron : vec -> vec -> vec.
Variable py_str : label -> string.
Variable obs_eigvals : observable -> res vec.

Local Abbreviation eigvals := (Tensor_eigvals np_array_1 pauli_eigs np_kron py_str obs_eigvals).
Local Abbreviation wire_key := (fun x : observable => map py_str (obs_wires x)).

(** When [pauli_eigs(len(self.wires))] raises, as it does for a tensor
    without wires, the first call of [eigvals()] raises that error and the
    cache stays empty.  When it returns, the first call leaves a value in
    the cache: the returned one when the call returns, the product built so
    far when a constituent's [eigvals()] raises.  Every later call returns
    that value without looking at the constituents, so also after the tensor
    has grown, and also after a call that raised. *)
Theorem Tensor_eigvals_cached (obs : list observable) :
  (forall ex, pauli_eigs (length (Tensor_wires obs)) = Raise ex ->
     eigvals None obs = (None, Raise ex))
  /\ (forall v0, pauli_eigs (length (Tensor_wires obs)) = Ok v0 ->
      exists v,
        fst (eigvals None obs) = Some v
        /\ (snd (eigvals None obs) = Ok v \/ exists ex, snd (eigvals None obs) = Raise ex)
        /\ forall obs', eigvals (fst (eigvals None obs)) obs' = (Some v, Ok v)).
Proof.
  unfold Tensor_eigvals. split.
  - intros ex ->. reflexivity.
  - intros v0 ->. destruct (existsb _ obs).
    + destruct (kron_groups _ _ _ _ _) as [c [[]|ex]]; exists c; cbn [fst snd]; eauto.
    + exists v0. cbn [fst snd]. eauto.
Qed.

Lemma kron_each_ok (g : list observable) (es : list vec) (cache : vec) :
  mapM obs_eigvals g = Ok es ->
  kron_each np_kron obs_eigvals cache g = (fold_left np_kron es cache, Ok tt).
Proof.
  revert es cache. induction g as [|o g IH]; intros es cache; cbn [mapM kron_each].
  - intros [= <-]. reflexivity.
  - destruct (obs_eigvals o) as [e|]; cbn [mbind res_bind Py.bind]; [|discriminate].
    destruct (mapM obs_eigvals g) as [es'|]; cbn [mbind res_bind Py.bind]; [|discriminate].
    intros [= <-]. cbn [fold_left]. apply IH. reflexivity.
Qed.

(** The value [eigvals()] computes on an empty cache, when
    [pauli_eigs(len(self.wires))] returns [v0].  When every constituent is
    one of PauliX, PauliY, PauliZ, Hadamard it is [v0].  When there are
    constituents and none is one of these, it is the Kronecker product of
    [np.array([1])] and the constituents' own eigenvalues, taken in the
    order of the constituents sorted by the strings of their wire labels: a
    rearrangement of the constituents in which none stands before one with a
    smaller key. *)
Theorem Tensor_eigvals_value (obs : list observable) (v0 : vec) :
  pauli_eigs (length (Tensor_wires obs)) = Ok v0 ->
  (Forall (fun o => is_standard o = true) obs -> eigvals None obs = (Some v0, Ok v0))
  /\ (forall es,
        obs <> [] -> Forall (fun o => is_standard o = false) obs ->
        mapM obs_eigvals (sorted_by wire_key obs) = Ok es ->
        eigvals None obs
        = (Some (fold_left np_kron es np_array_1), Ok (fold_left np_kron es np_array_1))
        /\ Permutation (sorted_by wire_key obs) obs
        /\ forall l1 a b l2, sorted_by wire_key obs = l1 ++ a :: b :: l2 ->
                             key_lt (wire_key b) (wire_key a) = false).
Proof.
  intros Hv0. split.
  - intros Hstd. unfold Tensor_eigvals. rewrite Hv0.
    assert (Hex : existsb (fun o => negb (is_standard o)) obs = false).
    { apply TensorMatrixMoreFacts.existsb_none. intros o Ho. rewrite List.Forall_forall in Hstd.
      rewrite (Hstd o Ho). reflexivity. }
    rewrite Hex. reflexivity.
  - intros es Hne Hns Hes.
    split; [|split; [apply sorted_by_Permutation | apply sorted_by_ordered]].
    unfold Tensor_eigvals. rewrite Hv0.
    assert (Hex : existsb (fun o => negb (is_standard o)) obs = true).
    { destruct obs as [|o obs']; [contradiction|]. apply Forall_cons in Hns as [Ho _].
      cbn [existsb]. rewrite Ho. reflexivity. }
    rewrite Hex.
    pose proof (sorted_by_Permutation wire_key obs) as Hperm.
    assert (Hsorted : Forall (fun o => is_standard o = false) (sorted_by wire_key obs)).
    { rewrite Hperm. exact Hns. }
    destruct (sorted_by wire_key obs) as [|x l] eqn:Es.
    { symmetry in Hperm. apply Permutation_nil_r in Hperm. contradiction. }
    rewrite (groupby_keyed_const is_standard false x l Hsorted).
    cbn [kron_groups]. rewrite (kron_each_ok (x :: l) es np_array_1 Hes). reflexivity.
Qed.

End Facts.

Lemma Tensor_eigvals_cached_witness :
  let pauli_eigs := fun n => match n with
                             | 0 => Raise (mk RecursionError)
                             | _ => Ok (repeat 1%Z (2 ^ n))
                             end in
  let eigvals := Tensor_eigvals [1%Z] pauli_eigs (fun a b => a ++ b)
                   (fun l => match l with LInt z => pretty z | LStr s => s end)
                   (fun o => Ok [Z.of_nat (length (obs_wires o))]) in
  eigvals None [] = (None, Raise (mk RecursionError))
  /\ exists v,
      fst (eigvals None [MoreExamples.Herm_on 2 3]) = Some v
      /\ eigvals (Some v) [] = (Some v, Ok v).
Proof.
  intros pauli_eigs eigvals. split.
  - apply (proj1 (Tensor_eigvals_cached [1%Z] pauli_eigs (fun a b => a ++ b)
                    (fun l => match l with LInt z => pretty z | LStr s => s end)
                    (fun o => Ok [Z.of_nat (length (obs_wires o))]) [])).
    reflexivity.
  - destruct (proj2 (Tensor_eigvals_cached [1%Z] pauli_eigs (fun a b => a ++ b)
                       (fun l => match l with LInt z => pretty z | LStr s => s end)
                       (fun o => Ok [Z.of_nat (length (obs_wires o))])
                       [MoreExamples.Herm_on 2 3]) [1; 1; 1; 1]%Z eq_refl)
      as (v & Hv & _ & Hlater).
    exists v. split; [exact Hv|]. specialize (Hlater []).
    unfold eigvals. rewrite Hv in Hlater. exact Hlater.
Defined.

Lemma Tensor_eigvals_value_witness :
  Tensor_eigvals [1%Z] (fun n => match n with
                                 | 0 => Raise (mk RecursionError)
                                 | _ => Ok (repeat 1%Z (2 ^ n))
                                 end)
    (fun a b => a ++ b)
    (fun l => match l with LInt z => pretty z | LStr s => s end)
    (fun o => Ok [Z.of_nat (length (obs_wires o))])
    None [MoreExamples.Herm_on 2 3; MoreExamples.Herm_on 0 1]
  = (Some [1; 2; 2]%Z, Ok [1; 2; 2]%Z).
Proof.
  apply (proj2 (Tensor_eigvals_value [1%Z]
                  (fun n => match n with
                            | 0 => Raise (mk RecursionError)
                            | _ => Ok (repeat 1%Z (2 ^ n))
                            end)
                  (fun a b => a ++ b)
                  (fun l => match l with LInt z => pretty z | LStr s => s end)
                  (fun o => Ok [Z.of_nat (length (obs_wires o))])
                  [MoreExamples.Herm_on 2 3; MoreExamples.Herm_on 0 1]
                  (repeat 1%Z 16) eq_refl) [[2]; [2]]%Z).
  - discriminate.
  - repeat constructor.
  - vm_compute. reflexivity.
Defined.

End TensorEigvalsFacts.
